(** * Loop duplication passes (LoopDuplicationPass, LASBC, LoopConditionalLICM)

    A shallow embedding of the loop duplication engine of
    [llvm/lib/Transforms/LoopDuplication/LoopDuplicationPass.cpp] and of its
    two clients, LASBC (loop array subscript bound checking) and
    LoopConditionalLICM, over a small model of the LLVM IR:

    - [IR]: types, values, instructions, basic blocks, functions, use lists;
    - [Sem]: an executable semantics of the modelled IR fragment;
    - [Loops]: LoopInfo, the loop queries the passes make;
    - [Utils]: the LLVM utilities the passes call (block splitting,
      cloning, remapping, dead code removal);
    - [Engine]: [transformCurrentLoop], generic in the strategy;
    - [LASBC], [LCLICM]: the two strategies and their [runOnLoop].

    Pointers of the C++ code are identifiers here: an instruction, a basic
    block and a loop are each named by a [positive], and the objects they
    point to live in the function ([Func]) and in [LoopInfo]. *)

From Stdlib Require Import ZArith List Bool Lia.
From stdpp Require Import base option list gmap sets.

Open Scope Z_scope.

(* ===================================================================== *)
(** * The IR *)
(* ===================================================================== *)

Module IR.

Abbreviation BlockId := positive (only parsing).
Abbreviation InstId := positive (only parsing).

(** [Type]: integers of a bit width, typed and opaque pointers, arrays. *)
Inductive Ty : Type :=
| IntTy (w : N)
| PtrTy (pointee : Ty)
| OpaquePtrTy
| ArrTy (n : N) (elem : Ty)
| VoidTy.

Fixpoint Ty_eqb (a b : Ty) : bool :=
  match a, b with
  | IntTy v, IntTy w => N.eqb v w
  | PtrTy x, PtrTy y => Ty_eqb x y
  | OpaquePtrTy, OpaquePtrTy => true
  | ArrTy n x, ArrTy m y => N.eqb n m && Ty_eqb x y
  | VoidTy, VoidTy => true
  | _, _ => false
  end.

Definition isIntegerTy (t : Ty) : bool :=
  match t with IntTy _ => true | _ => false end.

(** [DataLayout::getTypeSizeInBits] for a data layout with 64-bit pointers
    and naturally sized integers (the layout of the tests). *)
Fixpoint getTypeSizeInBits (t : Ty) : N :=
  match t with
  | IntTy w => w
  | PtrTy _ | OpaquePtrTy => 64
  | ArrTy n e => (n * (8 * ((getTypeSizeInBits e + 7) / 8)))%N
  | VoidTy => 0
  end.

(** [DataLayout::getTypeAllocSize], in bytes. *)
Definition getTypeAllocSize (t : Ty) : N := ((getTypeSizeInBits t + 7) / 8)%N.

(** Values.  Integer constants are kept as the unsigned representative of
    their bit pattern. *)
Inductive Value : Type :=
| ConstantInt (ty : Ty) (v : Z)
| UndefValue (ty : Ty)
| Argument (ty : Ty) (n : positive)
| GlobalValue (ty : Ty) (g : positive)
| InstRef (i : InstId).

Definition Value_eqb (a b : Value) : bool :=
  match a, b with
  | ConstantInt s x, ConstantInt t y => Ty_eqb s t && Z.eqb x y
  | UndefValue s, UndefValue t => Ty_eqb s t
  | Argument s n, Argument t m => Ty_eqb s t && Pos.eqb n m
  | GlobalValue s n, GlobalValue t m => Ty_eqb s t && Pos.eqb n m
  | InstRef i, InstRef j => Pos.eqb i j
  | _, _ => false
  end.

Inductive Opcode : Type := Add | Sub | Mul | And | Or | Xor | Shl.

Inductive Predicate : Type :=
| ICMP_EQ | ICMP_NE
| ICMP_UGT | ICMP_UGE | ICMP_ULT | ICMP_ULE
| ICMP_SGT | ICMP_SGE | ICMP_SLT | ICMP_SLE.

(** Instruction kinds.  A [BranchInst] is unconditional ([Br]) or
    conditional ([CondBr], successor 0 taken when the condition is true). *)
Inductive InstKind : Type :=
| PHINode (incoming : list (Value * BlockId))
| BinaryOperator (op : Opcode) (a b : Value)
| ZExtInst (a : Value)
| ICmpInst (p : Predicate) (a b : Value)
| GetElementPtrInst (srcTy : Ty) (ptr : Value) (idx : list Value)
| PtrToIntInst (a : Value)
| LoadInst (ptr : Value)
| StoreInst (val ptr : Value)
| Br (dest : BlockId)
| CondBr (cond : Value) (ifTrue ifFalse : BlockId)
| InvokeInst (args : list Value) (normal unwind : BlockId)
| ReturnInst (v : option Value)
| LandingPadInst
| CallInst (noduplicate : bool) (args : list Value).

Record Instruction : Type := mkInst {
  iid : InstId;
  ity : Ty;
  ikind : InstKind
}.

Record BasicBlock : Type := mkBlock {
  bid : BlockId;
  binsts : list Instruction
}.

(** A function is the list of its blocks, in layout order. *)
Definition Func : Type := list BasicBlock.

Definition getBlock (F : Func) (b : BlockId) : option BasicBlock :=
  List.find (fun B => Pos.eqb (bid B) b) F.

Definition allInsts (F : Func) : list Instruction :=
  flat_map binsts F.

Definition getInst (F : Func) (i : InstId) : option Instruction :=
  List.find (fun ins => Pos.eqb (iid ins) i) (allInsts F).

(** [Instruction::getParent]. *)
Definition getParent (F : Func) (i : InstId) : option BlockId :=
  bid <$> List.find
    (fun B => existsb (fun ins => Pos.eqb (iid ins) i) (binsts B)) F.

Definition isPHI (ins : Instruction) : bool :=
  match ikind ins with PHINode _ => true | _ => false end.

Fixpoint takeWhile {A} (f : A -> bool) (l : list A) : list A :=
  match l with
  | [] => []
  | x :: rest => if f x then x :: takeWhile f rest else []
  end.

(** [BasicBlock::phis]: the phi nodes at the head of the block. *)
Definition phis (B : BasicBlock) : list Instruction :=
  takeWhile isPHI (binsts B).

Definition isTerminatorKind (k : InstKind) : bool :=
  match k with
  | Br _ | CondBr _ _ _ | InvokeInst _ _ _ | ReturnInst _ => true
  | _ => false
  end.

(** [BasicBlock::getTerminator]. *)
Definition getTerminator (B : BasicBlock) : option Instruction :=
  match List.last (map Some (binsts B)) None with
  | Some ins => if isTerminatorKind (ikind ins) then Some ins else None
  | None => None
  end.

Definition kindSuccessors (k : InstKind) : list BlockId :=
  match k with
  | Br d => [d]
  | CondBr _ t f => [t; f]
  | InvokeInst _ n u => [n; u]
  | _ => []
  end.

Definition successors (B : BasicBlock) : list BlockId :=
  match getTerminator B with
  | Some T => kindSuccessors (ikind T)
  | None => []
  end.

(** [predecessors(S)]: one entry per edge into [S]. *)
Definition predecessors (F : Func) (S : BlockId) : list BlockId :=
  flat_map
    (fun B => map (fun _ => bid B)
                (List.filter (Pos.eqb S) (successors B))) F.

(** [BasicBlock::getLandingPadInst]. *)
Definition getLandingPadInst (B : BasicBlock) : option Instruction :=
  List.find (fun ins => match ikind ins with LandingPadInst => true | _ => false end)
    (binsts B).

(** The value operands of an instruction (blocks are not among them). *)
Definition operands (k : InstKind) : list Value :=
  match k with
  | PHINode inc => map fst inc
  | BinaryOperator _ a b => [a; b]
  | ZExtInst a => [a]
  | ICmpInst _ a b => [a; b]
  | GetElementPtrInst _ p idx => p :: idx
  | PtrToIntInst a => [a]
  | LoadInst p => [p]
  | StoreInst v p => [v; p]
  | Br _ => []
  | CondBr c _ _ => [c]
  | InvokeInst args _ _ => args
  | ReturnInst (Some v) => [v]
  | ReturnInst None => []
  | LandingPadInst => []
  | CallInst _ args => args
  end.

(** The use list of a value: one entry per use, naming the user. *)
Definition users (F : Func) (v : Value) : list Instruction :=
  flat_map
    (fun ins => map (fun _ => ins) (List.filter (Value_eqb v) (operands (ikind ins))))
    (allInsts F).

(** [Value::hasOneUser]: all uses belong to one user. *)
Definition hasOneUser (F : Func) (v : Value) : bool :=
  match users F v with
  | [] => false
  | U :: rest => forallb (fun U' => Pos.eqb (iid U') (iid U)) rest
  end.

(** [Value::getType]. *)
Definition getType (F : Func) (v : Value) : option Ty :=
  match v with
  | ConstantInt t _ | UndefValue t | Argument t _ | GlobalValue t _ => Some t
  | InstRef i => ity <$> getInst F i
  end.

(** [ConstantInt::get(Ty, V)]: the constant of type [Ty] with bit pattern
    [V] truncated to the width. *)
Definition ConstantInt_get (t : Ty) (v : Z) : Value :=
  match t with
  | IntTy w => ConstantInt t (v mod 2 ^ Z.of_N w)
  | _ => ConstantInt t v
  end.

Definition INT32_MAX : Z := 2147483647.

End IR.

(* ===================================================================== *)
(** * Executable semantics of the modelled fragment *)
(* ===================================================================== *)

Module Sem.
Import IR.

(** A [w]-bit integer is its unsigned representative in [0, 2^w). *)
Definition wrap (w : N) (z : Z) : Z := z mod 2 ^ Z.of_N w.

(** The two's complement reading of a [w]-bit pattern. *)
Definition signed (w : N) (z : Z) : Z :=
  if z <? 2 ^ (Z.of_N w - 1) then z else z - 2 ^ Z.of_N w.

Definition widthOf (t : Ty) : N :=
  match t with
  | IntTy w => w
  | _ => 64
  end.

Definition evalBinOp (op : Opcode) (w : N) (a b : Z) : Z :=
  match op with
  | Add => wrap w (a + b)
  | Sub => wrap w (a - b)
  | Mul => wrap w (a * b)
  | And => Z.land a b
  | Or => Z.lor a b
  | Xor => Z.lxor a b
  | Shl => wrap w (Z.shiftl a b)
  end.

Definition evalICmp (p : Predicate) (w : N) (a b : Z) : bool :=
  match p with
  | ICMP_EQ => a =? b
  | ICMP_NE => negb (a =? b)
  | ICMP_UGT => b <? a
  | ICMP_UGE => b <=? a
  | ICMP_ULT => a <? b
  | ICMP_ULE => a <=? b
  | ICMP_SGT => signed w b <? signed w a
  | ICMP_SGE => signed w b <=? signed w a
  | ICMP_SLT => signed w a <? signed w b
  | ICMP_SLE => signed w a <=? signed w b
  end.

(** The inputs of a run: the values of the arguments and the addresses of
    the globals. *)
Record Inputs : Type := mkInputs {
  argVal : gmap positive Z;
  globalAddr : gmap positive Z
}.

(** The machine: the values of the executed instructions, the memory (one
    cell per address written, holding the stored integer) and the blocks
    entered so far, latest first. *)
Record Machine : Type := mkMachine {
  regs : gmap positive Z;
  mem : gmap Z Z;
  trace : list BlockId
}.

Definition evalValue (inp : Inputs) (rg : gmap positive Z) (v : Value)
  : option Z :=
  match v with
  | ConstantInt _ z => Some z
  | UndefValue _ => Some 0
  | Argument _ n => argVal inp !! n
  | GlobalValue _ g => globalAddr inp !! g
  | InstRef i => rg !! i
  end.

(** Byte offset of the indices after the first one of a GEP. *)
Fixpoint gepOffset (t : Ty) (idx : list Z) : Z :=
  match idx with
  | [] => 0
  | i :: rest =>
      match t with
      | ArrTy _ e => i * Z.of_N (getTypeAllocSize e) + gepOffset e rest
      | _ => 0
      end
  end.

Definition gepAddress (srcTy : Ty) (base : Z) (idx : list Z) : Z :=
  match idx with
  | [] => base
  | i :: rest =>
      wrap 64 (base + i * Z.of_N (getTypeAllocSize srcTy) + gepOffset srcTy rest)
  end.

Definition evalIndex (F : Func) (inp : Inputs) (rg : gmap positive Z)
    (v : Value) : option Z :=
  t ← getType F v; z ← evalValue inp rg v; Some (signed (widthOf t) z).

(** One instruction that is neither a phi node nor a terminator. *)
Definition execInst (F : Func) (inp : Inputs) (m : Machine)
    (ins : Instruction) : option Machine :=
  let rg := regs m in
  let def z := Some (mkMachine (<[iid ins := z]> rg) (mem m) (trace m)) in
  match ikind ins with
  | BinaryOperator op a b =>
      x ← evalValue inp rg a; y ← evalValue inp rg b;
      def (evalBinOp op (widthOf (ity ins)) x y)
  | ZExtInst a => x ← evalValue inp rg a; def x
  | ICmpInst p a b =>
      t ← getType F a;
      x ← evalValue inp rg a; y ← evalValue inp rg b;
      def (if evalICmp p (widthOf t) x y then 1 else 0)
  | GetElementPtrInst srcTy p idx =>
      base ← evalValue inp rg p;
      ixs ← mapM (evalIndex F inp rg) idx;
      def (gepAddress srcTy base ixs)
  | PtrToIntInst a =>
      x ← evalValue inp rg a; def (wrap (widthOf (ity ins)) x)
  | LoadInst p =>
      a ← evalValue inp rg p; def (default 0 (mem m !! a))
  | StoreInst v p =>
      x ← evalValue inp rg v; a ← evalValue inp rg p;
      Some (mkMachine rg (<[a := x]> (mem m)) (trace m))
  | _ => None
  end.

(** The phi nodes at the head of a block all read the state on entry. *)
Definition phiValue (inp : Inputs) (rg : gmap positive Z) (prev : BlockId)
    (inc : list (Value * BlockId)) : option Z :=
  e ← List.find (fun e => Pos.eqb (snd e) prev) inc;
  evalValue inp rg (fst e).

Fixpoint execPhis (inp : Inputs) (rg0 : gmap positive Z) (prev : option BlockId)
    (insts : list Instruction) (rg : gmap positive Z)
  : option (gmap positive Z * list Instruction) :=
  match insts with
  | ins :: rest =>
      match ikind ins with
      | PHINode inc =>
          p ← prev; z ← phiValue inp rg0 p inc;
          execPhis inp rg0 prev rest (<[iid ins := z]> rg)
      | _ => Some (rg, insts)
      end
  | [] => Some (rg, [])
  end.

Inductive Next : Type :=
| Goto (b : BlockId)
| Return (r : option Z).

Definition execTerminator (inp : Inputs) (m : Machine) (ins : Instruction)
  : option Next :=
  match ikind ins with
  | Br d => Some (Goto d)
  | CondBr c t f =>
      x ← evalValue inp (regs m) c;
      Some (Goto (if x =? 1 then t else f))
  | ReturnInst None => Some (Return None)
  | ReturnInst (Some v) => x ← evalValue inp (regs m) v; Some (Return (Some x))
  | _ => None
  end.

(** The straight-line part of a block, up to and including its terminator. *)
Fixpoint execBody (F : Func) (inp : Inputs) (m : Machine)
    (insts : list Instruction) : option (Machine * Next) :=
  match insts with
  | [] => None
  | ins :: rest =>
      if isTerminatorKind (ikind ins)
      then n ← execTerminator inp m ins; Some (m, n)
      else m' ← execInst F inp m ins; execBody F inp m' rest
  end.

Definition execBlock (F : Func) (inp : Inputs) (m : Machine)
    (prev : option BlockId) (B : BasicBlock) : option (Machine * Next) :=
  '(rg, body) ← execPhis inp (regs m) prev (binsts B) (regs m);
  execBody F inp (mkMachine rg (mem m) (bid B :: trace m)) body.

Inductive Outcome : Type :=
| Returned (r : option Z) (m : Machine)
| OutOfFuel (m : Machine)
| Stuck (m : Machine).

(** Run from block [cur], entered from [prev], for at most [fuel] blocks. *)
Fixpoint runFrom (fuel : nat) (F : Func) (inp : Inputs) (m : Machine)
    (prev : option BlockId) (cur : BlockId) : Outcome :=
  match fuel with
  | O => OutOfFuel m
  | S fuel' =>
      match getBlock F cur with
      | None => Stuck m
      | Some B =>
          match execBlock F inp m prev B with
          | None => Stuck m
          | Some (m', Return r) => Returned r m'
          | Some (m', Goto b) => runFrom fuel' F inp m' (Some cur) b
          end
      end
  end.

(** Run a function from its entry block on the given initial memory. *)
Definition run (fuel : nat) (F : Func) (inp : Inputs) (m0 : gmap Z Z)
  : Outcome :=
  match F with
  | [] => Stuck (mkMachine ∅ m0 [])
  | B :: _ => runFrom fuel F inp (mkMachine ∅ m0 []) None (bid B)
  end.

(** What a run lets an observer see: the returned value and the memory. *)
Definition observable (o : Outcome) : option (option Z * gmap Z Z) :=
  match o with
  | Returned r m => Some (r, mem m)
  | _ => None
  end.

End Sem.

(* ===================================================================== *)
(** * LoopInfo and the loop queries *)
(* ===================================================================== *)

Module Loops.
Import IR.

Abbreviation LoopId := positive (only parsing).

(** A [Loop] object: its blocks (header first, blocks of the sub-loops
    included), its sub-loops and its parent. *)
Record Loop : Type := mkLoop {
  blocks : list BlockId;
  subLoops : list LoopId;
  parentLoop : option LoopId
}.

(** [LoopInfo] owns the loop objects; a [Loop*] is a key of this map. *)
Abbreviation LoopInfo := (gmap positive Loop) (only parsing).

Definition memb (b : positive) (l : list positive) : bool :=
  existsb (Pos.eqb b) l.

Definition getHeader (L : Loop) : option BlockId := head (blocks L).

Definition contains (L : Loop) (b : BlockId) : bool := memb b (blocks L).

Definition getSubLoops (L : Loop) : list LoopId := subLoops L.

(** [Loop::isLoopInvariant]: a value is invariant unless it is an
    instruction of a block of the loop. *)
Definition isLoopInvariant (F : Func) (L : Loop) (v : Value) : bool :=
  match v with
  | InstRef i =>
      match getParent F i with
      | Some b => negb (contains L b)
      | None => true
      end
  | _ => true
  end.

(** [getLoopPredecessor]: the only predecessor of the header outside the
    loop, if there is exactly one such block. *)
Definition getLoopPredecessor (F : Func) (L : Loop) : option BlockId :=
  h ← getHeader L;
  match List.filter (fun p => negb (contains L p)) (predecessors F h) with
  | [] => None
  | p :: rest => if forallb (Pos.eqb p) rest then Some p else None
  end.

(** [Loop::getLoopPreheader]: the loop predecessor, provided the header is
    its only successor. *)
Definition getLoopPreheader (F : Func) (L : Loop) : option BlockId :=
  p ← getLoopPredecessor F L;
  B ← getBlock F p;
  match successors B with
  | [_] => Some p
  | _ => None
  end.

(** [Loop::getLoopLatch]: the only predecessor of the header inside the
    loop. *)
Definition getLoopLatch (F : Func) (L : Loop) : option BlockId :=
  h ← getHeader L;
  match List.filter (contains L) (predecessors F h) with
  | [] => None
  | p :: rest => if forallb (Pos.eqb p) rest then Some p else None
  end.

Definition blockSuccessors (F : Func) (b : BlockId) : list BlockId :=
  match getBlock F b with
  | Some B => successors B
  | None => []
  end.

(** [Loop::getExitingBlocks]: the blocks of the loop with a successor
    outside of it. *)
Definition getExitingBlocks (F : Func) (L : Loop) : list BlockId :=
  List.filter
    (fun b => existsb (fun s => negb (contains L s)) (blockSuccessors F b))
    (blocks L).

Definition getExitingBlock (F : Func) (L : Loop) : option BlockId :=
  match getExitingBlocks F L with
  | [b] => Some b
  | _ => None
  end.

(** [Loop::getExitBlocks]: one entry per edge leaving the loop. *)
Definition getExitBlocks (F : Func) (L : Loop) : list BlockId :=
  flat_map
    (fun b => List.filter (fun s => negb (contains L s)) (blockSuccessors F b))
    (blocks L).

Definition getExitBlock (F : Func) (L : Loop) : option BlockId :=
  match getExitBlocks F L with
  | [b] => Some b
  | _ => None
  end.

Fixpoint dedup (l : list positive) (seen : list positive) : list positive :=
  match l with
  | [] => []
  | x :: rest =>
      if memb x seen then dedup rest seen else x :: dedup rest (x :: seen)
  end.

(** [Loop::getUniqueExitBlocks]. *)
Definition getUniqueExitBlocks (F : Func) (L : Loop) : list BlockId :=
  dedup (getExitBlocks F L) [].

(** [Loop::hasDedicatedExits]: every predecessor of every exit block is in
    the loop. *)
Definition hasDedicatedExits (F : Func) (L : Loop) : bool :=
  forallb (fun e => forallb (contains L) (predecessors F e))
    (getUniqueExitBlocks F L).

(** [Loop::isLoopSimplifyForm]. *)
Definition isLoopSimplifyForm (F : Func) (L : Loop) : bool :=
  bool_decide (is_Some (getLoopPreheader F L))
  && bool_decide (is_Some (getLoopLatch F L))
  && hasDedicatedExits F L.

(** [Loop::isSafeToClone]: no block of the loop holds a call that must not
    be duplicated (the fragment has no indirect branches). *)
Definition isSafeToClone (F : Func) (L : Loop) : bool :=
  forallb
    (fun b =>
       match getBlock F b with
       | Some B =>
           forallb
             (fun ins =>
                match ikind ins with
                | CallInst true _ => false
                | _ => true
                end) (binsts B)
       | None => true
       end) (blocks L).

(** [LoopInfo::getLoopFor]: the innermost loop holding the block. *)
Definition getLoopFor (LI : LoopInfo) (b : BlockId) : option LoopId :=
  fst <$> List.find
    (fun e : positive * Loop =>
       contains (snd e) b
       && forallb
            (fun s => match LI !! s with
                      | Some inner => negb (contains inner b)
                      | None => true
                      end) (subLoops (snd e)))
    (map_to_list LI).

(** [Loop::addBasicBlockToLoop]: the block joins the loop and every loop
    around it. *)
Fixpoint addBasicBlockToLoop (fuel : nat) (l : LoopId) (b : BlockId)
    (LI : LoopInfo) : LoopInfo :=
  match fuel with
  | O => LI
  | S fuel' =>
      match LI !! l with
      | None => LI
      | Some L =>
          let LI' :=
            <[l := mkLoop (blocks L ++ [b]) (subLoops L) (parentLoop L)]> LI in
          match parentLoop L with
          | Some p => addBasicBlockToLoop fuel' p b LI'
          | None => LI'
          end
      end
  end.

(** Depth bound for walks along parent and sub-loop links. *)
Definition depthBound (LI : LoopInfo) : nat := S (size LI).

(** [Loop::getLoopsInPreorder]: the loop, then its sub-loops' nests. *)
Fixpoint getLoopsInPreorder (fuel : nat) (LI : LoopInfo) (l : LoopId)
  : list LoopId :=
  match fuel with
  | O => [l]
  | S fuel' =>
      l :: match LI !! l with
           | Some L => flat_map (getLoopsInPreorder fuel' LI) (subLoops L)
           | None => []
           end
  end.

End Loops.

(* ===================================================================== *)
(** * The LLVM utilities the passes call *)
(* ===================================================================== *)

Module Utils.
Import IR Loops.

(** ** Editing instructions and blocks *)

Definition mapOperands (f : Value -> Value) (k : InstKind) : InstKind :=
  match k with
  | PHINode inc => PHINode (map (fun e => (f (fst e), snd e)) inc)
  | BinaryOperator op a b => BinaryOperator op (f a) (f b)
  | ZExtInst a => ZExtInst (f a)
  | ICmpInst p a b => ICmpInst p (f a) (f b)
  | GetElementPtrInst t p idx => GetElementPtrInst t (f p) (map f idx)
  | PtrToIntInst a => PtrToIntInst (f a)
  | LoadInst p => LoadInst (f p)
  | StoreInst v p => StoreInst (f v) (f p)
  | Br d => Br d
  | CondBr c t e => CondBr (f c) t e
  | InvokeInst args n u => InvokeInst (map f args) n u
  | ReturnInst v => ReturnInst (f <$> v)
  | LandingPadInst => LandingPadInst
  | CallInst nd args => CallInst nd (map f args)
  end.

(** Rewrites the successors of a terminator. *)
Definition mapSuccessors (g : BlockId -> BlockId) (k : InstKind) : InstKind :=
  match k with
  | Br d => Br (g d)
  | CondBr c t e => CondBr c (g t) (g e)
  | InvokeInst args n u => InvokeInst args (g n) (g u)
  | _ => k
  end.

(** Rewrites the incoming blocks of a phi node. *)
Definition mapIncomingBlocks (g : BlockId -> BlockId) (k : InstKind)
  : InstKind :=
  match k with
  | PHINode inc => PHINode (map (fun e => (fst e, g (snd e))) inc)
  | _ => k
  end.

Definition withKind (f : InstKind -> InstKind) (ins : Instruction)
  : Instruction :=
  mkInst (iid ins) (ity ins) (f (ikind ins)).

Definition updBlock (b : BlockId) (f : BasicBlock -> BasicBlock) (F : Func)
  : Func :=
  map (fun B => if Pos.eqb (bid B) b then f B else B) F.

Definition updInsts (f : Instruction -> Instruction) (F : Func) : Func :=
  map (fun B => mkBlock (bid B) (map f (binsts B))) F.

Definition updInst (i : InstId) (f : Instruction -> Instruction) (F : Func)
  : Func :=
  updInsts (fun ins => if Pos.eqb (iid ins) i then f ins else ins) F.

Definition swap (old new : positive) (b : positive) : positive :=
  if Pos.eqb b old then new else b.

Definition substValue (old : Value) (new : Value) (v : Value) : Value :=
  if Value_eqb v old then new else v.

(** [Value::replaceAllUsesWith] for an instruction. *)
Definition replaceAllUsesWith (old : InstId) (new : Value) (F : Func) : Func :=
  updInsts (withKind (mapOperands (substValue (InstRef old) new))) F.

(** [Instruction::eraseFromParent]. *)
Definition eraseFromParent (i : InstId) (F : Func) : Func :=
  map (fun B =>
         mkBlock (bid B)
           (List.filter (fun ins => negb (Pos.eqb (iid ins) i)) (binsts B))) F.

(** Inserts [new] in the block [b], right before the instruction [before]. *)
Fixpoint insertBeforeIn (before : InstId) (new : list Instruction)
    (l : list Instruction) : list Instruction :=
  match l with
  | [] => []
  | ins :: rest =>
      if Pos.eqb (iid ins) before then new ++ ins :: rest
      else ins :: insertBeforeIn before new rest
  end.

Definition insertBefore (before : InstId) (new : list Instruction) (F : Func)
  : Func :=
  map (fun B => mkBlock (bid B) (insertBeforeIn before new (binsts B))) F.

Definition isLandingPad (ins : Instruction) : bool :=
  match ikind ins with LandingPadInst => true | _ => false end.

(** Inserts [new] before the first instruction that fails [isHead]. *)
Fixpoint insertAfterHead (isHead : Instruction -> bool)
    (new : list Instruction) (l : list Instruction) : list Instruction :=
  match l with
  | [] => new
  | ins :: rest =>
      if isHead ins then ins :: insertAfterHead isHead new rest
      else new ++ ins :: rest
  end.

(** [BasicBlock::getFirstInsertionPt]: new instructions go after the phi
    nodes (and after a landing pad). *)
Definition insertAtFirstInsertionPt (new : list Instruction) (B : BasicBlock)
  : BasicBlock :=
  mkBlock (bid B)
    (insertAfterHead (fun ins => isPHI ins || isLandingPad ins) new (binsts B)).

(** Layout: the block [New] right after, or right before, the block [b]. *)
Fixpoint insertBlockAfter (b : BlockId) (New : BasicBlock) (F : Func) : Func :=
  match F with
  | [] => [New]
  | B :: rest =>
      if Pos.eqb (bid B) b then B :: New :: rest
      else B :: insertBlockAfter b New rest
  end.

Fixpoint insertBlockBefore (b : BlockId) (New : BasicBlock) (F : Func) : Func :=
  match F with
  | [] => [New]
  | B :: rest =>
      if Pos.eqb (bid B) b then New :: B :: rest
      else B :: insertBlockBefore b New rest
  end.

(** [PHINode::addIncoming]. *)
Definition addIncoming (v : Value) (b : BlockId) (ins : Instruction)
  : Instruction :=
  withKind (fun k => match k with
                     | PHINode inc => PHINode (inc ++ [(v, b)])
                     | _ => k
                     end) ins.

(** [PHINode::getIncomingValueForBlock]; the C++ code asserts that the
    block has an entry. *)
Definition getIncomingValueForBlock (ins : Instruction) (b : BlockId)
  : option Value :=
  match ikind ins with
  | PHINode inc => fst <$> List.find (fun e => Pos.eqb (snd e) b) inc
  | _ => None
  end.

(** [ReplaceInstWithInst]: the new instruction takes the place of the old. *)
Definition ReplaceInstWithInst (old : InstId) (new : Instruction) (F : Func)
  : Func :=
  updInsts (fun ins => if Pos.eqb (iid ins) old then new else ins)
    (replaceAllUsesWith old (InstRef (iid new)) F).

(** ** Splitting blocks and edges *)

(** [SplitBlock(Old, Old->getTerminator())]: the terminator moves to the new
    block [newB], laid out after [Old]; [Old] now branches to [newB]; the phi
    nodes of the successors name [newB] instead of [Old]; [newB] joins the
    loop of [Old]. *)
Definition SplitBlockAtTerminator (F : Func) (LI : LoopInfo) (old : BlockId)
    (newB : BlockId) (brId : InstId) : option (Func * LoopInfo) :=
  B ← getBlock F old;
  T ← getTerminator B;
  let Old' := mkBlock old (removelast (binsts B) ++ [mkInst brId VoidTy (Br newB)]) in
  let F1 := insertBlockAfter old (mkBlock newB [T]) (updBlock old (fun _ => Old') F) in
  let F2 :=
    fold_left
      (fun G s =>
         updBlock s
           (fun SB => mkBlock (bid SB)
                        (map (fun ins => if isPHI ins
                                         then withKind (mapIncomingBlocks (swap old newB)) ins
                                         else ins) (binsts SB))) G)
      (kindSuccessors (ikind T)) F1 in
  let LI' :=
    match getLoopFor LI old with
    | Some l => addBasicBlockToLoop (depthBound LI) l newB LI
    | None => LI
    end in
  Some (F2, LI').

(** [SplitEdge(BB, Succ)] for an edge that is not critical and a successor
    with further predecessors, the case of a preheader and its header: the
    block [BB] is split at its terminator. *)
Definition SplitEdge (F : Func) (LI : LoopInfo) (BB Succ : BlockId)
    (newB : BlockId) (brId : InstId) : option (Func * LoopInfo) :=
  B ← getBlock F BB;
  match successors B, predecessors F Succ with
  | [s], _ :: _ :: _ =>
      if Pos.eqb s Succ then SplitBlockAtTerminator F LI BB newB brId else None
  | _, _ => None
  end.

(** ** Splitting the predecessors of a block *)

Definition commonValue (vals : list Value) : option Value :=
  match vals with
  | [] => None
  | v :: rest => if forallb (Value_eqb v) rest then Some v else None
  end.

(** [UpdatePHINodes]: for each phi node at the head of the split block, the
    entries coming from [Preds] move to a new phi node in [NewBB] (walking
    the entries backwards), unless they all carry one value and no
    predecessor leaves a loop; the old phi node gets one entry for [NewBB].
    Returns the new phi nodes, the rewritten instructions of the block and
    the next free identifier. *)
Fixpoint UpdatePHINodes (insts : list Instruction) (NewBB : BlockId)
    (Preds : list BlockId) (HasLoopExit : bool) (next : positive)
  : list Instruction * list Instruction * positive :=
  match insts with
  | [] => ([], [], next)
  | ins :: rest =>
      match ikind ins with
      | PHINode inc =>
          let fromPreds := List.filter (fun e => memb (snd e) Preds) inc in
          let others := List.filter (fun e => negb (memb (snd e) Preds)) inc in
          let InVal :=
            if HasLoopExit then None else commonValue (map fst fromPreds) in
          match InVal with
          | Some v =>
              let '(newPhis, rest', next') :=
                UpdatePHINodes rest NewBB Preds HasLoopExit next in
              (newPhis,
               mkInst (iid ins) (ity ins) (PHINode (others ++ [(v, NewBB)]))
                 :: rest', next')
          | None =>
              let NewPHI := mkInst next (ity ins) (PHINode (rev fromPreds)) in
              let '(newPhis, rest', next') :=
                UpdatePHINodes rest NewBB Preds HasLoopExit (Pos.succ next) in
              (NewPHI :: newPhis,
               mkInst (iid ins) (ity ins)
                 (PHINode (others ++ [(InstRef next, NewBB)])) :: rest', next')
          end
      | _ => ([], insts, next)
      end
  end.

Fixpoint loopDepth (fuel : nat) (LI : LoopInfo) (l : LoopId) : nat :=
  match fuel with
  | O => 1
  | S fuel' =>
      match LI !! l with
      | Some L =>
          match parentLoop L with
          | Some p => S (loopDepth fuel' LI p)
          | None => 1
          end
      | None => 1
      end
  end.

(** Walks up from a loop to the first loop around it that holds [b]. *)
Fixpoint enclosingLoopWith (fuel : nat) (LI : LoopInfo) (l : option LoopId)
    (b : BlockId) : option LoopId :=
  match fuel, l with
  | S fuel', Some x =>
      match LI !! x with
      | Some L =>
          if contains L b then Some x
          else enclosingLoopWith fuel' LI (parentLoop L) b
      | None => None
      end
  | _, _ => None
  end.

(** [Loop::moveToHeader]. *)
Definition moveToHeader (l : LoopId) (b : BlockId) (LI : LoopInfo) : LoopInfo :=
  match LI !! l with
  | Some L =>
      <[l := mkLoop (b :: List.filter (fun x => negb (Pos.eqb x b)) (blocks L))
               (subLoops L) (parentLoop L)]> LI
  | None => LI
  end.

(** The LoopInfo part of [UpdateAnalysisInformation] (every predecessor is
    taken to be reachable from the entry). *)
Definition updateLoopInfoForSplit (LI : LoopInfo) (OldBB : BlockId)
    (Preds : list BlockId) (NewBB : BlockId) : LoopInfo :=
  match getLoopFor LI OldBB with
  | None => LI
  | Some l =>
      match LI !! l with
      | None => LI
      | Some L =>
          let IsLoopEntry := forallb (fun p => negb (contains L p)) Preds in
          let SplitMakesNewLoopHeader :=
            existsb (fun p => negb (contains L p)) Preds in
          if IsLoopEntry then
            let pick (best : option LoopId) (p : BlockId) :=
              match enclosingLoopWith (depthBound LI) LI (getLoopFor LI p) OldBB with
              | Some c =>
                  match best with
                  | None => Some c
                  | Some b0 =>
                      if Nat.ltb (loopDepth (depthBound LI) LI b0)
                                 (loopDepth (depthBound LI) LI c)
                      then Some c else best
                  end
              | None => best
              end in
            match fold_left pick Preds None with
            | Some il => addBasicBlockToLoop (depthBound LI) il NewBB LI
            | None => LI
            end
          else
            let LI1 := addBasicBlockToLoop (depthBound LI) l NewBB LI in
            if SplitMakesNewLoopHeader then moveToHeader l NewBB LI1 else LI1
      end
  end.

(** [SplitBlockPredecessors(BB, Preds, Suffix, DT, LI, MSSAU, true)]: a new
    block, laid out before [BB] and branching to it, takes over the edges
    from [Preds].  When [BB] is a landing pad the new block gets a clone of
    the landing pad instruction, which replaces the original
    ([SplitLandingPadPredecessors] with no second block, since the passes
    hand over every predecessor).  Returns the new block. *)
Definition SplitBlockPredecessors (F : Func) (LI : LoopInfo) (BB : BlockId)
    (Preds : list BlockId) (next : positive)
  : option (Func * LoopInfo * BlockId * positive) :=
  OrigB ← getBlock F BB;
  let NewBB := next in
  let BI := mkInst (Pos.succ next) VoidTy (Br BB) in
  let HasLoopExit :=
    existsb
      (fun p => match getLoopFor LI p with
                | Some l => match LI !! l with
                            | Some L => negb (contains L BB)
                            | None => false
                            end
                | None => false
                end) Preds in
  let F1 :=
    map (fun B =>
           if memb (bid B) Preds
           then mkBlock (bid B)
                  (map (fun ins =>
                          if isTerminatorKind (ikind ins)
                          then withKind (mapSuccessors (swap BB NewBB)) ins
                          else ins) (binsts B))
           else B) F in
  let '(newPhis, insts', next1) :=
    UpdatePHINodes (binsts OrigB) NewBB Preds HasLoopExit (Pos.succ (Pos.succ next)) in
  let LI' := updateLoopInfoForSplit LI BB Preds NewBB in
  match getLandingPadInst OrigB with
  | None =>
      let F2 := updBlock BB (fun _ => mkBlock BB insts') F1 in
      Some (insertBlockBefore BB (mkBlock NewBB (newPhis ++ [BI])) F2,
            LI', NewBB, next1)
  | Some LPad =>
      let Clone1 := mkInst next1 (ity LPad) (ikind LPad) in
      let F2 := updBlock BB (fun _ => mkBlock BB insts') F1 in
      let F3 :=
        insertBlockBefore BB (mkBlock NewBB (newPhis ++ [Clone1; BI])) F2 in
      Some (eraseFromParent (iid LPad)
              (replaceAllUsesWith (iid LPad) (InstRef next1) F3),
            LI', NewBB, Pos.succ next1)
  end.

(** ** Cloning *)

(** [ValueToValueMapTy]: the clones of instructions and of blocks. *)
Record ValueMap : Type := mkVMap {
  vmInst : gmap positive positive;
  vmBlock : gmap positive positive
}.

(** [VMap.find(V)]: only instructions have clones among the values. *)
Definition VMap_find (VMap : ValueMap) (v : Value) : option Value :=
  match v with
  | InstRef i => InstRef <$> vmInst VMap !! i
  | _ => None
  end.

(** [CloneBasicBlock]: a copy of every instruction, operands unchanged, each
    recorded in the map.  Returns the new block and the next free id. *)
Fixpoint cloneInsts (insts : list Instruction) (vm : gmap positive positive)
    (next : positive) : list Instruction * gmap positive positive * positive :=
  match insts with
  | [] => ([], vm, next)
  | ins :: rest =>
      let '(rest', vm', next') :=
        cloneInsts rest (<[iid ins := next]> vm) (Pos.succ next) in
      (mkInst next (ity ins) (ikind ins) :: rest', vm', next')
  end.

Definition CloneBasicBlock (B : BasicBlock) (VMap : ValueMap) (next : positive)
  : BasicBlock * ValueMap * positive :=
  let '(insts', vm', next') := cloneInsts (binsts B) (vmInst VMap) (Pos.succ next) in
  (mkBlock next insts', mkVMap vm' (vmBlock VMap), next').

(** [RemapInstruction(I, VMap, RF_NoModuleLevelChanges |
    RF_IgnoreMissingLocals)]: operands, phi incoming blocks and successors
    with a clone are replaced by it; the others stay. *)
Definition remapValue (VMap : ValueMap) (v : Value) : Value :=
  default v (VMap_find VMap v).

Definition remapBlock (VMap : ValueMap) (b : BlockId) : BlockId :=
  default b (vmBlock VMap !! b).

Definition RemapInstruction (VMap : ValueMap) (ins : Instruction)
  : Instruction :=
  withKind
    (fun k => mapIncomingBlocks (remapBlock VMap)
                (mapSuccessors (remapBlock VMap)
                   (mapOperands (remapValue VMap) k))) ins.

(** [cloneLoop(L, PL, VM, LI, LPM)]: a new loop under [PL] holding the
    clones of the blocks whose innermost loop is [L], then the clones of the
    sub-loops.  Returns the new loop and the next free id. *)
Fixpoint cloneLoop (fuel : nat) (l : LoopId) (PL : option LoopId)
    (VM : ValueMap) (LI : LoopInfo) (next : positive)
  : option (LoopId * LoopInfo * positive) :=
  match fuel with
  | O => None
  | S fuel' =>
      L ← LI !! l;
      let New := next in
      let LI1 := <[New := mkLoop [] [] PL]> LI in
      let LI2 :=
        match PL with
        | Some p =>
            match LI1 !! p with
            | Some P => <[p := mkLoop (blocks P) (subLoops P ++ [New]) (parentLoop P)]> LI1
            | None => LI1
            end
        | None => LI1
        end in
      LI3 ← foldl
        (fun acc b =>
           cur ← acc;
           if bool_decide (getLoopFor cur b = Some l)
           then nb ← vmBlock VM !! b;
                Some (addBasicBlockToLoop (depthBound cur) New nb cur)
           else Some cur)
        (Some LI2) (blocks L);
      '(LI4, next') ← foldl
        (fun acc s =>
           '(cur, n) ← acc;
           '(_, cur', n') ← cloneLoop fuel' s (Some New) VM cur n;
           Some (cur', n'))
        (Some (LI3, Pos.succ next)) (subLoops L);
      Some (New, LI4, next')
  end.

(** ** Dead code *)

(** [wouldInstructionBeTriviallyDead] on the fragment: terminators, landing
    pads, stores and calls stay. *)
Definition wouldInstructionBeTriviallyDead (ins : Instruction) : bool :=
  match ikind ins with
  | PHINode _ | BinaryOperator _ _ _ | ZExtInst _ | ICmpInst _ _ _
  | GetElementPtrInst _ _ _ | PtrToIntInst _ | LoadInst _ => true
  | _ => false
  end.

Definition isInstructionTriviallyDead (F : Func) (ins : Instruction) : bool :=
  match users F (InstRef (iid ins)) with
  | [] => wouldInstructionBeTriviallyDead ins
  | _ => false
  end.

(** The worklist of [RecursivelyDeleteTriviallyDeadInstructions]: the last
    instruction pushed is erased first, and every operand left without use
    that is trivially dead is pushed. *)
Fixpoint deleteDeadWorklist (fuel : nat) (DeadInsts : list InstId) (F : Func)
  : Func :=
  match fuel, DeadInsts with
  | S fuel', i :: rest =>
      match getInst F i with
      | Some ins =>
          let F' := eraseFromParent i F in
          let newDead :=
            omap (fun v =>
                    match v with
                    | InstRef j =>
                        match getInst F' j with
                        | Some OpI =>
                            if isInstructionTriviallyDead F' OpI
                            then Some j else None
                        | None => None
                        end
                    | _ => None
                    end) (operands (ikind ins)) in
          deleteDeadWorklist fuel' (rev (dedup newDead []) ++ rest) F'
      | None => deleteDeadWorklist fuel' rest F
      end
  | _, _ => F
  end.

Definition RecursivelyDeleteTriviallyDeadInstructions (v : Value) (F : Func)
  : Func :=
  match v with
  | InstRef i =>
      match getInst F i with
      | Some ins =>
          if isInstructionTriviallyDead F ins
          then deleteDeadWorklist (S (length (allInsts F))) [i] F
          else F
      | None => F
      end
  | _ => F
  end.

End Utils.

(* ===================================================================== *)
(** * The duplication engine: [LoopDuplicationPass] *)
(* ===================================================================== *)

Module Engine.
Import IR Loops Utils.

(** The members of [LoopDuplicationPass], with the function and the
    LoopInfo they point into; [priv] holds the members of the derived pass.
    MemorySSA, the dominator tree updates and the pass manager hooks only
    keep analyses in step with the IR and are left out. *)
Record PassState (X : Type) : Type := mkState {
  fn : Func;
  li : LoopInfo;
  nextId : positive;
  ProcessedLoops : gset positive;
  CurrentLoop : LoopId;
  Preheader : BlockId;
  Header : BlockId;
  DuplicatedLoop : option LoopId;
  priv : X
}.
Arguments mkState {X}.
Arguments fn {X}.
Arguments li {X}.
Arguments nextId {X}.
Arguments ProcessedLoops {X}.
Arguments CurrentLoop {X}.
Arguments Preheader {X}.
Arguments Header {X}.
Arguments DuplicatedLoop {X}.
Arguments priv {X}.

Definition setFn {X} (F : Func) (st : PassState X) : PassState X :=
  mkState F (li st) (nextId st) (ProcessedLoops st) (CurrentLoop st)
    (Preheader st) (Header st) (DuplicatedLoop st) (priv st).

Definition setNext {X} (n : positive) (st : PassState X) : PassState X :=
  mkState (fn st) (li st) n (ProcessedLoops st) (CurrentLoop st)
    (Preheader st) (Header st) (DuplicatedLoop st) (priv st).

Definition setPriv {X} (x : X) (st : PassState X) : PassState X :=
  mkState (fn st) (li st) (nextId st) (ProcessedLoops st) (CurrentLoop st)
    (Preheader st) (Header st) (DuplicatedLoop st) x.

(** What a pass object keeps between two calls of [runOnLoop]: the set of
    processed loops and the last duplicated loop; with them, the function
    and LoopInfo it works on and the supply of fresh identifiers. *)
Record Pass : Type := mkPass {
  passFn : Func;
  passLI : LoopInfo;
  passNext : positive;
  passProcessed : gset positive;
  passDuplicated : option LoopId
}.

Definition toPass {X} (st : PassState X) : Pass :=
  mkPass (fn st) (li st) (nextId st) (ProcessedLoops st) (DuplicatedLoop st).

(** The pass object after the members set at the top of [runOnLoop]:
    [DuplicatedLoop = nullptr]. *)
Definition resetDuplicated (p : Pass) : Pass :=
  mkPass (passFn p) (passLI p) (passNext p) (passProcessed p) None.

(** The pure virtual methods a derived pass supplies.  A result of [None]
    stands for a failed assertion or a null pointer dereference. *)
Class Strategy (X : Type) : Type := {
  isCurrentLoopACandidate : PassState X -> option (bool * PassState X);
  emitPreheaderBranch :
    PassState X -> BlockId -> BlockId -> Instruction -> option (PassState X);
  optimizeDuplicatedLoop : PassState X -> option (PassState X)
}.

(** [splitExitEdges]: [SplitBlockPredecessors] on every predecessor of every
    exit block. *)
Fixpoint splitExitEdges (ExitBlocks : list BlockId) (F : Func)
    (LI : LoopInfo) (next : positive) : option (Func * LoopInfo * positive) :=
  match ExitBlocks with
  | [] => Some (F, LI, next)
  | ExitBlock :: rest =>
      '(F', LI', _, next') ←
        SplitBlockPredecessors F LI ExitBlock (predecessors F ExitBlock) next;
      splitExitEdges rest F' LI' next'
  end.

(** The cloning loop of [transformCurrentLoop]: every block of [LoopBBs] is
    cloned at the end of the function and mapped to its clone. *)
Fixpoint cloneBlocks (LoopBBs : list BlockId) (F : Func) (VMap : ValueMap)
    (next : positive) : option (list BasicBlock * ValueMap * positive) :=
  match LoopBBs with
  | [] => Some ([], VMap, next)
  | b :: rest =>
      B ← getBlock F b;
      let '(NewBB, VMap1, next1) := CloneBasicBlock B VMap next in
      let VMap2 := mkVMap (vmInst VMap1) (<[b := bid NewBB]> (vmBlock VMap1)) in
      '(NewBBs, VMap3, next3) ← cloneBlocks rest F VMap2 next1;
      Some (NewBB :: NewBBs, VMap3, next3)
  end.

(** ** The exit blocks of the clone (lines 130-160) *)

(** "If the successor of the exit block had PHI nodes, add an entry for
    NewExit": the entry carries the value coming from the old exit block,
    or its clone when it has one. *)
Fixpoint addEntriesForNewExit (VMap : ValueMap) (ExitBlock NewExit : BlockId)
    (insts : list Instruction) : option (list Instruction) :=
  match insts with
  | [] => Some []
  | PN :: rest =>
      if isPHI PN then
        V ← getIncomingValueForBlock PN ExitBlock;
        rest' ← addEntriesForNewExit VMap ExitBlock NewExit rest;
        Some (addIncoming (remapValue VMap V) NewExit PN :: rest')
      else Some insts
  end.

(** The loop over the predecessors of the exit successor, for a landing
    pad: the uses of each predecessor's landing pad go to the new phi node,
    which gets that landing pad as incoming value. *)
Fixpoint unifyLandingPads (PN : InstId) (ExitSucc : BlockId)
    (preds : list BlockId) (F : Func) : option Func :=
  match preds with
  | [] => Some F
  | BB :: rest =>
      B ← getBlock F BB;
      LPI ← getLandingPadInst B;
      let F1 := replaceAllUsesWith (iid LPI) (InstRef PN) F in
      let F2 := updInst PN (addIncoming (InstRef (iid LPI)) BB) F1 in
      unifyLandingPads PN ExitSucc rest F2
  end.

(** One round of the loop over the exit blocks. *)
Definition extendExit (VMap : ValueMap) (ExitBlock : BlockId)
    (s : Func * LoopInfo * positive) : option (Func * LoopInfo * positive) :=
  let '(F, LI, next) := s in
  NewExit ← vmBlock VMap !! ExitBlock;
  let LI1 :=
    match getLoopFor LI ExitBlock with
    | Some ExitBBLoop => addBasicBlockToLoop (depthBound LI) ExitBBLoop NewExit LI
    | None => LI
    end in
  NewExitB ← getBlock F NewExit;
  match successors NewExitB with
  | [ExitSucc] =>
      SuccB ← getBlock F ExitSucc;
      insts' ← addEntriesForNewExit VMap ExitBlock NewExit (binsts SuccB);
      let F1 := updBlock ExitSucc (fun _ => mkBlock ExitSucc insts') F in
      match getLandingPadInst NewExitB with
      | None => Some (F1, LI1, next)
      | Some LPad =>
          let PN := mkInst next (ity LPad) (PHINode []) in
          let F2 := updBlock ExitSucc (insertAtFirstInsertionPt [PN]) F1 in
          F3 ← unifyLandingPads next ExitSucc (predecessors F2 ExitSucc) F2;
          Some (F3, LI1, Pos.succ next)
      end
  | _ => None
  end.

Fixpoint extendExits (VMap : ValueMap) (ExitBlocks : list BlockId)
    (s : Func * LoopInfo * positive) : option (Func * LoopInfo * positive) :=
  match ExitBlocks with
  | [] => Some s
  | ExitBlock :: rest =>
      s' ← extendExit VMap ExitBlock s; extendExits VMap rest s'
  end.

(** ** [transformCurrentLoop] *)

Definition insertAll (l : list positive) (s : gset positive) : gset positive :=
  foldl (fun acc x => {[x]} ∪ acc) s l.

(** What the first part of [transformCurrentLoop] leaves for the rest: the
    function with the clones spliced in, LoopInfo with the duplicated loop,
    the value map, the recomputed exit blocks, the new preheader
    ([LoopBBs[0]]) and the clones ([NewBBs]). *)
Record Duplication : Type := mkDup {
  dFn : Func;
  dLI : LoopInfo;
  dNext : positive;
  dVMap : ValueMap;
  dExitBlocks : list BlockId;
  dNewPreheader : BlockId;
  dNewBBs : list BasicBlock;
  dLoop : LoopId
}.

(** Lines 77-128: split the preheader edge and the exit edges, clone the
    blocks, splice them in, create the duplicated loop. *)
Definition duplicateBlocks {X} (st : PassState X) : option Duplication :=
  (* NewPreheader = SplitEdge(Preheader, Header, ...) *)
  let NewPreheader := nextId st in
  '(F1, LI1) ← SplitEdge (fn st) (li st) (Preheader st) (Header st)
                 NewPreheader (Pos.succ NewPreheader);
  let n1 := Pos.succ (Pos.succ NewPreheader) in
  L1 ← LI1 !! CurrentLoop st;
  let LoopBBs0 := NewPreheader :: blocks L1 in
  '(F2, LI2, n2) ← splitExitEdges (getUniqueExitBlocks F1 L1) F1 LI1 n1;
  (* The exit blocks may have been changed due to edge splitting. *)
  L2 ← LI2 !! CurrentLoop st;
  let ExitBlocks := getUniqueExitBlocks F2 L2 in
  let LoopBBs := LoopBBs0 ++ ExitBlocks in
  '(NewBBs, VMap, n3) ← cloneBlocks LoopBBs F2 (mkVMap ∅ ∅) n2;
  NewBBs0 ← head NewBBs;
  (* Splice the new blocks right before the new preheader. *)
  let F3 := fold_left (fun G B => insertBlockBefore NewPreheader B G) NewBBs F2 in
  (* Create the new Loop object for the duplicated loop. *)
  let ParentLoop := parentLoop L2 in
  '(Dup, LI3, n4) ← cloneLoop (depthBound LI2) (CurrentLoop st) ParentLoop VMap LI2 n3;
  let LI4 :=
    match ParentLoop with
    | Some p => addBasicBlockToLoop (depthBound LI3) p (bid NewBBs0) LI3
    | None => LI3
    end in
  Some (mkDup F3 LI4 n4 VMap ExitBlocks NewPreheader NewBBs Dup).

(** Lines 192-198: "Mark the two loops, and all of their inner loops as
    processed." *)
Definition markProcessed {X} (st : PassState X) : option (PassState X) :=
  let P1 :=
    insertAll (getLoopsInPreorder (depthBound (li st)) (li st) (CurrentLoop st))
      (ProcessedLoops st) in
  D ← DuplicatedLoop st;
  let P2 := insertAll (getLoopsInPreorder (depthBound (li st)) (li st) D) P1 in
  Some (mkState (fn st) (li st) (nextId st) P2 (CurrentLoop st)
          (Preheader st) (Header st) (DuplicatedLoop st) (priv st)).

(** Lines 162-166: "Rewrite the code to refer to itself": every instruction
    of the new blocks is remapped. *)
Definition remapNewBlocks (VMap : ValueMap) (NewBBs : list BasicBlock)
    (F : Func) : Func :=
  map (fun B => if memb (bid B) (map bid NewBBs)
                then mkBlock (bid B) (map (RemapInstruction VMap) (binsts B))
                else B) F.

Definition transformCurrentLoop {X} `{Strategy X} (st : PassState X)
  : option (PassState X) :=
  d ← duplicateBlocks st;
  NewBBs0 ← head (dNewBBs d);
  '(F4, LI5, n5) ← extendExits (dVMap d) (dExitBlocks d) (dFn d, dLI d, dNext d);
  (* Rewrite the code to refer to itself. *)
  let F5 := remapNewBlocks (dVMap d) (dNewBBs d) F4 in
  (* Rewrite the original preheader to select between the versions. *)
  PreB ← getBlock F5 (Preheader st);
  OldBr ← getTerminator PreB;
  match ikind OldBr with
  | Br d0 =>
      if Pos.eqb d0 (dNewPreheader d) then
        let st1 :=
          mkState F5 LI5 n5 (ProcessedLoops st) (CurrentLoop st)
            (Preheader st) (Header st) (Some (dLoop d)) (priv st) in
        (* Emit the branch that selects between the two versions. *)
        st2 ← emitPreheaderBranch st1 (dNewPreheader d) (bid NewBBs0) OldBr;
        st3 ← optimizeDuplicatedLoop st2;
        markProcessed st3
      else None
  | _ => None
  end.

End Engine.

(* ===================================================================== *)
(** * LASBC: loop array subscript bound checking *)
(* ===================================================================== *)

Module LASBC.
Import IR Loops Utils Engine.

(** The members of [LASBCPass]. *)
Record Fields : Type := mkFields {
  IV : option Instruction;
  IVLoopIterationValue : option Instruction;
  IVLoopIterationValueConstOperand : option Value;
  IVExtension : option Instruction;
  N : option Value
}.

Definition noFields : Fields := mkFields None None None None None.

Definition isZExt (ins : Instruction) : bool :=
  match ikind ins with ZExtInst _ => true | _ => false end.

Definition isBranchInst (ins : Instruction) : bool :=
  match ikind ins with Br _ | CondBr _ _ _ => true | _ => false end.

(** The loop over the users of the zero extension: exactly one compare,
    used by one branch only, and otherwise address computations.  [None]
    is the early [return false]. *)
Fixpoint scanZExtUsers (F : Func) (us : list Instruction)
    (Compare : option Instruction) (SawGEPInstruction : bool)
  : option (option Instruction * bool) :=
  match us with
  | [] => Some (Compare, SawGEPInstruction)
  | U :: rest =>
      match ikind U with
      | ICmpInst _ _ _ =>
          match Compare with
          | None =>
              if hasOneUser F (InstRef (iid U))
                 && match users F (InstRef (iid U)) with
                    | B :: _ => isBranchInst B
                    | [] => false
                    end
              then scanZExtUsers F rest (Some U) SawGEPInstruction
              else None
          | Some _ => None
          end
      | GetElementPtrInst _ _ _ => scanZExtUsers F rest Compare true
      | _ => None
      end
  end.

(** The shape of the induction variable, up to the capture of [N]: the
    checks of [isPHIAnAppropriateIV] that come before "Capture N".  The
    outer [None] is undefined behaviour (a phi node without the entries the
    code reads), the inner one the early [return false]. *)
Definition ivShape (F : Func) (L : Loop) (PN : Instruction)
  : option (option (Instruction * Value * Instruction * Instruction)) :=
  match ikind PN with
  | PHINode inc =>
      (* Check IV's type. *)
      if negb (isIntegerTy (ity PN))
         || negb (N.eqb (getTypeSizeInBits (ity PN)) 32)
      then Some None
      else
        e0 ← inc !! 0%nat;
        let IncomingEdge := if contains L (snd e0) then 1%nat else 0%nat in
        let BackEdge := (1 - IncomingEdge)%nat in
        eb ← inc !! BackEdge;
        (* IterValue should be a BinaryOperator with only one user. *)
        match fst eb with
        | InstRef it =>
            match getInst F it with
            | Some IterValue =>
                match ikind IterValue with
                | BinaryOperator _ op0 op1 =>
                    if negb (hasOneUser F (InstRef it)) then Some None
                    else
                      match op1 with
                      | ConstantInt _ _ =>
                          if negb (Value_eqb op0 (InstRef (iid PN)))
                          then Some None
                          else
                            (* PN should have only two users. *)
                            match users F (InstRef (iid PN)) with
                            | [U1; U2] =>
                                let ZExt :=
                                  if isZExt U1 then Some U1
                                  else if isZExt U2 then Some U2 else None in
                                match ZExt with
                                | None => Some None
                                | Some Z =>
                                    match scanZExtUsers F (users F (InstRef (iid Z)))
                                            None false with
                                    | Some (Some Compare, true) =>
                                        Some (Some (IterValue, op1, Z, Compare))
                                    | _ => Some None
                                    end
                                end
                            | _ => Some None
                            end
                      | _ => Some None
                      end
                | _ => Some None
                end
            | None => Some None
            end
        | _ => Some None
        end
  | _ => None
  end.

(** "Capture N": operand 0 of the compare, unless it is the operand of the
    zero extension. *)
Definition captureN (Compare ZExt : Instruction) : option Value :=
  match ikind Compare, ikind ZExt with
  | ICmpInst _ c0 c1, ZExtInst z0 =>
      Some (if Value_eqb c0 z0 then c1 else c0)
  | _, _ => None
  end.

(** "N has to be a loop-invariant value, located in the preheader." *)
Definition nIsInPreheader (F : Func) (L : Loop) (n : Value) : bool :=
  match n with
  | InstRef i =>
      isLoopInvariant F L n
      && bool_decide (getParent F i = getLoopPreheader F L
                      /\ is_Some (getLoopPreheader F L))
  | _ => false
  end.

(** "Verify that the branch actually controls the iteration count of the
    loop." *)
Definition branchControlsLoop (F : Func) (L : Loop) (Compare : Instruction)
  : option bool :=
  TheBranch ← head (users F (InstRef (iid Compare)));
  match ikind TheBranch with
  | CondBr _ s0 s1 =>
      p ← getParent F (iid TheBranch);
      Some (contains L p && negb (contains L s0 && contains L s1))
  | _ => None
  end.

Definition isPHIAnAppropriateIV (st : PassState Fields) (PN : Instruction)
  : option (bool * PassState Fields) :=
  L ← li st !! CurrentLoop st;
  shape ← ivShape (fn st) L PN;
  match shape with
  | None => Some (false, st)
  | Some (IterValue, ConstOperandValue, ZExt, Compare) =>
      n ← captureN Compare ZExt;
      let f := priv st in
      let st1 :=
        setPriv (mkFields (IV f) (IVLoopIterationValue f)
                   (IVLoopIterationValueConstOperand f) (IVExtension f) (Some n)) st in
      if negb (nIsInPreheader (fn st) L n) then Some (false, st1)
      else
        ok ← branchControlsLoop (fn st) L Compare;
        if negb ok then Some (false, st1)
        else
          Some (true,
                setPriv (mkFields (Some PN) (Some IterValue)
                           (Some ConstOperandValue) (Some ZExt) (Some n)) st)
  end.

Fixpoint firstAppropriateIV (st : PassState Fields) (PNs : list Instruction)
  : option (bool * PassState Fields) :=
  match PNs with
  | [] => Some (false, st)
  | PN :: rest =>
      '(ok, st') ← isPHIAnAppropriateIV st PN;
      if (ok : bool) then Some (true, st') else firstAppropriateIV st' rest
  end.

Definition isCurrentLoopACandidate (st : PassState Fields)
  : option (bool * PassState Fields) :=
  H ← getBlock (fn st) (Header st);
  firstAppropriateIV st (phis H).

(** The guard: [n > 0 && n * sizeof <= INT32_MAX], compared with [true]. *)
Definition guardInsts (NTy : Ty) (n : Value) (next : positive)
  : list Instruction :=
  let NGreaterThanZero := next in
  let MulInst := Pos.succ next in
  let NLesserThanINT32_MAX := Pos.succ MulInst in
  let AndInst := Pos.succ NLesserThanINT32_MAX in
  let BranchCondition := Pos.succ AndInst in
  [ mkInst NGreaterThanZero (IntTy 1)
      (ICmpInst ICMP_SGT n (ConstantInt_get NTy 0));
    mkInst MulInst NTy
      (BinaryOperator Mul n
         (ConstantInt_get NTy (Z.of_N (getTypeSizeInBits NTy / 8))));
    mkInst NLesserThanINT32_MAX (IntTy 1)
      (ICmpInst ICMP_SLE (InstRef MulInst) (ConstantInt_get NTy INT32_MAX));
    mkInst AndInst (IntTy 1)
      (BinaryOperator And (InstRef NGreaterThanZero)
         (InstRef NLesserThanINT32_MAX));
    mkInst BranchCondition (IntTy 1)
      (ICmpInst ICMP_EQ (InstRef AndInst) (ConstantInt_get (IntTy 1) 1)) ].

Definition emitPreheaderBranch (st : PassState Fields)
    (TrueDest FalseDest : BlockId) (OldBranch : Instruction)
  : option (PassState Fields) :=
  match ikind OldBranch with
  | Br _ =>
      if Pos.eqb TrueDest FalseDest then None
      else
        n ← N (priv st);
        NTy ← getType (fn st) n;
        let next := nextId st in
        let BranchCondition := Pos.succ (Pos.succ (Pos.succ (Pos.succ next))) in
        let NewTerminator :=
          mkInst (Pos.succ BranchCondition) VoidTy
            (CondBr (InstRef BranchCondition) TrueDest FalseDest) in
        let F1 := insertBefore (iid OldBranch) (guardInsts NTy n next) (fn st) in
        let F2 := ReplaceInstWithInst (iid OldBranch) NewTerminator F1 in
        Some (setNext (Pos.succ (Pos.succ BranchCondition)) (setFn F2 st))
  | _ => None
  end.

(** [ConstantInt::getSExtValue]. *)
Definition getSExtValue (c : Value) : option Z :=
  match c with
  | ConstantInt t v => Some (Sem.signed (Sem.widthOf t) v)
  | _ => None
  end.

Definition incomingBlock (ins : Instruction) (k : nat) : option BlockId :=
  match ikind ins with
  | PHINode inc => snd <$> inc !! k
  | _ => None
  end.

(** "Update IV's type from 'int32' to 'int64', and its uses accordingly."
    The members read here are those captured by the candidate check; the
    instructions are looked up again, since the function has changed. *)
Definition optimizeDuplicatedLoop (st : PassState Fields)
  : option (PassState Fields) :=
  let f := priv st in
  let F := fn st in
  n ← N f;
  NType ← getType F n;
  iv0 ← IV f; iv ← getInst F (iid iv0);
  it0 ← IVLoopIterationValue f; IterValue ← getInst F (iid it0);
  C ← IVLoopIterationValueConstOperand f;
  c ← getSExtValue C;
  ZExt ← IVExtension f;
  L ← li st !! CurrentLoop st;
  b0 ← incomingBlock iv 0;
  let IncomingEdge := if contains L b0 then 1%nat else 0%nat in
  let BackEdge := (1 - IncomingEdge)%nat in
  inB ← incomingBlock iv IncomingEdge;
  backB ← incomingBlock iv BackEdge;
  match ikind IterValue with
  | BinaryOperator op _ _ =>
      let NewPHI := nextId st in
      let NewIterValue := Pos.succ NewPHI in
      let phi :=
        mkInst NewPHI NType
          (PHINode [(ConstantInt_get NType 0, inB);
                    (InstRef NewIterValue, backB)]) in
      let iter :=
        mkInst NewIterValue NType
          (BinaryOperator op (InstRef NewPHI) (ConstantInt_get NType c)) in
      let F1 := insertBefore (iid iv) [phi] F in
      let F2 := insertBefore (iid IterValue) [iter] F1 in
      (* Remove IVExtension. *)
      let F3 := replaceAllUsesWith (iid ZExt) (InstRef NewPHI) F2 in
      let F4 := RecursivelyDeleteTriviallyDeadInstructions (InstRef (iid ZExt)) F3 in
      (* Remove IVLoopIterationValue. *)
      let F5 := replaceAllUsesWith (iid IterValue) (UndefValue (ity IterValue)) F4 in
      let F6 :=
        RecursivelyDeleteTriviallyDeadInstructions (InstRef (iid IterValue)) F5 in
      Some (setNext (Pos.succ NewIterValue) (setFn F6 st))
  | _ => None
  end.

#[export] Instance strategy : Strategy Fields := {
  Engine.isCurrentLoopACandidate := isCurrentLoopACandidate;
  Engine.emitPreheaderBranch := emitPreheaderBranch;
  Engine.optimizeDuplicatedLoop := optimizeDuplicatedLoop
}.

(** [LASBCPass::runOnLoop].  [None]: the loop has no preheader (the data
    layout is read through it), or an assertion of the engine fails. *)
Definition runOnLoop (p : Pass) (l : LoopId) : option (bool * Pass) :=
  L ← passLI p !! l;
  Pre ← getLoopPreheader (passFn p) L;
  H ← getHeader L;
  let st :=
    mkState (passFn p) (passLI p) (passNext p) (passProcessed p)
      l Pre H None noFields in
  if bool_decide (l ∈ passProcessed p) then Some (false, resetDuplicated p)
  else
    '(ok, st1) ← isCurrentLoopACandidate st;
    if negb (ok : bool) then Some (false, resetDuplicated p)
    else
      st2 ← transformCurrentLoop st1;
      Some (true, toPass st2).

End LASBC.

(* ===================================================================== *)
(** * LoopConditionalLICM *)
(* ===================================================================== *)

Module LCLICM.
Import IR Loops Utils Engine.

(** [APInt]: a bit width and the unsigned value held. *)
Record APInt : Type := mkAPInt {
  bitWidth : N;
  apVal : Z
}.

(** [APInt::operator*=]: the product, truncated to the width of the left
    operand (the C++ operator asserts that the widths agree). *)
Definition APInt_mul (a b : APInt) : APInt :=
  mkAPInt (bitWidth a) ((apVal a * apVal b) mod 2 ^ Z.of_N (bitWidth a)).

(** [*APInt::getRawData()]: the low 64 bits. *)
Definition getRawData (a : APInt) : Z := apVal a mod 2 ^ 64.

(** An alias set of [AliasSetTracker]. *)
Record AliasSet : Type := mkAliasSet {
  asPointers : list Value;
  isForwardingAliasSet : bool;
  isMod : bool;
  isMustAlias : bool
}.

(** [std::pair<Value *, uint64_t>]: {starting address, offset}. *)
Definition MemLoc : Type := Value * Z.

(** [PromotionPtrDeps]: the dependencies recorded per promotion candidate,
    in the order the map is walked. *)
Definition DepsMap : Type := list (Value * list MemLoc).

(** The members of [LoopConditionalLICMPass]. *)
Record Fields : Type := mkFields {
  PromotionPtrDeps : DepsMap;
  PromotionPtrMustAliasSets : list (list Value)
}.

(** The analyses handed to [runOnLoop], and LICM's promotion routine, by
    what the pass asks of them:
    - [aliasSets F accesses]: the alias sets [AliasSetTracker] builds from
      the accesses added to it;
    - [getInductionVariable F L]: [Loop::getInductionVariable(SE)];
    - [getUnsignedRangeMax F Index scope]:
      [SE->getUnsignedRangeMax(SE->getSCEVAtScope(Index, scope))];
    - [dominates F A B]: [DT->dominates(A, B)] on blocks;
    - [promoteLoopAccessesToScalars set loop LI F next]: LICM's promotion
      of one must-alias set in a loop, which rewrites the function (or
      leaves it as it is when it declines to promote). *)
Record Analyses : Type := mkAnalyses {
  aliasSets : Func -> list Instruction -> list AliasSet;
  getInductionVariable : Func -> Loop -> option Instruction;
  getUnsignedRangeMax : Func -> Value -> option LoopId -> APInt;
  dominates : Func -> BlockId -> BlockId -> bool;
  promoteLoopAccessesToScalars :
    list Value -> LoopId -> LoopInfo -> Func -> positive -> Func * positive
}.

Section WithAnalyses.
Variable an : Analyses.

(** The instructions MemorySSA has a use or def for. *)
Definition isMemoryAccess (ins : Instruction) : bool :=
  match ikind ins with
  | LoadInst _ | StoreInst _ _ | CallInst _ _ | InvokeInst _ _ _ => true
  | _ => false
  end.

(** [foreachMemoryAccess]: the memory instructions of the loop, block by
    block. *)
Definition memoryAccesses (F : Func) (L : Loop) : list Instruction :=
  flat_map
    (fun b => match getBlock F b with
              | Some B => List.filter isMemoryAccess (binsts B)
              | None => []
              end) (blocks L).

(** [collectPromotionCandidates]: the pointers of the must-alias sets with
    a store, among the accesses through a loop-invariant pointer. *)
Definition collectPromotionCandidates (F : Func) (L : Loop)
  : list (list Value) :=
  let IsPotentiallyPromotable ins :=
    match ikind ins with
    | StoreInst _ p => isLoopInvariant F L p
    | LoadInst p => isLoopInvariant F L p
    | _ => false
    end in
  let Sets :=
    List.filter
      (fun AS => negb (isForwardingAliasSet AS) && isMod AS && isMustAlias AS)
      (aliasSets an F (List.filter IsPotentiallyPromotable (memoryAccesses F L))) in
  map asPointers Sets.

Definition isCurrentLoopACandidate (st : PassState Fields)
  : option (bool * PassState Fields) :=
  L ← li st !! CurrentLoop st;
  let F := fn st in
  (* Require loops with preheaders and dedicated exits. *)
  if negb (isLoopSimplifyForm F L) then Some (false, st)
  (* Require loops with an induction variable. *)
  else if negb (bool_decide (is_Some (getInductionVariable an F L)))
  then Some (false, st)
  (* Since cloning is used to split the loop, it has to be safe to clone. *)
  else if negb (isSafeToClone F L) then Some (false, st)
  (* If the loop has multiple exiting blocks, do not split. *)
  else if negb (bool_decide (is_Some (getExitingBlock F L))) then Some (false, st)
  (* If the loop has multiple exit blocks, do not split. *)
  else if negb (bool_decide (is_Some (getExitBlock F L))) then Some (false, st)
  (* Only split innermost loops. *)
  else if negb (bool_decide (getSubLoops L = [])) then Some (false, st)
  else Some (true, st).

(** "A value is accessible in the preheader if it is a constant, an argument
    to the function, or a global value, or an instruction such that the
    parent BB dominates the preheader." *)
Definition isAccessibleInPreheader (F : Func) (Preheader : BlockId) (V : Value)
  : bool :=
  match V with
  | ConstantInt _ _ | UndefValue _ | Argument _ _ | GlobalValue _ _ => true
  | InstRef i =>
      match getParent F i with
      | Some p => dominates an F p Preheader
      | None => false
      end
  end.

Definition asLoad (F : Func) (v : Value) : option Instruction :=
  match v with
  | InstRef i =>
      ins ← getInst F i;
      match ikind ins with LoadInst _ => Some ins | _ => None end
  | _ => None
  end.

(** [dyn_cast<GEPOperator>] (constant expressions are outside the
    fragment). *)
Definition asGEP (F : Func) (v : Value) : option Instruction :=
  match v with
  | InstRef i =>
      ins ← getInst F i;
      match ikind ins with GetElementPtrInst _ _ _ => Some ins | _ => None end
  | _ => None
  end.

Definition loadPointer (ins : Instruction) : option Value :=
  match ikind ins with LoadInst p => Some p | _ => None end.

(** The walk up a chain of GEPs reached through loads, accumulating the
    offset: [while (LI && GEP)].  [None]: the chain does not end. *)
Fixpoint walkGEPChain (fuel : nat) (F : Func) (scope : option LoopId)
    (GEP : Instruction) (OffsetFromStartAddr : option APInt)
  : option (Value * APInt) :=
  match fuel with
  | O => None
  | S fuel' =>
      match ikind GEP with
      | GetElementPtrInst srcTy ptr idx =>
          let Offset :=
            match idx with
            | [Index] => getUnsignedRangeMax an F Index scope
            | _ => mkAPInt 64 (Z.of_N (getTypeSizeInBits srcTy / 8))
            end in
          let acc :=
            match OffsetFromStartAddr with
            | Some o => APInt_mul o Offset
            | None => Offset
            end in
          let StartAddr := ptr in
          match (LI ← asLoad F StartAddr; p ← loadPointer LI; asGEP F p) with
          | Some GEP' => walkGEPChain fuel' F scope GEP' (Some acc)
          | None => Some (StartAddr, acc)
          end
      | _ => None
      end
  end.

Fixpoint pushDep (P : Value) (d : MemLoc) (deps : DepsMap) : DepsMap :=
  match deps with
  | [] => [(P, [d])]
  | (K, l) :: rest =>
      if Value_eqb K P then (K, l ++ [d]) :: rest
      else (K, l) :: pushDep P d rest
  end.

Definition hasKey (P : Value) (deps : DepsMap) : bool :=
  existsb (fun e => Value_eqb (fst e) P) deps.

(** What the body of the loop over the accesses does with one access. *)
Inductive Step : Type :=
| Continue (deps : DepsMap)
| ReturnFalse (deps : DepsMap).

(** The loop over the operands of the binary operator. *)
Fixpoint checkOperands (F : Func) (L : Loop) (Preheader : BlockId)
    (PointerOperand : Value) (ops : list Value) (SawPointerOperand : bool)
    (deps : DepsMap) : option (Step * bool) :=
  match ops with
  | [] => Some (Continue deps, SawPointerOperand)
  | Op :: rest =>
      match asLoad F Op with
      | Some LI =>
          LIPointerOperand ← loadPointer LI;
          let Saw :=
            if Value_eqb PointerOperand LIPointerOperand then true
            else SawPointerOperand in
          match asGEP F LIPointerOperand with
          | Some GEP =>
              '(StartAddr, Off) ←
                walkGEPChain (S (length (allInsts F))) F (parentLoop L) GEP None;
              if negb (isAccessibleInPreheader F Preheader StartAddr)
              then Some (ReturnFalse deps, Saw)
              else
                checkOperands F L Preheader PointerOperand rest Saw
                  (pushDep PointerOperand (StartAddr, getRawData Off) deps)
          | None => Some (ReturnFalse deps, Saw)
          end
      | None => Some (ReturnFalse deps, SawPointerOperand)
      end
  end.

Definition visitAccess (F : Func) (L : Loop) (Preheader : BlockId)
    (ins : Instruction) (deps : DepsMap) : option Step :=
  match ikind ins with
  | StoreInst val PointerOperand =>
      (* Only interested in stores *to* a promotion candidate. *)
      if negb (hasKey PointerOperand deps) then Some (Continue deps)
      else
        (* Value being stored should be a BinaryOperator. *)
        match val with
        | InstRef v =>
            match ikind <$> getInst F v with
            | Some (BinaryOperator _ a b) =>
                '(s, Saw) ←
                  checkOperands F L Preheader PointerOperand [a; b] false deps;
                match s with
                | ReturnFalse d => Some (ReturnFalse d)
                | Continue d =>
                    (* One of the operands has to be the candidate. *)
                    if negb Saw then Some (ReturnFalse d) else Some (Continue d)
                end
            | _ => Some (Continue deps)
            end
        | _ => Some (Continue deps)
        end
  | _ => Some (Continue deps)
  end.

Fixpoint visitAccesses (F : Func) (L : Loop) (Preheader : BlockId)
    (accs : list Instruction) (deps : DepsMap) : option Step :=
  match accs with
  | [] => Some (Continue deps)
  | ins :: rest =>
      s ← visitAccess F L Preheader ins deps;
      match s with
      | ReturnFalse d => Some (ReturnFalse d)
      | Continue d => visitAccesses F L Preheader rest d
      end
  end.

(** [populatePromotionPtrDeps]: the result and the map it leaves. *)
Definition populatePromotionPtrDeps (F : Func) (L : Loop) (Preheader : BlockId)
    (deps : DepsMap) : option (bool * DepsMap) :=
  s ← visitAccesses F L Preheader (memoryAccesses F L) deps;
  match s with
  | ReturnFalse d => Some (false, d)
  | Continue d =>
      (* Has anything been collected? *)
      Some (existsb (fun e => negb (Nat.eqb (length (snd e)) 0)) d, d)
  end.

(** [GetStartAndEnd]: the instructions computing the integer values of
    'Starting Address' and 'Starting Address' + 'Offset', inserted before the
    old branch.  Returns (Start, End), the instructions and the next id. *)
Definition GetStartAndEnd (F : Func) (Dep : MemLoc) (next : positive)
  : option (Value * Value * list Instruction * positive) :=
  ptrTy ← getType F (fst Dep);
  Ty ← match ptrTy with
        | OpaquePtrTy => Some OpaquePtrTy
        | PtrTy t => Some t
        | _ => None
        end;
  let EndPtr :=
    mkInst next ptrTy
      (GetElementPtrInst Ty (fst Dep) [ConstantInt_get (IntTy 64) (snd Dep)]) in
  let '(End, endInsts, n1) :=
    if Ty_eqb ptrTy (IntTy 64) then (InstRef next, [EndPtr], Pos.succ next)
    else (InstRef (Pos.succ next),
          [EndPtr; mkInst (Pos.succ next) (IntTy 64) (PtrToIntInst (InstRef next))],
          Pos.succ (Pos.succ next)) in
  let StartPtr :=
    mkInst n1 ptrTy
      (GetElementPtrInst Ty (fst Dep) [ConstantInt_get (IntTy 64) 0]) in
  let '(Start, startInsts, n2) :=
    if Ty_eqb ptrTy (IntTy 64) then (InstRef n1, [StartPtr], Pos.succ n1)
    else (InstRef (Pos.succ n1),
          [StartPtr; mkInst (Pos.succ n1) (IntTy 64) (PtrToIntInst (InstRef n1))],
          Pos.succ (Pos.succ n1)) in
  Some (Start, End, endInsts ++ startInsts, n2).

Record OverlapConditionPair : Type := mkOCP {
  StartA : Value;
  StartB : Value;
  EndA : Value;
  EndB : Value
}.

(** The inner loop: [for (int j = i + 1; j < Size; ++j)]. *)
Fixpoint pairsWith (F : Func) (A : Value * Value) (rest : list MemLoc)
    (next : positive)
  : option (list OverlapConditionPair * list Instruction * positive) :=
  match rest with
  | [] => Some ([], [], next)
  | d :: rest' =>
      '(StartB_, EndB_, insts, n1) ← GetStartAndEnd F d next;
      '(ps, insts', n2) ← pairsWith F A rest' n1;
      Some (mkOCP (fst A) StartB_ (snd A) EndB_ :: ps, insts ++ insts', n2)
  end.

(** The outer loop: [for (int i = 0; i < Size - 1; ++i)]. *)
Fixpoint pairsOfList (F : Func) (l : list MemLoc) (next : positive)
  : option (list OverlapConditionPair * list Instruction * positive) :=
  match l with
  | d :: ((_ :: _) as rest) =>
      '(StartA_, EndA_, insts, n1) ← GetStartAndEnd F d next;
      '(ps, insts', n2) ← pairsWith F (StartA_, EndA_) rest n1;
      '(ps', insts'', n3) ← pairsOfList F rest n2;
      Some (ps ++ ps', insts ++ insts' ++ insts'', n3)
  | _ => Some ([], [], next)
  end.

(** [for (auto &Pair : PromotionPtrDeps)]. *)
Fixpoint pairsOfMap (F : Func) (deps : DepsMap) (next : positive)
  : option (list OverlapConditionPair * list Instruction * positive) :=
  match deps with
  | [] => Some ([], [], next)
  | Pair :: rest =>
      '(ps, insts, n1) ← pairsOfList F (snd Pair) next;
      '(ps', insts', n2) ← pairsOfMap F rest n1;
      Some (ps ++ ps', insts ++ insts', n2)
  end.

(** One 'lclicm.or' per pair, with its two compares. *)
Fixpoint emitOrs (OCPs : list OverlapConditionPair) (next : positive)
  : list Value * list Instruction * positive :=
  match OCPs with
  | [] => ([], [], next)
  | OCP :: rest =>
      let Cmp1 := mkInst next (IntTy 1) (ICmpInst ICMP_SGT (StartA OCP) (EndB OCP)) in
      let Cmp2 :=
        mkInst (Pos.succ next) (IntTy 1)
          (ICmpInst ICMP_SLT (EndB OCP) (StartA OCP)) in
      let Or_ :=
        mkInst (Pos.succ (Pos.succ next)) (IntTy 1)
          (BinaryOperator Or (InstRef next) (InstRef (Pos.succ next))) in
      let '(ors, insts, n) := emitOrs rest (Pos.succ (Pos.succ (Pos.succ next))) in
      (InstRef (iid Or_) :: ors, [Cmp1; Cmp2; Or_] ++ insts, n)
  end.

(** [for (int i = 2, sz = Ors.size(); i < sz; ++i)]. *)
Fixpoint emitAnds (FinalCond : Value) (Ors : list Value) (next : positive)
  : Value * list Instruction * positive :=
  match Ors with
  | [] => (FinalCond, [], next)
  | o :: rest =>
      let '(c, insts, n) := emitAnds (InstRef next) rest (Pos.succ next) in
      (c, mkInst next (IntTy 1) (BinaryOperator And FinalCond o) :: insts, n)
  end.

(** The final condition; [Ors[0]] and [Ors[1]] must exist when the size is
    not 1. *)
Definition emitFinalCond (Ors : list Value) (next : positive)
  : option (Value * list Instruction * positive) :=
  match Ors with
  | [o] => Some (o, [], next)
  | _ =>
      o0 ← Ors !! 0%nat;
      o1 ← Ors !! 1%nat;
      let '(c, insts, n) := emitAnds (InstRef next) (drop 2 Ors) (Pos.succ next) in
      Some (c, mkInst next (IntTy 1) (BinaryOperator And o0 o1) :: insts, n)
  end.

Definition emitPreheaderBranch (st : PassState Fields)
    (TrueDest FalseDest : BlockId) (OldBranch : Instruction)
  : option (PassState Fields) :=
  match ikind OldBranch with
  | Br _ =>
      if Pos.eqb TrueDest FalseDest then None
      else
        '(OCPs, insts1, n1) ←
          pairsOfMap (fn st) (PromotionPtrDeps (priv st)) (nextId st);
        let '(Ors, insts2, n2) := emitOrs OCPs n1 in
        '(FinalCond, insts3, n3) ← emitFinalCond Ors n2;
        let NewTerminator :=
          mkInst n3 VoidTy (CondBr FinalCond TrueDest FalseDest) in
        let F1 := insertBefore (iid OldBranch) (insts1 ++ insts2 ++ insts3) (fn st) in
        let F2 := ReplaceInstWithInst (iid OldBranch) NewTerminator F1 in
        Some (setNext (Pos.succ n3) (setFn F2 st))
  | _ => None
  end.

(** "Promote the candidates in the cloned loop." *)
Definition optimizeDuplicatedLoop (st : PassState Fields)
  : option (PassState Fields) :=
  D ← DuplicatedLoop st;
  let '(F, next) :=
    foldl
      (fun acc set =>
         promoteLoopAccessesToScalars an set D (li st) (fst acc) (snd acc))
      (fn st, nextId st) (PromotionPtrMustAliasSets (priv st)) in
  Some (setNext next (setFn F st)).

Definition strategy : Strategy Fields := {|
  Engine.isCurrentLoopACandidate := isCurrentLoopACandidate;
  Engine.emitPreheaderBranch := emitPreheaderBranch;
  Engine.optimizeDuplicatedLoop := optimizeDuplicatedLoop
|}.

(** [PromotionPtrDeps.insert({Set[0], {}})] for every must-alias set; a key
    already there keeps its entry. *)
Fixpoint initDeps (sets : list (list Value)) (deps : DepsMap)
  : option DepsMap :=
  match sets with
  | [] => Some deps
  | set :: rest =>
      P ← head set;
      initDeps rest (if hasKey P deps then deps else deps ++ [(P, [])])
  end.

(** [LoopConditionalLICMPass::runOnLoop]. *)
Definition runOnLoop (p : Pass) (l : LoopId) : option (bool * Pass) :=
  L ← passLI p !! l;
  Pre ← getLoopPreheader (passFn p) L;
  H ← getHeader L;
  let st :=
    mkState (passFn p) (passLI p) (passNext p) (passProcessed p)
      l Pre H None (mkFields [] []) in
  (* Check if the loop has already been processed. *)
  if bool_decide (l ∈ passProcessed p) then Some (false, resetDuplicated p)
  else
    '(ok, st1) ← isCurrentLoopACandidate st;
    if negb (ok : bool) then Some (false, resetDuplicated p)
    else
      (* Collect the promotion candidates, if any. *)
      let sets := collectPromotionCandidates (passFn p) L in
      match sets with
      | [] => Some (false, resetDuplicated p)
      | _ =>
          deps0 ← initDeps sets [];
          '(ok', deps) ← populatePromotionPtrDeps (passFn p) L Pre deps0;
          if negb (ok' : bool) then Some (false, resetDuplicated p)
          else
            st2 ← @transformCurrentLoop Fields strategy
                    (setPriv (mkFields deps sets) st1);
            Some (true, toPass st2)
      end.

End WithAnalyses.

End LCLICM.

(* ===================================================================== *)
(** * Concrete functions: the regression tests and variations of them *)
(* ===================================================================== *)

Module Cases.
Import IR Loops Utils Engine.
Local Open Scope positive_scope.

Definition i1 : Ty := IntTy 1.
Definition i32 : Ty := IntTy 32.
Definition i64 : Ty := IntTy 64.
Definition c32 (z : Z) : Value := ConstantInt i32 z.
Definition c64 (z : Z) : Value := ConstantInt i64 z.

(** ** lasbc.ll: [for (int32_t i = start; i < n; i++) a[i] = b[i] * c;]

    Blocks: 1 entry, 2 for.cond, 3 for.body, 4 for.cond.cleanup.  The test
    has [start = 0], the bound is the load of [@n] in the entry block and
    the body ends with the branch back to for.cond; the parameters let the
    variations change them. *)
Definition gN : Value := GlobalValue (PtrTy i64) 1.
Definition gB : Value := GlobalValue (PtrTy (ArrTy 0 i64)) 2.
Definition gC : Value := GlobalValue (PtrTy i64) 3.
Definition gA : Value := GlobalValue (PtrTy (ArrTy 0 i64)) 4.

Definition fooWith (start : Z) (bound : Value) (bodyExit : list Instruction)
    (extra : list BasicBlock) : Func :=
  app
  [ mkBlock 1 [ mkInst 10 i64 (LoadInst gN);
                mkInst 11 VoidTy (Br 2) ];
    mkBlock 2 [ mkInst 12 i32 (PHINode [(c32 start, 1); (InstRef 21, 3)]);
                mkInst 13 i64 (ZExtInst (InstRef 12));
                mkInst 14 i1 (ICmpInst ICMP_SGT bound (InstRef 13));
                mkInst 15 VoidTy (CondBr (InstRef 14) 3 4) ];
    mkBlock 3 ([ mkInst 16 (PtrTy i64)
                   (GetElementPtrInst (ArrTy 0 i64) gB [c64 0; InstRef 13]);
                 mkInst 17 i64 (LoadInst (InstRef 16));
                 mkInst 18 i64 (LoadInst gC);
                 mkInst 19 i64 (BinaryOperator Mul (InstRef 18) (InstRef 17));
                 mkInst 20 (PtrTy i64)
                   (GetElementPtrInst (ArrTy 0 i64) gA [c64 0; InstRef 13]);
                 mkInst 22 VoidTy (StoreInst (InstRef 19) (InstRef 20));
                 mkInst 21 i32 (BinaryOperator Add (InstRef 12) (c32 1)) ]
               ++ bodyExit);
    mkBlock 4 [ mkInst 24 VoidTy (ReturnInst None) ] ]
  extra.

(** The test as it is. *)
Definition foo : Func :=
  fooWith 0 (InstRef 10) [mkInst 23 VoidTy (Br 2)] [].

(** The induction variable starts at 5. *)
Definition fooFrom5 : Func :=
  fooWith 5 (InstRef 10) [mkInst 23 VoidTy (Br 2)] [].

(** The bound is the constant 100, and the first argument. *)
Definition fooConstBound : Func :=
  fooWith 0 (c64 100) [mkInst 23 VoidTy (Br 2)] [].

Definition fooArgBound : Func :=
  fooWith 0 (Argument i64 1) [mkInst 23 VoidTy (Br 2)] [].

(** The body leaves the loop early when [b[i]] is zero: two exiting blocks
    (2 and 3) and two exit blocks (4 and 5). *)
Definition fooTwoExits : Func :=
  fooWith 0 (InstRef 10)
    [ mkInst 25 i1 (ICmpInst ICMP_EQ (InstRef 17) (c64 0));
      mkInst 26 VoidTy (CondBr (InstRef 25) 5 2) ]
    [ mkBlock 5 [ mkInst 27 VoidTy (ReturnInst None) ] ].

(** The loop also sums up the elements of [b], and the function returns
    the sum: a second phi node in for.cond (28), and a phi node (30) in
    for.cond.cleanup, the successor of the exit block to be. *)
Definition fooSum : Func :=
  updBlock 2
    (insertAtFirstInsertionPt
       [mkInst 28 i64 (PHINode [(c64 0, 1); (InstRef 29, 3)])])
    (updBlock 4
       (fun _ => mkBlock 4 [ mkInst 30 i64 (PHINode [(InstRef 28, 2)]);
                             mkInst 24 VoidTy (ReturnInst (Some (InstRef 30))) ])
       (fooWith 0 (InstRef 10)
          [ mkInst 29 i64 (BinaryOperator Add (InstRef 28) (InstRef 17));
            mkInst 23 VoidTy (Br 2) ] [])).

Definition fooLoop : Loop := mkLoop [2; 3] [] None.
Definition fooLI : gmap positive Loop := {[ 1 := fooLoop ]}.

Definition passOn (F : Func) (LI : gmap positive Loop) : Pass :=
  mkPass F LI 100 ∅ None.

(** Inputs of [foo]: [@n], [@b], [@c], [@a] at 1000, 2000, 3000, 4000;
    [n] and [c] in memory, [b[i] = i + 1]. *)
Definition fooInputs : Sem.Inputs :=
  Sem.mkInputs ∅ (list_to_map [(1, 1000%Z); (2, 2000%Z); (3, 3000%Z); (4, 4000%Z)]).

Definition fooMem (n : Z) : gmap Z Z :=
  list_to_map
    ((1000, n) :: (3000, 3) ::
     map (fun i => (2000 + 8 * Z.of_nat i, Z.of_nat i + 1)%Z) (seq 0 8))%Z.

(** ** The LoopConditionalLICM test:
    [for (i...) { a[i] = 0; for (j...) a[i] += b[i][j]; }]

    Blocks: 1 entry, 2 outer header, 3 return, 4 outer body (the preheader
    of the inner loop), 7 outer latch, 9 inner loop.  [inLoop] is put at
    the head of the inner loop's body. *)
Definition bTy : Ty := ArrTy 100 (ArrTy 8 i64).
Definition gPA : Value := GlobalValue (PtrTy (PtrTy i64)) 1.
Definition gArrB : Value := GlobalValue (PtrTy bTy) 2.

Definition fnWith (inLoop : list Instruction) : Func :=
  [ mkBlock 1 [ mkInst 10 VoidTy (Br 2) ];
    mkBlock 2 [ mkInst 11 i64 (PHINode [(c64 0, 1); (InstRef 18, 7)]);
                mkInst 12 i1 (ICmpInst ICMP_ULT (InstRef 11) (c64 100));
                mkInst 13 VoidTy (CondBr (InstRef 12) 4 3) ];
    mkBlock 3 [ mkInst 14 VoidTy (ReturnInst None) ];
    mkBlock 4 [ mkInst 15 (PtrTy i64) (LoadInst gPA);
                mkInst 16 (PtrTy i64) (GetElementPtrInst i64 (InstRef 15) [InstRef 11]);
                mkInst 17 VoidTy (StoreInst (c64 0) (InstRef 16));
                mkInst 30 VoidTy (Br 9) ];
    mkBlock 7 [ mkInst 18 i64 (BinaryOperator Add (InstRef 11) (c64 1));
                mkInst 19 VoidTy (Br 2) ];
    mkBlock 9 ([ mkInst 20 i32 (PHINode [(c32 0, 4); (InstRef 27, 9)]);
                 mkInst 21 i64 (ZExtInst (InstRef 20)) ]
               ++ inLoop ++
               [ mkInst 22 (PtrTy i64)
                   (GetElementPtrInst bTy gArrB [c64 0; InstRef 11; InstRef 21]);
                 mkInst 23 i64 (LoadInst (InstRef 22));
                 mkInst 24 i64 (LoadInst (InstRef 16));
                 mkInst 25 i64 (BinaryOperator Add (InstRef 24) (InstRef 23));
                 mkInst 26 VoidTy (StoreInst (InstRef 25) (InstRef 16));
                 mkInst 27 i32 (BinaryOperator Add (InstRef 20) (c32 1));
                 mkInst 28 i1 (ICmpInst ICMP_ULT (InstRef 27) (c32 8));
                 mkInst 29 VoidTy (CondBr (InstRef 28) 9 7) ]) ].

(** The test as it is. *)
Definition fnTest : Func := fnWith [].

(** The inner loop also resets the accumulator: [a[i] = 0] is a store of a
    constant to the promotion candidate, inside the loop. *)
Definition fnResetInLoop : Func :=
  fnWith [ mkInst 31 VoidTy (StoreInst (c64 0) (InstRef 16)) ].

Definition fnInner : Loop := mkLoop [9] [] (Some 1).
Definition fnLI : gmap positive Loop :=
  {[ 1 := mkLoop [2; 4; 9; 7] [2] None; 2 := fnInner ]}.

(** The analyses on [fnTest]: one must-alias set with a store, the accesses
    through [%6]; the induction variable [%j]; every index ranges up to 100;
    a block dominates itself; promotion declines. *)
Definition fnAnalyses (withIV : bool) : LCLICM.Analyses :=
  LCLICM.mkAnalyses
    (fun _ _ => [LCLICM.mkAliasSet [InstRef 16] false true true])
    (fun F _ => if withIV then getInst F 20 else None)
    (fun _ _ _ => LCLICM.mkAPInt 64 100)
    (fun _ a b => Pos.eqb a b)
    (fun _ _ _ F next => (F, next)).

(** Inputs of [fnTest]: [@a] at 500 holding the pointer [a], [@b] at [b]. *)
Definition fnInputs (b : Z) : Sem.Inputs :=
  Sem.mkInputs ∅ (list_to_map [(1, 500%Z); (2, b)]).

Definition fnMem (a : Z) : gmap Z Z := {[ 500%Z := a ]}.

End Cases.

(* ===================================================================== *)
(** * The properties, in the words of the specification *)
(* ===================================================================== *)

Module SpecWords.
Import IR.

(** "boundsOk = (N > 0) AND (N * elementSize <= INT32_MAX)", over the
    integers, with the element size derived from the bit width of [N]. *)
Definition boundsOk (w : N) (n : Z) : Prop :=
  n > 0 /\ n * Z.of_N (w / 8) <= INT32_MAX.

(** Two byte ranges [[B1, B1+O1)] and [[B2, B2+O2)] are disjoint. *)
Definition rangesDisjoint (B1 O1 B2 O2 : Z) : Prop :=
  B1 + O1 <= B2 \/ B2 + O2 <= B1.

(** "(start_i > end_j) OR (end_i < start_j)". *)
Definition nonOverlap (startA endA startB endB : Z) : bool :=
  (endB <? startA) || (endA <? startB).

(** A phi node "has exactly one incoming entry per predecessor block, with
    no missing or duplicate entries". *)
Definition oneEntryPerPredecessor (F : Func) (S : positive)
    (PN : Instruction) : Prop :=
  match ikind PN with
  | PHINode inc => map snd inc ≡ₚ predecessors F S
  | _ => False
  end.

End SpecWords.

Module Runs.
Import IR Loops Utils Engine Cases.

(** The function [LASBCPass::runOnLoop] leaves when it transforms the loop
    of a variation of [foo]. *)
Definition lasbcTransformed (F : Func) : option Func :=
  r ← LASBC.runOnLoop (passOn F fooLI) 1;
  if (fst r : bool) then Some (passFn (snd r)) else None.

(** The function [LoopConditionalLICMPass::runOnLoop] leaves when it
    transforms the inner loop of a variation of [fnTest]. *)
Definition lclicmTransformed (F : Func) : option Func :=
  r ← LCLICM.runOnLoop (fnAnalyses true) (passOn F fnLI) 2;
  if (fst r : bool) then Some (passFn (snd r)) else None.

(** The state [runOnLoop] hands to the candidate check. *)
Definition lasbcState (F : Func) : PassState LASBC.Fields :=
  mkState F fooLI 100 ∅ 1%positive 1%positive 2%positive None LASBC.noFields.

(** The state after the candidate check of LASBC has accepted the loop,
    and what [duplicateBlocks] makes of it. *)
Definition lasbcCandidate (F : Func) : option (PassState LASBC.Fields) :=
  r ← LASBC.isCurrentLoopACandidate (lasbcState F);
  if (fst r : bool) then Some (snd r) else None.

Definition lasbcDuplication (F : Func) : option Duplication :=
  st ← lasbcCandidate F; duplicateBlocks st.

Definition lclicmState (F : Func) (deps : LCLICM.DepsMap)
  : PassState LCLICM.Fields :=
  mkState F fnLI 100 ∅ 2%positive 4%positive 9%positive None
    (LCLICM.mkFields deps [[InstRef 16%positive]]).

(** The value an instruction computed in a run, and the blocks entered. *)
Definition regOf (o : Sem.Outcome) (i : positive) : option Z :=
  match o with
  | Sem.Returned _ m | Sem.OutOfFuel m | Sem.Stuck m => Sem.regs m !! i
  end.

Definition traceOf (o : Sem.Outcome) : list positive :=
  match o with
  | Sem.Returned _ m | Sem.OutOfFuel m | Sem.Stuck m => rev (Sem.trace m)
  end.

(** The value of the guard of [LASBCPass::emitPreheaderBranch] when [N] is
    the [w]-bit pattern [v]: what the five emitted instructions compute. *)
Definition guardValue (w : N) (v : Z) : bool :=
  Sem.evalICmp ICMP_SGT w v (0 mod 2 ^ Z.of_N w)
  && Sem.evalICmp ICMP_SLE w
       (Sem.wrap w (v * (Z.of_N (w / 8) mod 2 ^ Z.of_N w)))
       (INT32_MAX mod 2 ^ Z.of_N w).

End Runs.

(* ===================================================================== *)
(** * Conditions the theorems are stated under *)
(* ===================================================================== *)

Module Conditions.
Import IR Loops Utils Engine.

Definition isPointerTy (t : Ty) : bool :=
  match t with PtrTy _ | OpaquePtrTy => true | _ => false end.

(** Every recorded starting address has a pointer type in [F], as the
    pointer operand of a GEP has. *)
Definition pointerTyped (F : Func) (deps : LCLICM.DepsMap) : Prop :=
  Forall
    (fun e : Value * list LCLICM.MemLoc =>
       Forall (fun d : LCLICM.MemLoc =>
                 exists t, getType F (fst d) = Some t /\ isPointerTy t = true)
         (snd e)) deps.

(** The map as [runOnLoop] leaves it before dependency extraction: every
    candidate with an empty list. *)
Definition allEmpty (deps : LCLICM.DepsMap) : Prop :=
  Forall (fun e : Value * list LCLICM.MemLoc => snd e = []) deps.

Definition evenLists (deps : LCLICM.DepsMap) : Prop :=
  Forall (fun e : Value * list LCLICM.MemLoc => Nat.Even (length (snd e))) deps.

(** What a strategy's methods leave alone: the loop being transformed, the
    duplicated loop and the processed set belong to the engine. *)
Definition keepsEngineState {X} (f : PassState X -> option (PassState X))
  : Prop :=
  forall st st', f st = Some st' ->
    CurrentLoop st' = CurrentLoop st
    /\ DuplicatedLoop st' = DuplicatedLoop st
    /\ ProcessedLoops st' = ProcessedLoops st.

(** [st'] is [st] up to the members of the derived pass. *)
Definition onlyPriv {X} (st st' : PassState X) : Prop :=
  exists x, st' = setPriv x st.

(** [Later run p q]: the pass object [q] is [p] after further calls of
    [runOnLoop], on any loops. *)
Inductive Later (run : Pass -> positive -> option (bool * Pass))
  : Pass -> Pass -> Prop :=
| later_now (p : Pass) : Later run p p
| later_call (p q r : Pass) (l : positive) (b : bool) :
    Later run p q -> run q l = Some (b, r) -> Later run p r.

(** The loops of the nests of [l] and of the duplicated loop [D]. *)
Definition nests (p : Pass) (l D : positive) : list positive :=
  getLoopsInPreorder (depthBound (passLI p)) (passLI p) l
  ++ getLoopsInPreorder (depthBound (passLI p)) (passLI p) D.

(** "Idempotence of processing" for a [runOnLoop]: once a call has
    transformed a loop, the loops of both nests are in the processed set,
    and every later call on one of them (the loop object still having a
    preheader to read the data layout through) returns false and leaves the
    function, LoopInfo and the processed set as they are. *)
Definition neverDuplicatedTwice
    (run : Pass -> positive -> option (bool * Pass)) : Prop :=
  forall (p p1 : Pass) (l : positive),
    run p l = Some (true, p1) ->
    exists D,
      passDuplicated p1 = Some D
      /\ forall lp, In lp (nests p1 l D) ->
           lp ∈ passProcessed p1
           /\ forall (p2 : Pass) (Lp : Loop),
                Later run p1 p2 ->
                passLI p2 !! lp = Some Lp ->
                is_Some (getLoopPreheader (passFn p2) Lp) ->
                run p2 lp = Some (false, resetDuplicated p2).

(** ** The state before the loop over the exit blocks *)

Definition entriesOf (ins : Instruction) : list (Value * positive) :=
  match ikind ins with PHINode inc => inc | _ => [] end.

(** The phi nodes of the block named [b]. *)
Definition phisOf (F : Func) (b : positive) : list Instruction :=
  match getBlock F b with Some B => phis B | None => [] end.

(** The clone of an exit block and the single successor of that clone
    ("Exit block should have been split to have one successor!"). *)
Definition exitOf (F : Func) (VMap : ValueMap) (ExitBlock : positive)
  : option (positive * positive) :=
  NewExit ← vmBlock VMap !! ExitBlock;
  B ← getBlock F NewExit;
  match successors B with
  | [ExitSucc] => Some (NewExit, ExitSucc)
  | _ => None
  end.

(** The value is the result of a landing pad instruction of [F]. *)
Definition landingPadRef (F : Func) (v : Value) : Prop :=
  exists ins, In ins (allInsts F) /\ isLandingPad ins = true
              /\ v = InstRef (iid ins).

Definition isLandingPadBlock (F : Func) (b : positive) : Prop :=
  exists B, getBlock F b = Some B /\ is_Some (getLandingPadInst B).

(** An exit block the loop has not visited yet: its clone exists and has
    one successor, which the exit block branches to as well; every phi node
    of that successor has one entry per predecessor but for the clone, and
    takes no landing pad value ([splitExitEdges] has put phi nodes of the
    exit block in between); if the clone is a landing pad, so is every
    predecessor of the successor. *)
Definition exitReady (F : Func) (VMap : ValueMap) (ExitBlock : positive)
  : Prop :=
  exists NewExit ExitSucc,
    exitOf F VMap ExitBlock = Some (NewExit, ExitSucc)
    /\ NewExit <> ExitBlock
    /\ In ExitBlock (predecessors F ExitSucc)
    /\ is_Some (getBlock F ExitSucc)
    /\ (isLandingPadBlock F NewExit ->
        forall BB, In BB (predecessors F ExitSucc) -> isLandingPadBlock F BB)
    /\ forall PN, In PN (phisOf F ExitSucc) ->
         map snd (entriesOf PN) ++ [NewExit] ≡ₚ predecessors F ExitSucc
         /\ forall e, In e (entriesOf PN) ->
              ~ landingPadRef F (fst e)
              /\ ~ landingPadRef F (remapValue VMap (fst e)).

(** No instruction of [F] has the identifier [next] or a later one. *)
Definition fresh (F : Func) (next : positive) : Prop :=
  forall ins, In ins (allInsts F) -> (iid ins < next)%positive.

(** The blocks of the function have distinct names, and so have the exit
    blocks; each exit block is ready, no two share a successor (each was
    split off its own successor), and [next] is fresh. *)
Definition exitsReady (F : Func) (VMap : ValueMap)
    (ExitBlocks : list positive) (next : positive) : Prop :=
  List.NoDup (map bid F)
  /\ List.NoDup ExitBlocks
  /\ fresh F next
  /\ (forall EB, In EB ExitBlocks -> exitReady F VMap EB)
  /\ (forall EB EB' NE NE' S,
        In EB ExitBlocks -> In EB' ExitBlocks ->
        exitOf F VMap EB = Some (NE, S) -> exitOf F VMap EB' = Some (NE', S) ->
        EB = EB').

(** What the loop over the exit blocks is to establish for one exit block:
    every phi node of the successor has one entry per predecessor, and a phi
    node that was there before has its old entries and one more, for the
    clone, carrying the clone of the value coming from the exit block. *)
Definition exitExtended (F F' : Func) (VMap : ValueMap)
    (ExitBlock NewExit ExitSucc : positive) : Prop :=
  (forall PN', In PN' (phisOf F' ExitSucc) ->
     SpecWords.oneEntryPerPredecessor F' ExitSucc PN')
  /\ forall k PN, phisOf F ExitSucc !! k = Some PN ->
       exists PN' v,
         phisOf F' ExitSucc !! k = Some PN'
         /\ iid PN' = iid PN
         /\ getIncomingValueForBlock PN ExitBlock = Some v
         /\ entriesOf PN' = entriesOf PN ++ [(remapValue VMap v, NewExit)].

Definition mapBlock (g : Instruction -> Instruction) (B : BasicBlock)
  : BasicBlock :=
  mkBlock (bid B) (map g (binsts B)).

(** What [addEntriesForNewExit] does to one phi node. *)
Definition withEntryForNewExit (VMap : ValueMap) (ExitBlock NewExit : positive)
    (PN : Instruction) : Instruction :=
  match getIncomingValueForBlock PN ExitBlock with
  | Some v => addIncoming (remapValue VMap v) NewExit PN
  | None => PN
  end.

(** A rewriting of instructions of the kind the unification of landing pads
    performs: identifiers, types and control flow stay; only landing pad
    values are replaced; the phi node named [next] gets entries for the
    blocks [app]. *)
Definition unifies (F : Func) (next : positive) (app : list positive)
    (g : Instruction -> Instruction) : Prop :=
  forall ins, exists (σ : Value -> Value) (es : list (Value * positive)),
    (forall v, ~ landingPadRef F v -> σ v = v)
    /\ iid (g ins) = iid ins
    /\ ity (g ins) = ity ins
    /\ ikind (g ins)
       = match mapOperands σ (ikind ins) with
         | PHINode inc => PHINode (inc ++ es)
         | k => k
         end
    /\ (iid ins <> next -> es = [])
    /\ (iid ins = next -> map snd es = app).

(** The identifiers of the landing pads among the instructions [l]. *)
Definition lpIds (l : list Instruction) (i : positive) : Prop :=
  exists ins, In ins l /\ isLandingPad ins = true /\ iid ins = i.

(** [F'] has the blocks, the control flow and the landing pads of [F]. *)
Definition sameShape (F F' : Func) : Prop :=
  map bid F' = map bid F
  /\ (forall b, successors <$> getBlock F' b = successors <$> getBlock F b)
  /\ (forall T, predecessors F' T = predecessors F T)
  /\ (forall b, isLandingPadBlock F' b <-> isLandingPadBlock F b)
  /\ (forall v, landingPadRef F' v <-> landingPadRef F v).

(** The phi nodes of [S] take no landing pad value, nor the clone of one. *)
Definition cleanPhis (F : Func) (VMap : ValueMap) (S : positive) : Prop :=
  forall PN, In PN (phisOf F S) ->
    forall e, In e (entriesOf PN) ->
      ~ landingPadRef F (fst e) /\ ~ landingPadRef F (remapValue VMap (fst e)).

(** The successors of the exit blocks are outside what has been cloned:
    none is a new block, none has a clone, none is a clone. *)
Definition clonesApart (d : Duplication) : Prop :=
  forall EB NE S,
    In EB (dExitBlocks d) ->
    exitOf (dFn d) (dVMap d) EB = Some (NE, S) ->
    ~ In S (map bid (dNewBBs d))
    /\ vmBlock (dVMap d) !! S = None
    /\ forall b, vmBlock (dVMap d) !! b <> Some S.

End Conditions.

(* ===================================================================== *)
(** * Shapes of the data the passes build *)
(* ===================================================================== *)

Module Shapes.
Import IR Loops Utils Engine.

(** ** Dependency extraction *)

(** The map [d] is the map [deps] with entries added at the end of its
    lists: the same candidates in the same order, what was recorded still
    there, and every new entry with a starting address that satisfies
    [acc]. *)
Definition extendsDeps (acc : Value -> bool) (deps d : LCLICM.DepsMap) : Prop :=
  Forall2
    (fun e e' =>
       fst e' = fst e
       /\ exists new, snd e' = snd e ++ new
                      /\ Forall (fun m : LCLICM.MemLoc => acc (fst m) = true) new)
    deps d.

(** The value is a load through a pointer computed by a GEP. *)
Definition loadsThroughGEP (F : Func) (v : Value) (p : Value) : Prop :=
  exists LI G,
    LCLICM.asLoad F v = Some LI /\ LCLICM.loadPointer LI = Some p
    /\ LCLICM.asGEP F p = Some G.

(** The map a step of the extraction leaves. *)
Definition depsOf (s : LCLICM.Step) : LCLICM.DepsMap :=
  match s with LCLICM.Continue d | LCLICM.ReturnFalse d => d end.

(** ** The induction variable of LASBC *)

Definition isICmp (ins : Instruction) : bool :=
  match ikind ins with ICmpInst _ _ _ => true | _ => false end.

Definition isGEP (ins : Instruction) : bool :=
  match ikind ins with GetElementPtrInst _ _ _ => true | _ => false end.

(** The exit condition: a compare all of whose uses belong to one branch. *)
Definition feedsOneBranch (F : Func) (Cmp : Instruction) : Prop :=
  hasOneUser F (InstRef (iid Cmp)) = true
  /\ exists B, head (users F (InstRef (iid Cmp))) = Some B
               /\ LASBC.isBranchInst B = true.

(** ** What the guard of LoopConditionalLICM computes *)

Definition bit (b : bool) : Z := if b then 1 else 0.

(** The pair can be evaluated on the registers [rg]: its start A and its
    end B are [w]-bit integers with the values [val] gives, computed before
    the instruction [next]. *)
Definition pairReady (F : Func) (inp : Sem.Inputs) (w : N) (val : Value -> Z)
    (rg : gmap positive Z) (next : positive)
    (OCP : LCLICM.OverlapConditionPair) : Prop :=
  getType F (LCLICM.StartA OCP) = Some (IntTy w)
  /\ getType F (LCLICM.EndB OCP) = Some (IntTy w)
  /\ Sem.evalValue inp rg (LCLICM.StartA OCP) = Some (val (LCLICM.StartA OCP))
  /\ Sem.evalValue inp rg (LCLICM.EndB OCP) = Some (val (LCLICM.EndB OCP))
  /\ (forall j, LCLICM.StartA OCP = InstRef j -> (j < next)%positive)
  /\ (forall j, LCLICM.EndB OCP = InstRef j -> (j < next)%positive).

(** Start A lies after end B, as signed [w]-bit integers. *)
Definition startAfterEnd (w : N) (val : Value -> Z)
    (OCP : LCLICM.OverlapConditionPair) : bool :=
  Sem.signed w (val (LCLICM.EndB OCP)) <? Sem.signed w (val (LCLICM.StartA OCP)).

(** The number of pairs [i < j] among [n] entries, [n (n - 1) / 2]. *)
Fixpoint pairCount (n : nat) : nat :=
  match n with
  | O => O
  | S k => (k + pairCount k)%nat
  end.

(** The pairs the guard tests: those among the entries of one promotion
    candidate, for every candidate. *)
Definition pairsTested (deps : LCLICM.DepsMap) : nat :=
  list_sum (map (fun e => pairCount (length (snd e))) deps).

(** ** The clones *)

(** [k] consecutive identifiers, from [n] on. *)
Fixpoint idsFrom (n : positive) (k : nat) : list positive :=
  match k with
  | O => []
  | S k' => n :: idsFrom (Pos.succ n) k'
  end.

(** The names the cloning loop hands out: each new block's, then those of
    its instructions. *)
Definition clonedIds (NewBBs : list BasicBlock) : list positive :=
  flat_map (fun NB => bid NB :: map iid (binsts NB)) NewBBs.

(** [NB] is the clone of the block [b] of [F] under [VMap]: the map sends
    [b] to it and each instruction of [b] to the one at the same place,
    which has the same type and the same kind. *)
Definition cloneOf (F : Func) (VMap : ValueMap) (b : BlockId)
    (NB : BasicBlock) : Prop :=
  vmBlock VMap !! b = Some (bid NB)
  /\ exists B,
       getBlock F b = Some B
       /\ Forall2 (fun i i' => vmInst VMap !! iid i = Some (iid i')
                               /\ ity i' = ity i /\ ikind i' = ikind i)
            (binsts B) (binsts NB).

(** [i] names an instruction of one of the blocks [LoopBBs] of [F]. *)
Definition instOfBlocks (F : Func) (LoopBBs : list BlockId) (i : InstId)
  : Prop :=
  exists b B, In b LoopBBs /\ getBlock F b = Some B
              /\ In i (map iid (binsts B)).

(** The incoming blocks of a phi node. *)
Definition incomingBlocks (k : InstKind) : list BlockId :=
  match k with
  | PHINode inc => map snd inc
  | _ => []
  end.

End Shapes.

(* ===================================================================== *)
(** * Theorems *)
(* ===================================================================== *)

Import IR Loops Utils Engine Cases SpecWords Runs Conditions.

(** ** The guard of LASBC *)

Lemma signed_small (w : N) (z : Z) :
  0 <= z < 2 ^ (Z.of_N w - 1) -> Sem.signed w z = z.
Proof.
  intros [_ H]. unfold Sem.signed.
  destruct (Z.ltb_spec z (2 ^ (Z.of_N w - 1))); lia.
Qed.

Lemma signed_range (w : N) (z : Z) :
  (0 < w)%N -> 0 <= z < 2 ^ Z.of_N w ->
  - 2 ^ (Z.of_N w - 1) <= Sem.signed w z < 2 ^ (Z.of_N w - 1).
Proof.
  intros Hw Hz. unfold Sem.signed.
  assert (E : 2 ^ Z.of_N w = 2 * 2 ^ (Z.of_N w - 1)).
  { rewrite <- Z.pow_succ_r by lia. f_equal. lia. }
  destruct (Z.ltb_spec z (2 ^ (Z.of_N w - 1))); lia.
Qed.

Lemma signed_wrap_exact (w : N) (x : Z) :
  (0 < w)%N ->
  - 2 ^ (Z.of_N w - 1) <= x < 2 ^ (Z.of_N w - 1) ->
  Sem.signed w (Sem.wrap w x) = x.
Proof.
  intros Hw Hx. unfold Sem.signed, Sem.wrap.
  assert (E : 2 ^ Z.of_N w = 2 * 2 ^ (Z.of_N w - 1)).
  { rewrite <- Z.pow_succ_r by lia. f_equal. lia. }
  assert (P : 0 < 2 ^ (Z.of_N w - 1)) by (apply Z.pow_pos_nonneg; lia).
  destruct (Z_lt_le_dec x 0) as [Hneg | Hpos].
  - assert (M : x mod 2 ^ Z.of_N w = x + 2 ^ Z.of_N w).
    { symmetry. apply Z.mod_unique with (q := -1); lia. }
    rewrite M. destruct (Z.ltb_spec (x + 2 ^ Z.of_N w) (2 ^ (Z.of_N w - 1))); lia.
  - rewrite Z.mod_small by lia.
    destruct (Z.ltb_spec x (2 ^ (Z.of_N w - 1))); lia.
Qed.

(** Where the product does not overflow the width of [N], the guard is the
    condition of the specification on the signed value of [N]. *)
Lemma guardValue_without_overflow (w : N) (v : Z) :
  (32 < w)%N -> 0 <= v < 2 ^ Z.of_N w ->
  - 2 ^ (Z.of_N w - 1) <= Sem.signed w v * Z.of_N (w / 8) < 2 ^ (Z.of_N w - 1) ->
  guardValue w v = true <-> boundsOk w (Sem.signed w v).
Proof.
  intros Hw Hv Hno. unfold guardValue, boundsOk, Sem.evalICmp.
  assert (P31 : 2 ^ 31 <= 2 ^ (Z.of_N w - 1)) by (apply Z.pow_le_mono_r; lia).
  assert (V31 : 2 ^ 31 = 2147483648) by reflexivity.
  assert (Pw : 2 ^ (Z.of_N w - 1) < 2 ^ Z.of_N w) by (apply Z.pow_lt_mono_r; lia).
  assert (E8 : 0 <= Z.of_N (w / 8) < 2 ^ Z.of_N w).
  { split; [apply N2Z.is_nonneg |].
    assert (Z.of_N (w / 8) <= Z.of_N w).
    { apply N2Z.inj_le. apply N.Div0.div_le_upper_bound. lia. }
    assert (Z.of_N w < 2 ^ Z.of_N w) by (apply Z.pow_gt_lin_r; lia).
    lia. }
  rewrite (Z.mod_small 0) by lia.
  rewrite (Z.mod_small (Z.of_N (w / 8))) by lia.
  rewrite (Z.mod_small INT32_MAX) by (unfold INT32_MAX; lia).
  rewrite (signed_small w 0) by lia.
  rewrite (signed_small w INT32_MAX) by (unfold INT32_MAX; lia).
  assert (S1 : Sem.signed w (Sem.wrap w (v * Z.of_N (w / 8)))
               = Sem.signed w v * Z.of_N (w / 8)).
  { assert (W : Sem.wrap w (v * Z.of_N (w / 8))
                = Sem.wrap w (Sem.signed w v * Z.of_N (w / 8))).
    { unfold Sem.signed. destruct (Z.ltb_spec v (2 ^ (Z.of_N w - 1))); [done |].
      replace (v * Z.of_N (w / 8))
        with ((v - 2 ^ Z.of_N w) * Z.of_N (w / 8) + Z.of_N (w / 8) * 2 ^ Z.of_N w)
        by ring.
      unfold Sem.wrap. rewrite Z.mod_add by lia. done. }
    rewrite W. apply signed_wrap_exact; [lia | exact Hno]. }
  rewrite S1, andb_true_iff, Z.ltb_lt, Z.leb_le. unfold INT32_MAX. lia.
Qed.

(** The guard on the test function, read from a run: with [n = 100] it is
    true and the loop reached is the one with the widened induction
    variable (block 2, entered through block 100). *)
Example guard_selects_widened_loop_for_100 :
  exists F',
    lasbcTransformed foo = Some F'
    /\ (ikind <$> (getBlock F' 1%positive ≫= getTerminator))
       = Some (CondBr (InstRef 127%positive) 100%positive 104%positive)
    /\ regOf (Sem.run 3 F' fooInputs (fooMem 100)) 127%positive = Some 1
    /\ traceOf (Sem.run 3 F' fooInputs (fooMem 100)) = [1; 100; 2]%positive
    /\ (ity <$> (getBlock F' 2%positive ≫= fun B => head (phis B))) = Some i64.
Proof. eexists. split; [vm_compute; reflexivity |]. vm_compute. done. Qed.

(** C2, at the failing input: for the 64-bit bound [N = 2^61] the product
    [N * 8] wraps around to 0, the guard evaluates true and control reaches
    the widened loop, although [N * 8 > INT32_MAX]. *)
Theorem lasbc_guard_true_on_overflowing_bound :
  exists F',
    lasbcTransformed foo = Some F'
    /\ regOf (Sem.run 3 F' fooInputs (fooMem (2 ^ 61))) 124%positive = Some 0
    /\ regOf (Sem.run 3 F' fooInputs (fooMem (2 ^ 61))) 127%positive = Some 1
    /\ traceOf (Sem.run 3 F' fooInputs (fooMem (2 ^ 61))) = [1; 100; 2]%positive
    /\ guardValue 64 (2 ^ 61) = true
    /\ ~ boundsOk 64 (2 ^ 61).
Proof.
  eexists. split; [vm_compute; reflexivity |].
  repeat split; try (vm_compute; reflexivity).
  unfold boundsOk, INT32_MAX. intros [_ H]. vm_compute in H. apply H. reflexivity.
Qed.

Lemma evalValue_insert_fresh inp rg n k z :
  (forall j, n = InstRef j -> j <> k) ->
  Sem.evalValue inp (<[k := z]> rg) n = Sem.evalValue inp rg n.
Proof.
  intros Hf. destruct n; simpl; try reflexivity.
  apply lookup_insert_ne. intros ->. by apply (Hf i).
Qed.

Lemma execInst_icmp F inp m i ty p a b t x y :
  getType F a = Some t ->
  Sem.evalValue inp (Sem.regs m) a = Some x ->
  Sem.evalValue inp (Sem.regs m) b = Some y ->
  Sem.execInst F inp m (mkInst i ty (ICmpInst p a b))
  = Some (Sem.mkMachine
            (<[i := if Sem.evalICmp p (Sem.widthOf t) x y then 1 else 0]> (Sem.regs m))
            (Sem.mem m) (Sem.trace m)).
Proof. intros Ht Hx Hy. unfold Sem.execInst. cbn. rewrite Ht, Hx. cbn. rewrite Hy. done. Qed.

Lemma execInst_binop F inp m i ty op a b x y :
  Sem.evalValue inp (Sem.regs m) a = Some x ->
  Sem.evalValue inp (Sem.regs m) b = Some y ->
  Sem.execInst F inp m (mkInst i ty (BinaryOperator op a b))
  = Some (Sem.mkMachine
            (<[i := Sem.evalBinOp op (Sem.widthOf ty) x y]> (Sem.regs m))
            (Sem.mem m) (Sem.trace m)).
Proof. intros Hx Hy. unfold Sem.execInst. cbn. rewrite Hx. cbn. rewrite Hy. done. Qed.

Lemma execBody_step F inp m ins rest m' :
  isTerminatorKind (ikind ins) = false ->
  Sem.execInst F inp m ins = Some m' ->
  Sem.execBody F inp m (ins :: rest) = Sem.execBody F inp m' rest.
Proof. intros Hk He. cbn. rewrite Hk, He. done. Qed.

(** The five instructions the guard is made of, followed by the new
    terminator, branch to [TrueDest] exactly when [guardValue] holds of the
    value of [N]. *)
Lemma guard_instructions_compute_guardValue
    (F : Func) (inp : Sem.Inputs) (m : Sem.Machine) (n : Value) (w : N) (v : Z)
    (next TrueDest FalseDest : positive) :
  getType F n = Some (IntTy w) ->
  Sem.evalValue inp (Sem.regs m) n = Some v ->
  (forall j, n = InstRef j -> (j < next)%positive) ->
  getType F (InstRef (Pos.succ next)) = Some (IntTy w) ->
  is_Some (getType F (InstRef (Pos.succ (Pos.succ (Pos.succ next))))) ->
  exists m',
    Sem.execBody F inp m
      (LASBC.guardInsts (IntTy w) n next
       ++ [mkInst (Pos.succ (Pos.succ (Pos.succ (Pos.succ (Pos.succ next))))) VoidTy
             (CondBr (InstRef (Pos.succ (Pos.succ (Pos.succ (Pos.succ next)))))
                TrueDest FalseDest)])
    = Some (m', Sem.Goto (if guardValue w v then TrueDest else FalseDest)).
Proof.
  intros Hty Hv Hfresh Hmul [tand Hand].
  assert (Hn : forall k z rg, (next <= k)%positive ->
            Sem.evalValue inp (<[k := z]> rg) n = Sem.evalValue inp rg n).
  { intros k z rg Hk. apply evalValue_insert_fresh.
    intros j ->. specialize (Hfresh j eq_refl). lia. }
  unfold LASBC.guardInsts, guardValue.
  cbn [app].
  erewrite execBody_step; [| done | eapply execInst_icmp; [exact Hty | exact Hv | reflexivity]].
  erewrite execBody_step; [| done |
    apply execInst_binop; [cbn [Sem.regs]; rewrite Hn by lia; exact Hv | reflexivity]].
  erewrite execBody_step; [| done |
    eapply execInst_icmp; [exact Hmul | cbn; apply lookup_insert_eq | reflexivity]].
  erewrite execBody_step; [| done |
    apply execInst_binop; cbn;
      [rewrite lookup_insert_ne by lia; rewrite lookup_insert_ne by lia;
       apply lookup_insert_eq
      | apply lookup_insert_eq]].
  erewrite execBody_step; [| done |
    eapply execInst_icmp; [exact Hand | cbn; apply lookup_insert_eq | reflexivity]].
  cbn. rewrite lookup_insert_eq. cbn.
  eexists. f_equal. f_equal. f_equal.
  unfold Sem.evalICmp, ConstantInt_get. cbn [Sem.widthOf].
  destruct (_ <? _), (_ <=? _); reflexivity.
Qed.

(** ** Runs of the passes on the test functions *)

(** On the regression test itself ([start = 0], [n = 7]) the transformed
    function and the original agree. *)
Example lasbc_test_agrees :
  exists F',
    lasbcTransformed foo = Some F'
    /\ Sem.observable (Sem.run 40 F' fooInputs (fooMem 7))
       = Sem.observable (Sem.run 40 foo fooInputs (fooMem 7))
    /\ is_Some (Sem.observable (Sem.run 40 foo fooInputs (fooMem 7))).
Proof. eexists. split; [vm_compute; reflexivity |]. vm_compute. eauto. Qed.

(** C1, at the failing input: in [fooFrom5] the induction variable starts
    at 5.  LASBC accepts the loop; with [n = 7] the guard is true (block 100
    is entered); the original function writes [a[5]] and [a[6]] only, the
    transformed one starts its wide induction variable at 0 and writes
    [a[0]] to [a[6]]. *)
Theorem lasbc_widened_loop_restarts_at_zero :
  exists F' m m',
    lasbcTransformed fooFrom5 = Some F'
    /\ Sem.observable (Sem.run 40 fooFrom5 fooInputs (fooMem 7)) = Some (None, m)
    /\ Sem.observable (Sem.run 40 F' fooInputs (fooMem 7)) = Some (None, m')
    /\ traceOf (Sem.run 3 F' fooInputs (fooMem 7)) = [1; 100; 2]%positive
    /\ regOf (Sem.run 3 F' fooInputs (fooMem 7)) 127%positive = Some 1
    /\ m !! 4000 = None /\ m' !! 4000 = Some 3
    /\ m !! 4040 = Some 18 /\ m' !! 4040 = Some 18
    /\ m <> m'.
Proof.
  eexists _, _, _.
  split; [vm_compute; reflexivity |].
  split; [vm_compute; reflexivity |].
  split; [vm_compute; reflexivity |].
  assert (forall a b : gmap Z Z, a !! 4000 = None -> b !! 4000 = Some 3 -> a <> b)
    as Hne by (intros a b Ha Hb ->; congruence).
  repeat split; try (vm_compute; reflexivity).
  apply Hne; vm_compute; reflexivity.
Qed.

(** C3, at the failing input: the test function with [a] at 1000 and [b] at
    100000.  The emitted code computes start and end of both ranges
    ([1000, 1800] and [100000, 41060000]); they do not overlap, yet the guard
    (the 'or' of the two compares, which are the same test
    [start_A > end_B]) is false and the branch takes its false successor. *)
Theorem lclicm_guard_false_on_disjoint_ranges :
  exists F',
    lclicmTransformed fnTest = Some F'
    /\ (ikind <$> getInst F' 128%positive)
       = Some (ICmpInst ICMP_SGT (InstRef 123%positive) (InstRef 125%positive))
    /\ (ikind <$> getInst F' 129%positive)
       = Some (ICmpInst ICMP_SLT (InstRef 125%positive) (InstRef 123%positive))
    /\ (ikind <$> (getBlock F' 4%positive ≫= getTerminator))
       = Some (CondBr (InstRef 130%positive) 100%positive 104%positive)
    /\ let o := Sem.run 4 F' (fnInputs 100000) (fnMem 1000) in
       regOf o 123%positive = Some 1000 /\ regOf o 121%positive = Some 1800
       /\ regOf o 127%positive = Some 100000 /\ regOf o 125%positive = Some 41060000
       /\ rangesDisjoint 1000 800 100000 40960000
       /\ nonOverlap 1000 1800 100000 41060000 = true
       /\ regOf o 130%positive = Some 0
       /\ traceOf o = [1; 2; 4; 104]%positive.
Proof.
  eexists. split; [vm_compute; reflexivity |].
  repeat split; try (vm_compute; reflexivity).
  unfold rangesDisjoint. lia.
Qed.

(** C6, counterexample: LASBC accepts the loop of [fooTwoExits], which has
    two exiting blocks and two exit blocks. *)
Lemma lasbc_accepts_loop_with_two_exits :
  (fst <$> LASBC.isCurrentLoopACandidate (lasbcState fooTwoExits)) = Some true
  /\ getExitingBlocks fooTwoExits fooLoop = [2; 3]%positive
  /\ getExitingBlock fooTwoExits fooLoop = None
  /\ getExitBlocks fooTwoExits fooLoop = [4; 5]%positive
  /\ getExitBlock fooTwoExits fooLoop = None
  /\ ~ ((fst <$> LASBC.isCurrentLoopACandidate (lasbcState fooTwoExits)) = Some true ->
        is_Some (getExitingBlock fooTwoExits fooLoop)
        /\ is_Some (getExitBlock fooTwoExits fooLoop)).
Proof.
  repeat split; try (vm_compute; reflexivity).
  intros H. destruct H as [[x Hx] _]; [vm_compute; reflexivity |].
  vm_compute in Hx. discriminate.
Qed.

(** C7, counterexample: with the constant 100, or the first argument, as
    the bound, every other condition on the induction variable holds (the
    shape is found, the branch controls the loop), and LASBC rejects the
    phi node; with the load in the preheader as the bound it accepts it. *)
Lemma lasbc_rejects_constant_and_argument_bound :
  let PN := mkInst 12 i32 (PHINode [(c32 0, 1%positive); (InstRef 21, 3%positive)]) in
  let shapeOk F :=
    exists It C Z Cmp,
      LASBC.ivShape F fooLoop PN = Some (Some (It, C, Z, Cmp))
      /\ LASBC.branchControlsLoop F fooLoop Cmp = Some true in
  (shapeOk fooConstBound
   /\ (fst <$> LASBC.isPHIAnAppropriateIV (lasbcState fooConstBound) PN) = Some false)
  /\ (shapeOk fooArgBound
      /\ (fst <$> LASBC.isPHIAnAppropriateIV (lasbcState fooArgBound) PN) = Some false)
  /\ (shapeOk foo
      /\ (fst <$> LASBC.isPHIAnAppropriateIV (lasbcState foo) PN) = Some true).
Proof.
  cbv zeta.
  repeat split;
    try (eexists _, _, _, _; split; vm_compute; reflexivity);
    vm_compute; reflexivity.
Qed.

(** C8, at the failing input: the inner loop of [fnResetInLoop] stores the
    constant 0 to the promotion candidate [%6].  Dependency extraction skips
    that store, reports success on what the other store yields, and
    [runOnLoop] duplicates the loop and returns true. *)
Theorem lclicm_skips_store_of_non_binary_operator :
  let store0 := mkInst 31 VoidTy (StoreInst (c64 0) (InstRef 16)) in
  In store0 (LCLICM.memoryAccesses fnResetInLoop fnInner)
  /\ LCLICM.collectPromotionCandidates (fnAnalyses true) fnResetInLoop fnInner
     = [[InstRef 16]]
  /\ LCLICM.populatePromotionPtrDeps (fnAnalyses true) fnResetInLoop fnInner 4
       [(InstRef 16, [])]
     = Some (true, [(InstRef 16, [(InstRef 15, 100); (gArrB, 6400)])])
  /\ exists p',
       LCLICM.runOnLoop (fnAnalyses true) (passOn fnResetInLoop fnLI) 2
       = Some (true, p')
       /\ passDuplicated p' = Some 120%positive
       /\ length (passFn p') = (length fnResetInLoop + 5)%nat.
Proof.
  cbv zeta. split; [vm_compute; tauto |].
  split; [vm_compute; reflexivity |].
  split; [vm_compute; reflexivity |].
  eexists. split; [vm_compute; reflexivity |].
  split; vm_compute; reflexivity.
Qed.

(** C10: without an induction variable from ScalarEvolution the loop is
    not a candidate, whatever else holds of it. *)
Theorem lclicm_rejects_without_induction_variable
    (an : LCLICM.Analyses) (st : PassState LCLICM.Fields) (L : Loop) :
  li st !! CurrentLoop st = Some L ->
  LCLICM.getInductionVariable an (fn st) L = None ->
  LCLICM.isCurrentLoopACandidate an st = Some (false, st).
Proof.
  intros HL HIV. unfold LCLICM.isCurrentLoopACandidate.
  rewrite HL. cbn. rewrite HIV.
  destruct (isLoopSimplifyForm (fn st) L); reflexivity.
Qed.

(** The inner loop of the test is in loop-simplify form, safe to clone,
    has one exiting block, one exit block and no sub-loops; it is accepted
    with an induction variable and rejected without. *)
Lemma lclicm_rejects_without_induction_variable_witness :
  isLoopSimplifyForm fnTest fnInner = true
  /\ isSafeToClone fnTest fnInner = true
  /\ getExitingBlock fnTest fnInner = Some 9%positive
  /\ getExitBlock fnTest fnInner = Some 7%positive
  /\ getSubLoops fnInner = []
  /\ (fst <$> LCLICM.isCurrentLoopACandidate (fnAnalyses true) (lclicmState fnTest []))
     = Some true
  /\ LCLICM.isCurrentLoopACandidate (fnAnalyses false) (lclicmState fnTest [])
     = Some (false, lclicmState fnTest []).
Proof.
  do 6 (split; [vm_compute; reflexivity |]).
  apply (lclicm_rejects_without_induction_variable
           (fnAnalyses false) (lclicmState fnTest []) fnInner);
    vm_compute; reflexivity.
Defined.

(** ** Candidates of LASBC *)

Lemma memb_true_iff (b : positive) (l : list positive) :
  memb b l = true <-> In b l.
Proof.
  unfold memb. rewrite existsb_exists. split.
  - intros [x [Hx He]]. apply Pos.eqb_eq in He. by subst.
  - intros H. exists b. split; [done | apply Pos.eqb_refl].
Qed.

(** The preheader is not a block of the loop. *)
Lemma getLoopPreheader_outside (F : Func) (L : Loop) (b : positive) :
  getLoopPreheader F L = Some b -> contains L b = false.
Proof.
  unfold getLoopPreheader, getLoopPredecessor.
  destruct (getHeader L) as [h |]; [| discriminate]. cbn.
  destruct (List.filter _ _) as [| p rest] eqn:E; [discriminate |].
  destruct (forallb _ rest); [| discriminate]. cbn.
  assert (Hp : In p (List.filter (fun p => negb (contains L p)) (predecessors F h)))
    by (rewrite E; left; reflexivity).
  apply filter_In in Hp as [_ Hp].
  destruct (getBlock F p); [| discriminate]. cbn.
  destruct (successors b0) as [| ? [| ? ?]]; try discriminate.
  intros [= <-]. by apply negb_true_iff.
Qed.

Lemma nIsInPreheader_spec (F : Func) (L : Loop) (n : Value) :
  LASBC.nIsInPreheader F L n = true
  <-> exists i b, n = InstRef i /\ getParent F i = Some b
                  /\ getLoopPreheader F L = Some b.
Proof.
  unfold LASBC.nIsInPreheader. split.
  - destruct n; try discriminate.
    rewrite andb_true_iff, bool_decide_eq_true.
    intros [_ [He [b Hb]]]. exists i, b. rewrite He. done.
  - intros (i & b & -> & Hp & Hpre).
    rewrite andb_true_iff, bool_decide_eq_true. split; [| split].
    + unfold isLoopInvariant. rewrite Hp.
      by rewrite (getLoopPreheader_outside F L b Hpre).
    + congruence.
    + by exists b.
Qed.

(** C7, as amended: the shape of the induction variable being found and
    the branch controlling the loop, the phi node is accepted exactly when
    the captured bound N is an instruction of the preheader block. *)
Theorem lasbc_iv_accepted_iff_bound_in_preheader
    (st : PassState LASBC.Fields) (L : Loop) (PN IterValue ZExt Compare : Instruction)
    (C n : Value) :
  li st !! CurrentLoop st = Some L ->
  LASBC.ivShape (fn st) L PN = Some (Some (IterValue, C, ZExt, Compare)) ->
  LASBC.captureN Compare ZExt = Some n ->
  LASBC.branchControlsLoop (fn st) L Compare = Some true ->
  (fst <$> LASBC.isPHIAnAppropriateIV st PN) = Some true
  <-> exists i b, n = InstRef i /\ getParent (fn st) i = Some b
                  /\ getLoopPreheader (fn st) L = Some b.
Proof.
  intros HL Hshape Hn Hbr.
  rewrite <- nIsInPreheader_spec.
  unfold LASBC.isPHIAnAppropriateIV. rewrite HL. cbn. rewrite Hshape. cbn.
  rewrite Hn. cbn.
  destruct (LASBC.nIsInPreheader (fn st) L n); cbn.
  - rewrite Hbr. cbn. done.
  - split; discriminate.
Qed.

Lemma lasbc_iv_accepted_iff_bound_in_preheader_witness :
  (fst <$> LASBC.isPHIAnAppropriateIV (lasbcState foo)
             (mkInst 12 i32 (PHINode [(c32 0, 1%positive); (InstRef 21, 3%positive)])))
  = Some true.
Proof.
  apply (lasbc_iv_accepted_iff_bound_in_preheader (lasbcState foo) fooLoop
           (mkInst 12 i32 (PHINode [(c32 0, 1%positive); (InstRef 21, 3%positive)]))
           (mkInst 21 i32 (BinaryOperator Add (InstRef 12) (c32 1)))
           (mkInst 13 i64 (ZExtInst (InstRef 12)))
           (mkInst 14 i1 (ICmpInst ICMP_SGT (InstRef 10) (InstRef 13)))
           (c32 1) (InstRef 10));
    try (vm_compute; reflexivity).
  exists 10%positive, 1%positive. repeat split; vm_compute; reflexivity.
Defined.

Lemma isPHIAnAppropriateIV_frame (st st' : PassState LASBC.Fields)
    (PN : Instruction) (ok : bool) :
  LASBC.isPHIAnAppropriateIV st PN = Some (ok, st') ->
  fn st' = fn st /\ li st' = li st /\ CurrentLoop st' = CurrentLoop st
  /\ Header st' = Header st.
Proof.
  unfold LASBC.isPHIAnAppropriateIV.
  destruct (li st !! CurrentLoop st); [| discriminate]. cbn.
  destruct (LASBC.ivShape _ _ _) as [[[[[It C] Z] Cmp] |] |]; cbn;
    [| intros [= _ <-]; done | discriminate].
  destruct (LASBC.captureN _ _); cbn; [| discriminate].
  destruct (LASBC.nIsInPreheader _ _ _); cbn; [| intros [= _ <-]; done].
  destruct (LASBC.branchControlsLoop _ _ _) as [[|] |]; cbn;
    [intros [= _ <-] | intros [= _ <-] | discriminate]; done.
Qed.

Lemma isPHIAnAppropriateIV_true (st st' : PassState LASBC.Fields)
    (PN : Instruction) :
  LASBC.isPHIAnAppropriateIV st PN = Some (true, st') ->
  exists L n i b,
    li st !! CurrentLoop st = Some L
    /\ LASBC.IV (priv st') = Some PN /\ LASBC.N (priv st') = Some n
    /\ n = InstRef i /\ getParent (fn st) i = Some b
    /\ getLoopPreheader (fn st) L = Some b.
Proof.
  unfold LASBC.isPHIAnAppropriateIV.
  destruct (li st !! CurrentLoop st) as [L |]; [| discriminate]. cbn.
  destruct (LASBC.ivShape _ _ _) as [[[[[It C] Z] Cmp] |] |]; cbn;
    [| discriminate | discriminate].
  destruct (LASBC.captureN _ _) as [n |]; cbn; [| discriminate].
  destruct (LASBC.nIsInPreheader _ _ _) eqn:EN; cbn; [| discriminate].
  destruct (LASBC.branchControlsLoop _ _ _) as [[|] |]; cbn;
    [| discriminate | discriminate].
  intros [= <-]. apply nIsInPreheader_spec in EN as (i & b & -> & Hp & Hpre).
  exists L, (InstRef i), i, b. done.
Qed.

(** C6, as amended: a loop LASBC accepts has a preheader and, among the
    phi nodes of its header, the induction variable the pass records, whose
    bound N is an instruction of that preheader. *)
Theorem lasbc_candidate_has_preheader_and_iv
    (st st' : PassState LASBC.Fields) :
  LASBC.isCurrentLoopACandidate st = Some (true, st') ->
  exists L H PN n i b,
    li st !! CurrentLoop st = Some L
    /\ getBlock (fn st) (Header st) = Some H /\ In PN (phis H)
    /\ LASBC.IV (priv st') = Some PN /\ LASBC.N (priv st') = Some n
    /\ n = InstRef i /\ getParent (fn st) i = Some b
    /\ getLoopPreheader (fn st) L = Some b.
Proof.
  unfold LASBC.isCurrentLoopACandidate.
  destruct (getBlock (fn st) (Header st)) as [H |] eqn:EH; [| discriminate]. cbn.
  assert (G : forall PNs s,
             fn s = fn st -> li s = li st -> CurrentLoop s = CurrentLoop st ->
             LASBC.firstAppropriateIV s PNs = Some (true, st') ->
             exists L PN n i b,
               li st !! CurrentLoop st = Some L /\ In PN PNs
               /\ LASBC.IV (priv st') = Some PN /\ LASBC.N (priv st') = Some n
               /\ n = InstRef i /\ getParent (fn st) i = Some b
               /\ getLoopPreheader (fn st) L = Some b).
  { induction PNs as [| PN PNs IH]; intros s Hf Hl Hc; cbn; [discriminate |].
    destruct (LASBC.isPHIAnAppropriateIV s PN) as [[ok s'] |] eqn:E; cbn;
      [| discriminate].
    destruct ok.
    - intros [= <-].
      apply isPHIAnAppropriateIV_true in E as (L & n & i & b & HL & HIV & HN & -> & Hp & Hpre).
      rewrite Hf in Hp, Hpre. rewrite Hl, Hc in HL.
      exists L, PN, (InstRef i), i, b. repeat split; first [done | by left].
    - intros Hrest.
      apply isPHIAnAppropriateIV_frame in E as (Hf' & Hl' & Hc' & _).
      destruct (IH s' ltac:(congruence) ltac:(congruence) ltac:(congruence) Hrest)
        as (L & PN' & n & i & b & ? & ? & ?).
      exists L, PN', n, i, b. repeat split; first [tauto | by right]. }
  intros Hfirst.
  destruct (G (phis H) st eq_refl eq_refl eq_refl Hfirst)
    as (L & PN & n & i & b & ? & ? & ?).
  exists L, H, PN, n, i, b. tauto.
Qed.

Lemma lasbc_candidate_has_preheader_and_iv_witness :
  exists st',
    LASBC.isCurrentLoopACandidate (lasbcState fooTwoExits) = Some (true, st')
    /\ exists L H PN n i b,
         li (lasbcState fooTwoExits) !! CurrentLoop (lasbcState fooTwoExits) = Some L
         /\ getBlock (fn (lasbcState fooTwoExits)) (Header (lasbcState fooTwoExits))
            = Some H
         /\ In PN (phis H)
         /\ LASBC.IV (priv st') = Some PN /\ LASBC.N (priv st') = Some n
         /\ n = InstRef i /\ getParent (fn (lasbcState fooTwoExits)) i = Some b
         /\ getLoopPreheader (fn (lasbcState fooTwoExits)) L = Some b.
Proof.
  eexists. split; [vm_compute; reflexivity |].
  apply (lasbc_candidate_has_preheader_and_iv (lasbcState fooTwoExits)).
  vm_compute; reflexivity.
Defined.

(** ** Dependency extraction and the guard of LoopConditionalLICM *)

Lemma Ty_eqb_refl (t : Ty) : Ty_eqb t t = true.
Proof.
  induction t; cbn; try done.
  - apply N.eqb_refl.
  - by rewrite N.eqb_refl.
Qed.

Lemma Value_eqb_refl (v : Value) : Value_eqb v v = true.
Proof.
  destruct v; cbn; rewrite ?Ty_eqb_refl, ?Z.eqb_refl, ?Pos.eqb_refl; done.
Qed.

(** Two pushes for one candidate keep every list of even length. *)
Lemma pushDep_twice_even (P : Value) (d1 d2 : LCLICM.MemLoc)
    (deps : LCLICM.DepsMap) :
  evenLists deps ->
  evenLists (LCLICM.pushDep P d2 (LCLICM.pushDep P d1 deps)).
Proof.
  unfold evenLists. induction deps as [| [K l] rest IH]; intros H; cbn.
  - rewrite Value_eqb_refl. constructor; [| constructor]. by exists 1%nat.
  - inversion H as [| ? ? Hl Hrest]; subst.
    destruct (Value_eqb K P) eqn:E; cbn; rewrite E.
    + constructor; [| done]. cbn in *. rewrite !length_app. cbn.
      destruct Hl as [k Hk]. exists (S k). lia.
    + constructor; [done | by apply IH].
Qed.

Section Extraction.
Variable an : LCLICM.Analyses.

Lemma checkOperands_step (F : Func) (L : Loop) (Pre : positive)
    (P Op : Value) (rest : list Value) (deps d : LCLICM.DepsMap) (saw saw' : bool) :
  LCLICM.checkOperands an F L Pre P (Op :: rest) saw deps
  = Some (LCLICM.Continue d, saw') ->
  exists d1 saw1,
    LCLICM.checkOperands an F L Pre P rest saw1 (LCLICM.pushDep P d1 deps)
    = Some (LCLICM.Continue d, saw').
Proof.
  cbn -[LCLICM.walkGEPChain].
  destruct (LCLICM.asLoad F Op) as [LIa |]; [| discriminate].
  destruct (LCLICM.loadPointer LIa) as [pa |]; cbn -[LCLICM.walkGEPChain];
    [| discriminate].
  destruct (LCLICM.asGEP F pa) as [Ga |]; [| discriminate].
  destruct (LCLICM.walkGEPChain an _ F _ Ga None) as [[sa oa] |];
    cbn -[LCLICM.walkGEPChain]; [| discriminate].
  destruct (LCLICM.isAccessibleInPreheader an F Pre sa); cbn; [| discriminate].
  eauto.
Qed.

Lemma checkOperands_continue (F : Func) (L : Loop) (Pre : positive)
    (P a b : Value) (deps d : LCLICM.DepsMap) (saw : bool) :
  LCLICM.checkOperands an F L Pre P [a; b] false deps = Some (LCLICM.Continue d, saw) ->
  exists d1 d2, d = LCLICM.pushDep P d2 (LCLICM.pushDep P d1 deps).
Proof.
  intros H.
  apply checkOperands_step in H as (d1 & s1 & H).
  apply checkOperands_step in H as (d2 & s2 & H).
  cbn in H. injection H as <- _. eauto.
Qed.

Lemma visitAccess_even (F : Func) (L : Loop) (Pre : positive)
    (ins : Instruction) (deps d : LCLICM.DepsMap) :
  LCLICM.visitAccess an F L Pre ins deps = Some (LCLICM.Continue d) ->
  evenLists deps -> evenLists d.
Proof.
  unfold LCLICM.visitAccess. intros H He.
  destruct (ikind ins); try (injection H as <-; done).
  destruct (negb (LCLICM.hasKey ptr deps)); [injection H as <-; done |].
  destruct val; try (injection H as <-; done).
  destruct (ikind <$> getInst F i) as [[] |]; try (injection H as <-; done).
  destruct (LCLICM.checkOperands _ _ _ _ _ _ _ _) as [[s saw] |] eqn:E;
    cbn in H; [| discriminate].
  destruct s; [| discriminate].
  destruct (negb saw); [discriminate |]. injection H as <-.
  apply checkOperands_continue in E as (d1 & d2 & ->).
  by apply pushDep_twice_even.
Qed.

Lemma visitAccesses_even (F : Func) (L : Loop) (Pre : positive)
    (accs : list Instruction) (deps d : LCLICM.DepsMap) :
  LCLICM.visitAccesses an F L Pre accs deps = Some (LCLICM.Continue d) ->
  evenLists deps -> evenLists d.
Proof.
  revert deps. induction accs as [| ins rest IH]; intros deps; cbn.
  - intros [= <-]. done.
  - destruct (LCLICM.visitAccess an F L Pre ins deps) as [[d' | d'] |] eqn:E;
      cbn; [| discriminate | discriminate].
    intros H He. apply (IH d' H). by apply (visitAccess_even F L Pre ins deps).
Qed.

(** When extraction reports success, every list is of even length and one
    of them is not empty. *)
Lemma populate_true_even (F : Func) (L : Loop) (Pre : positive)
    (deps0 deps : LCLICM.DepsMap) :
  allEmpty deps0 ->
  LCLICM.populatePromotionPtrDeps an F L Pre deps0 = Some (true, deps) ->
  evenLists deps /\ Exists (fun e => snd e <> []) deps.
Proof.
  unfold LCLICM.populatePromotionPtrDeps. intros H0.
  destruct (LCLICM.visitAccesses _ _ _ _ _ _) as [[d | d] |] eqn:E; cbn;
    [| discriminate | discriminate].
  intros [= Hex <-]. split.
  - apply (visitAccesses_even _ _ _ _ _ _ E).
    unfold allEmpty, evenLists in *. eapply Forall_impl; [exact H0 |].
    intros e ->. by exists 0%nat.
  - apply existsb_exists in Hex as [e [Hin Hne]].
    apply List.Exists_exists. exists e. split; [done |].
    destruct (snd e); [discriminate | done].
Qed.

End Extraction.

Lemma GetStartAndEnd_defined (F : Func) (d : LCLICM.MemLoc) (n : positive) :
  (exists t, getType F (fst d) = Some t /\ isPointerTy t = true) ->
  is_Some (LCLICM.GetStartAndEnd F d n).
Proof.
  intros (t & Ht & Hp). unfold LCLICM.GetStartAndEnd. rewrite Ht. cbn.
  destruct t; try discriminate; cbn; eauto.
Qed.

Lemma pairsWith_defined (F : Func) (A : Value * Value)
    (rest : list LCLICM.MemLoc) (n : positive) :
  Forall (fun d => exists t, getType F (fst d) = Some t /\ isPointerTy t = true) rest ->
  exists ps insts n',
    LCLICM.pairsWith F A rest n = Some (ps, insts, n') /\ length ps = length rest.
Proof.
  revert n. induction rest as [| d rest IH]; intros n H; cbn; [eauto |].
  inversion H as [| ? ? Hd Hrest]; subst.
  destruct (GetStartAndEnd_defined F d n Hd) as [[[[sb eb] i1] n1] E].
  rewrite E. cbn.
  destruct (IH n1 Hrest) as (ps & insts & n' & E' & Hlen).
  rewrite E'. cbn. do 3 eexists. split; [done |]. cbn. by rewrite Hlen.
Qed.

Lemma pairsOfList_unfold (F : Func) (d d' : LCLICM.MemLoc)
    (rest : list LCLICM.MemLoc) (n : positive) :
  LCLICM.pairsOfList F (d :: d' :: rest) n
  = ('(StartA_, EndA_, insts, n1) ← LCLICM.GetStartAndEnd F d n;
     '(ps, insts', n2) ← LCLICM.pairsWith F (StartA_, EndA_) (d' :: rest) n1;
     '(ps', insts'', n3) ← LCLICM.pairsOfList F (d' :: rest) n2;
     Some (ps ++ ps', insts ++ insts' ++ insts'', n3)).
Proof. reflexivity. Qed.

Lemma pairsOfList_defined (F : Func) (l : list LCLICM.MemLoc) (n : positive) :
  Forall (fun d => exists t, getType F (fst d) = Some t /\ isPointerTy t = true) l ->
  exists ps insts n',
    LCLICM.pairsOfList F l n = Some (ps, insts, n')
    /\ ((2 <= length l)%nat -> ps <> []).
Proof.
  revert n. induction l as [| d [| d' rest] IH]; intros n H.
  - cbn. do 3 eexists. split; [done |]. cbn. lia.
  - cbn. do 3 eexists. split; [done |]. cbn. lia.
  - inversion H as [| ? ? Hd Hrest]; subst.
    rewrite pairsOfList_unfold.
    destruct (GetStartAndEnd_defined F d n Hd) as [[[[sa ea] i1] n1] E].
    rewrite E. cbn [mbind option_bind].
    destruct (pairsWith_defined F (sa, ea) (d' :: rest) n1 Hrest)
      as (ps & insts & n2 & E2 & Hlen).
    rewrite E2. cbn [mbind option_bind].
    destruct (IH n2 Hrest) as (ps' & insts' & n3 & E3 & _).
    rewrite E3. cbn [mbind option_bind].
    do 3 eexists. split; [done |]. intros _.
    destruct ps; [cbn in Hlen; lia | done].
Qed.

Lemma pairsOfMap_defined (F : Func) (deps : LCLICM.DepsMap) (n : positive) :
  pointerTyped F deps ->
  exists ps insts n',
    LCLICM.pairsOfMap F deps n = Some (ps, insts, n')
    /\ (Exists (fun e => (2 <= length (snd e))%nat) deps -> ps <> []).
Proof.
  unfold pointerTyped. revert n.
  induction deps as [| e rest IH]; intros n H.
  - cbn. do 3 eexists. split; [done |]. intros Hex. inversion Hex.
  - inversion H as [| ? ? He Hrest]; subst. cbn [LCLICM.pairsOfMap].
    destruct (pairsOfList_defined F (snd e) n He) as (ps & insts & n1 & E & Hne).
    rewrite E. cbn [mbind option_bind].
    destruct (IH n1 Hrest) as (ps' & insts' & n2 & E' & Hne').
    rewrite E'. cbn [mbind option_bind].
    do 3 eexists. split; [done |]. intros Hex.
    inversion Hex as [? ? Hhd | ? ? Htl]; subst.
    + specialize (Hne Hhd). destruct ps; done.
    + specialize (Hne' Htl). destruct ps; [done | done].
Qed.

Lemma emitOrs_length (OCPs : list LCLICM.OverlapConditionPair) (n : positive) :
  length (fst (fst (LCLICM.emitOrs OCPs n))) = length OCPs.
Proof.
  revert n. induction OCPs as [| o rest IH]; intros n; cbn; [done |].
  specialize (IH (Pos.succ (Pos.succ (Pos.succ n)))).
  destruct (LCLICM.emitOrs rest _) as [[ors insts] n']. cbn in *. by rewrite IH.
Qed.

Lemma emitFinalCond_defined (Ors : list Value) (n : positive) :
  Ors <> [] -> is_Some (LCLICM.emitFinalCond Ors n).
Proof.
  destruct Ors as [| o0 [| o1 rest]]; [done | by eexists |].
  intros _. unfold LCLICM.emitFinalCond. cbn.
  destruct (LCLICM.emitAnds _ _ _) as [[c insts] n']. by eexists.
Qed.

(** C9: when dependency extraction, started on empty lists, returns true,
    every recorded list that is not empty has at least two entries; so, the
    starting addresses being pointers, the pairs and the 'or's are not empty,
    [Ors[0]] and [Ors[1]] are read within bounds, and
    [emitPreheaderBranch] produces its branch. *)
Theorem lclicm_final_condition_defined
    (an : LCLICM.Analyses) (F : Func) (L : Loop) (Pre : positive)
    (deps0 deps : LCLICM.DepsMap) (st : PassState LCLICM.Fields)
    (TrueDest FalseDest d0 : positive) (OldBranch : Instruction) :
  allEmpty deps0 ->
  LCLICM.populatePromotionPtrDeps an F L Pre deps0 = Some (true, deps) ->
  LCLICM.PromotionPtrDeps (priv st) = deps ->
  pointerTyped (fn st) deps ->
  ikind OldBranch = Br d0 ->
  TrueDest <> FalseDest ->
  Forall (fun e => snd e <> [] -> (2 <= length (snd e))%nat) deps
  /\ (exists OCPs insts n1,
        LCLICM.pairsOfMap (fn st) deps (nextId st) = Some (OCPs, insts, n1)
        /\ OCPs <> []
        /\ fst (fst (LCLICM.emitOrs OCPs n1)) <> []
        /\ is_Some (LCLICM.emitFinalCond (fst (fst (LCLICM.emitOrs OCPs n1)))
                      (snd (LCLICM.emitOrs OCPs n1))))
  /\ is_Some (LCLICM.emitPreheaderBranch st TrueDest FalseDest OldBranch).
Proof.
  intros H0 Hpop Hdeps Hty Hbr Hne.
  destruct (populate_true_even an F L Pre deps0 deps H0 Hpop) as [Heven Hex].
  assert (Hge : Forall (fun e : Value * list LCLICM.MemLoc =>
                          snd e <> [] -> (2 <= length (snd e))%nat) deps).
  { eapply Forall_impl; [exact Heven |]. intros e [k Hk] Hnil.
    destruct (snd e) as [| x [| y l]]; cbn in *; [done | lia | lia]. }
  assert (Hex2 : Exists (fun e : Value * list LCLICM.MemLoc =>
                           (2 <= length (snd e))%nat) deps).
  { apply List.Exists_exists in Hex as [e [Hin Hnil]].
    apply List.Exists_exists. exists e. split; [done |].
    rewrite List.Forall_forall in Hge. by apply Hge. }
  destruct (pairsOfMap_defined (fn st) deps (nextId st) Hty)
    as (OCPs & insts & n1 & E & Hps).
  specialize (Hps Hex2).
  assert (Hors : fst (fst (LCLICM.emitOrs OCPs n1)) <> []).
  { intros Hnil. apply (f_equal length) in Hnil.
    rewrite emitOrs_length in Hnil. destruct OCPs; [done | discriminate]. }
  pose proof (emitFinalCond_defined _ (snd (LCLICM.emitOrs OCPs n1)) Hors) as Hfc.
  split; [exact Hge |]. split.
  - exists OCPs, insts, n1. done.
  - unfold LCLICM.emitPreheaderBranch. rewrite Hbr.
    destruct (Pos.eqb_spec TrueDest FalseDest) as [-> | _]; [done |].
    rewrite Hdeps, E. cbn [mbind option_bind].
    destruct (LCLICM.emitOrs OCPs n1) as [[Ors insts2] n2]. cbn in Hfc.
    destruct Hfc as [[[c insts3] n3] Efc]. rewrite Efc. cbn. by eexists.
Qed.

Lemma lclicm_final_condition_defined_witness :
  Forall (fun e : Value * list LCLICM.MemLoc => snd e <> [] -> (2 <= length (snd e))%nat)
    [(InstRef 16, [(InstRef 15, 100); (gArrB, 6400)])]
  /\ (exists OCPs insts n1,
        LCLICM.pairsOfMap fnTest [(InstRef 16, [(InstRef 15, 100); (gArrB, 6400)])]
          100%positive = Some (OCPs, insts, n1)
        /\ OCPs <> []
        /\ fst (fst (LCLICM.emitOrs OCPs n1)) <> []
        /\ is_Some (LCLICM.emitFinalCond (fst (fst (LCLICM.emitOrs OCPs n1)))
                      (snd (LCLICM.emitOrs OCPs n1))))
  /\ is_Some (LCLICM.emitPreheaderBranch
                (lclicmState fnTest [(InstRef 16, [(InstRef 15, 100); (gArrB, 6400)])])
                9%positive 7%positive (mkInst 30 VoidTy (Br 9))).
Proof.
  apply (lclicm_final_condition_defined (fnAnalyses true) fnTest fnInner 4%positive
           [(InstRef 16, [])] _ (lclicmState fnTest _) 9%positive 7%positive 9%positive).
  - repeat constructor.
  - vm_compute; reflexivity.
  - reflexivity.
  - repeat constructor; eexists; split; vm_compute; reflexivity.
  - reflexivity.
  - lia.
Defined.

(** ** Processed loops *)

Lemma elem_of_insertAll (x : positive) (l : list positive) (s : gset positive) :
  x ∈ insertAll l s <-> In x l \/ x ∈ s.
Proof.
  unfold insertAll. revert s. induction l as [| y l IH]; intros s; cbn.
  - tauto.
  - rewrite IH. rewrite elem_of_union, elem_of_singleton. intuition congruence.
Qed.

Lemma markProcessed_spec {X} (st st' : PassState X) :
  markProcessed st = Some st' ->
  exists D,
    DuplicatedLoop st = Some D
    /\ fn st' = fn st /\ li st' = li st /\ CurrentLoop st' = CurrentLoop st
    /\ DuplicatedLoop st' = Some D
    /\ forall lp,
         lp ∈ ProcessedLoops st'
         <-> In lp (getLoopsInPreorder (depthBound (li st)) (li st) (CurrentLoop st)
                    ++ getLoopsInPreorder (depthBound (li st)) (li st) D)
             \/ lp ∈ ProcessedLoops st.
Proof.
  unfold markProcessed. destruct (DuplicatedLoop st) as [D |] eqn:ED; [| discriminate].
  cbn [mbind option_bind]. intros Heq. apply (inj Some) in Heq. subst st'.
  exists D. cbn [fn li CurrentLoop DuplicatedLoop ProcessedLoops].
  do 5 (split; [done |]).
  intros lp. rewrite !elem_of_insertAll, in_app_iff. tauto.
Qed.

(** What [transformCurrentLoop] leaves, for a strategy whose methods keep
    to their own members. *)
Lemma transformCurrentLoop_marks {X} `{Strategy X} (st st' : PassState X) :
  (forall T E B, keepsEngineState (fun s => emitPreheaderBranch s T E B)) ->
  keepsEngineState optimizeDuplicatedLoop ->
  transformCurrentLoop st = Some st' ->
  exists D,
    DuplicatedLoop st' = Some D
    /\ CurrentLoop st' = CurrentLoop st
    /\ forall lp,
         lp ∈ ProcessedLoops st'
         <-> In lp (getLoopsInPreorder (depthBound (li st')) (li st') (CurrentLoop st)
                    ++ getLoopsInPreorder (depthBound (li st')) (li st') D)
             \/ lp ∈ ProcessedLoops st.
Proof.
  intros Hemit Hopt. unfold transformCurrentLoop.
  destruct (duplicateBlocks st) as [d |]; [| discriminate]. cbn.
  destruct (head (dNewBBs d)) as [NewBBs0 |]; [| discriminate]. cbn.
  destruct (extendExits _ _ _) as [[[F4 LI5] n5] |]; [| discriminate]. cbn.
  destruct (getBlock _ (Preheader st)) as [PreB |]; [| discriminate]. cbn.
  destruct (getTerminator PreB) as [OldBr |]; [| discriminate]. cbn.
  destruct (ikind OldBr); try discriminate.
  destruct (Pos.eqb dest (dNewPreheader d)); [| discriminate].
  destruct (emitPreheaderBranch _ _ _ _) as [st2 |] eqn:E2; [| discriminate]. cbn.
  destruct (optimizeDuplicatedLoop st2) as [st3 |] eqn:E3; [| discriminate]. cbn.
  intros Hm.
  apply Hemit in E2 as (C2 & D2 & P2). cbn in C2, D2, P2.
  apply Hopt in E3 as (C3 & D3 & P3).
  apply markProcessed_spec in Hm as (D & HD & Hf & Hl & Hc & HD' & Hp).
  exists D. split; [done |]. split; [congruence |].
  intros lp. rewrite Hp, Hl. rewrite C3, C2, P3, P2. done.
Qed.

Ltac option_inv H :=
  repeat first
    [ discriminate H
    | match type of H with
      | mbind _ ?o = Some _ =>
          let E := fresh "E" in
          destruct o eqn:E; cbn [mbind option_bind] in H
      | (match ?x with _ => _ end) = Some _ =>
          let E := fresh "E" in destruct x eqn:E
      | (let '(_, _) := ?x in _) = Some _ =>
          let E := fresh "E" in destruct x eqn:E
      end ].

Lemma lasbc_emit_keeps (T E : positive) (B : Instruction) :
  keepsEngineState (fun s => LASBC.emitPreheaderBranch s T E B).
Proof.
  intros st st' H. unfold LASBC.emitPreheaderBranch in H.
  option_inv H. apply (inj Some) in H. subst st'. done.
Qed.

Lemma lasbc_optimize_keeps : keepsEngineState LASBC.optimizeDuplicatedLoop.
Proof.
  intros st st' H. unfold LASBC.optimizeDuplicatedLoop in H.
  option_inv H. apply (inj Some) in H. subst st'. done.
Qed.

Lemma lclicm_emit_keeps (T E : positive) (B : Instruction) :
  keepsEngineState (fun s => LCLICM.emitPreheaderBranch s T E B).
Proof.
  intros st st' H. unfold LCLICM.emitPreheaderBranch in H.
  option_inv H. apply (inj Some) in H. subst st'. done.
Qed.

Lemma lclicm_optimize_keeps (an : LCLICM.Analyses) :
  keepsEngineState (LCLICM.optimizeDuplicatedLoop an).
Proof.
  intros st st' H. unfold LCLICM.optimizeDuplicatedLoop in H.
  option_inv H. apply (inj Some) in H. subst st'. done.
Qed.

Lemma onlyPriv_refl {X} (st : PassState X) : onlyPriv st st.
Proof. exists (priv st). by destruct st. Qed.

Lemma onlyPriv_trans {X} (a b c : PassState X) :
  onlyPriv a b -> onlyPriv b c -> onlyPriv a c.
Proof. intros [x ->] [y ->]. by exists y. Qed.

Lemma lasbc_isPHI_onlyPriv (st st' : PassState LASBC.Fields)
    (PN : Instruction) (ok : bool) :
  LASBC.isPHIAnAppropriateIV st PN = Some (ok, st') -> onlyPriv st st'.
Proof.
  intros H. unfold LASBC.isPHIAnAppropriateIV in H.
  option_inv H; apply (inj Some) in H; injection H as _ <-;
    first [apply onlyPriv_refl | by eexists].
Qed.

Lemma lasbc_candidate_onlyPriv (st st' : PassState LASBC.Fields) (ok : bool) :
  LASBC.isCurrentLoopACandidate st = Some (ok, st') -> onlyPriv st st'.
Proof.
  unfold LASBC.isCurrentLoopACandidate.
  destruct (getBlock (fn st) (Header st)) as [H |]; [| discriminate]. cbn.
  generalize (phis H). intros PNs. revert st.
  induction PNs as [| PN PNs IH]; intros st; cbn.
  - intros [= _ <-]. apply onlyPriv_refl.
  - destruct (LASBC.isPHIAnAppropriateIV st PN) as [[b s] |] eqn:E; cbn; [| discriminate].
    apply lasbc_isPHI_onlyPriv in E.
    destruct b.
    + intros [= _ <-]. done.
    + intros Hrest. apply IH in Hrest. by apply (onlyPriv_trans st s st').
Qed.

Lemma lclicm_candidate_onlyPriv (an : LCLICM.Analyses)
    (st st' : PassState LCLICM.Fields) (ok : bool) :
  LCLICM.isCurrentLoopACandidate an st = Some (ok, st') -> onlyPriv st st'.
Proof.
  intros H. unfold LCLICM.isCurrentLoopACandidate in H.
  option_inv H; apply (inj Some) in H; injection H as _ <-; apply onlyPriv_refl.
Qed.

Lemma getLoopPreheader_header (F : Func) (L : Loop) :
  is_Some (getLoopPreheader F L) -> is_Some (getHeader L).
Proof.
  intros [b Hb]. unfold getLoopPreheader, getLoopPredecessor in Hb.
  destruct (getHeader L); [by eexists | discriminate].
Qed.

(** The three facts about a [runOnLoop] that idempotence rests on. *)
Lemma neverDuplicatedTwice_from
    (run : Pass -> positive -> option (bool * Pass)) :
  (forall p p1 l, run p l = Some (true, p1) ->
     exists D, passDuplicated p1 = Some D
               /\ forall lp, In lp (nests p1 l D) -> lp ∈ passProcessed p1) ->
  (forall p p' l b, run p l = Some (b, p') -> passProcessed p ⊆ passProcessed p') ->
  (forall p l L, l ∈ passProcessed p -> passLI p !! l = Some L ->
     is_Some (getLoopPreheader (passFn p) L) ->
     run p l = Some (false, resetDuplicated p)) ->
  neverDuplicatedTwice run.
Proof.
  intros Hmark Hmono Hskip p p1 l Hrun.
  destruct (Hmark p p1 l Hrun) as (D & HD & Hin).
  exists D. split; [done |]. intros lp Hlp. split; [by apply Hin |].
  intros p2 Lp Hlater HL Hpre. apply (Hskip p2 lp Lp); [| done | done].
  specialize (Hin lp Hlp). clear - Hin Hlater Hmono.
  induction Hlater as [| p q r l' b _ IH Hcall]; [done |].
  apply (Hmono q r l' b Hcall). by apply IH.
Qed.

Lemma lasbc_runOnLoop_true (p p1 : Pass) (l : positive) :
  LASBC.runOnLoop p l = Some (true, p1) ->
  exists D, passDuplicated p1 = Some D
    /\ forall lp, lp ∈ passProcessed p1 <-> In lp (nests p1 l D) \/ lp ∈ passProcessed p.
Proof.
  intros H. unfold LASBC.runOnLoop in H. option_inv H.
  apply (inj Some) in H. injection H as <-.
  match goal with E : LASBC.isCurrentLoopACandidate _ = _ |- _ =>
    apply lasbc_candidate_onlyPriv in E as [x ->] end.
  match goal with E : transformCurrentLoop _ = _ |- _ =>
    apply (@transformCurrentLoop_marks _ LASBC.strategy _ _
             lasbc_emit_keeps lasbc_optimize_keeps) in E
      as (D & HD & HC & HP) end.
  exists D. split; [done |]. intros lp. rewrite HP. done.
Qed.

Lemma lclicm_runOnLoop_true (an : LCLICM.Analyses) (p p1 : Pass) (l : positive) :
  LCLICM.runOnLoop an p l = Some (true, p1) ->
  exists D, passDuplicated p1 = Some D
    /\ forall lp, lp ∈ passProcessed p1 <-> In lp (nests p1 l D) \/ lp ∈ passProcessed p.
Proof.
  intros H. unfold LCLICM.runOnLoop in H. option_inv H;
    try (apply (inj Some) in H; discriminate).
  apply (inj Some) in H. injection H as <-.
  match goal with E : LCLICM.isCurrentLoopACandidate _ _ = _ |- _ =>
    apply lclicm_candidate_onlyPriv in E as [x ->] end.
  match goal with E : transformCurrentLoop _ = _ |- _ =>
    apply (@transformCurrentLoop_marks _ (LCLICM.strategy an) _ _
             lclicm_emit_keeps (lclicm_optimize_keeps an)) in E
      as (D & HD & HC & HP) end.
  exists D. split; [done |]. intros lp. rewrite HP. done.
Qed.

Lemma lasbc_runOnLoop_false (p p' : Pass) (l : positive) :
  LASBC.runOnLoop p l = Some (false, p') -> p' = resetDuplicated p.
Proof.
  intros H. unfold LASBC.runOnLoop in H. option_inv H;
    apply (inj Some) in H; by injection H as <-.
Qed.

Lemma lclicm_runOnLoop_false (an : LCLICM.Analyses) (p p' : Pass) (l : positive) :
  LCLICM.runOnLoop an p l = Some (false, p') -> p' = resetDuplicated p.
Proof.
  intros H. unfold LCLICM.runOnLoop in H. option_inv H;
    apply (inj Some) in H; by injection H as <-.
Qed.

Lemma lasbc_runOnLoop_skips (p : Pass) (l : positive) (L : Loop) :
  l ∈ passProcessed p -> passLI p !! l = Some L ->
  is_Some (getLoopPreheader (passFn p) L) ->
  LASBC.runOnLoop p l = Some (false, resetDuplicated p).
Proof.
  intros Hin HL Hpre. unfold LASBC.runOnLoop. rewrite HL. cbn [mbind option_bind].
  destruct (getLoopPreheader_header _ _ Hpre) as [h Hh].
  destruct Hpre as [pre ->]. cbn [mbind option_bind]. rewrite Hh.
  cbn [mbind option_bind]. by rewrite bool_decide_eq_true_2.
Qed.

Lemma lclicm_runOnLoop_skips (an : LCLICM.Analyses) (p : Pass) (l : positive)
    (L : Loop) :
  l ∈ passProcessed p -> passLI p !! l = Some L ->
  is_Some (getLoopPreheader (passFn p) L) ->
  LCLICM.runOnLoop an p l = Some (false, resetDuplicated p).
Proof.
  intros Hin HL Hpre. unfold LCLICM.runOnLoop. rewrite HL. cbn [mbind option_bind].
  destruct (getLoopPreheader_header _ _ Hpre) as [h Hh].
  destruct Hpre as [pre ->]. cbn [mbind option_bind]. rewrite Hh.
  cbn [mbind option_bind]. by rewrite bool_decide_eq_true_2.
Qed.

(** C4: for either pass, once [runOnLoop] has transformed a loop, every
    loop of the pre-order nests of the loop and of its duplicate is in
    [ProcessedLoops], and every later [runOnLoop] on one of them returns
    false with the function untouched. *)
Theorem processed_loops_are_never_duplicated_again :
  neverDuplicatedTwice LASBC.runOnLoop
  /\ forall an : LCLICM.Analyses, neverDuplicatedTwice (LCLICM.runOnLoop an).
Proof.
  split; [| intros an]; apply neverDuplicatedTwice_from.
  - intros p p1 l H. apply lasbc_runOnLoop_true in H as (D & HD & HP).
    exists D. split; [done |]. intros lp Hlp. apply HP. by left.
  - intros p p' l [] H.
    + apply lasbc_runOnLoop_true in H as (D & HD & HP).
      intros x Hx. apply HP. by right.
    + apply lasbc_runOnLoop_false in H as ->. done.
  - apply lasbc_runOnLoop_skips.
  - intros p p1 l H. apply lclicm_runOnLoop_true in H as (D & HD & HP).
    exists D. split; [done |]. intros lp Hlp. apply HP. by left.
  - intros p p' l [] H.
    + apply lclicm_runOnLoop_true in H as (D & HD & HP).
      intros x Hx. apply HP. by right.
    + apply lclicm_runOnLoop_false in H as ->. done.
  - apply lclicm_runOnLoop_skips.
Qed.

(** The test function: after the first call, a second call on the loop
    (1) and a call on its duplicate (122) both return false. *)
Lemma processed_loops_are_never_duplicated_again_witness :
  exists p1,
    LASBC.runOnLoop (passOn foo fooLI) 1 = Some (true, p1)
    /\ passDuplicated p1 = Some 122%positive
    /\ LASBC.runOnLoop p1 1 = Some (false, resetDuplicated p1)
    /\ LASBC.runOnLoop p1 122 = Some (false, resetDuplicated p1).
Proof.
  eexists. split; [vm_compute; reflexivity |].
  split; [vm_compute; reflexivity |].
  match goal with |- LASBC.runOnLoop ?q _ = _ /\ _ => set (p1 := q) end.
  destruct (proj1 processed_loops_are_never_duplicated_again
              (passOn foo fooLI) p1 1%positive) as (D & HD & Hall);
    [vm_compute; reflexivity |].
  assert (D = 122%positive) as -> by (vm_compute in HD; congruence).
  split.
  - refine (proj2 (Hall 1%positive _) p1 (mkLoop [2; 3]%positive [] None)
              (later_now _ _) _ _).
    + vm_compute. tauto.
    + vm_compute; reflexivity.
    + vm_compute. by eexists.
  - refine (proj2 (Hall 122%positive _) p1 (mkLoop [106; 111]%positive [] None)
              (later_now _ _) _ _).
    + vm_compute. tauto.
    + vm_compute; reflexivity.
    + vm_compute. by eexists.
Defined.

(** ** The phi nodes at the successors of the exit blocks *)

Lemma find_map_commute {A B} (p : B -> bool) (h : A -> B) (l : list A) :
  List.find p (map h l) = h <$> List.find (fun x => p (h x)) l.
Proof.
  induction l as [| x l IH]; cbn; [done |].
  destruct (p (h x)); [done | exact IH].
Qed.

Lemma find_ext_in {A} (p q : A -> bool) (l : list A) :
  (forall x, In x l -> p x = q x) -> List.find p l = List.find q l.
Proof.
  induction l as [| x l IH]; intros H; cbn; [done |].
  rewrite (H x (or_introl eq_refl)).
  destruct (q x); [done |]. apply IH. intros y Hy. apply H. by right.
Qed.

Lemma getBlock_bid (F : Func) (b : positive) (B : BasicBlock) :
  getBlock F b = Some B -> bid B = b.
Proof.
  unfold getBlock. intros H. apply find_some in H as [_ H]. by apply Pos.eqb_eq.
Qed.

Lemma getBlock_In (F : Func) (b : positive) (B : BasicBlock) :
  getBlock F b = Some B -> In B F.
Proof. unfold getBlock. intros H. by apply find_some in H as [H _]. Qed.

Lemma getBlock_map (h : BasicBlock -> BasicBlock) (F : Func) (b : positive) :
  (forall B, bid (h B) = bid B) ->
  getBlock (map h F) b = h <$> getBlock F b.
Proof.
  intros Hh. unfold getBlock. rewrite find_map_commute. f_equal.
  apply find_ext_in. intros B _. by rewrite Hh.
Qed.

Lemma getBlock_updInsts (g : Instruction -> Instruction) (F : Func) (b : positive) :
  getBlock (updInsts g F) b = mapBlock g <$> getBlock F b.
Proof. unfold updInsts. by rewrite (getBlock_map (mapBlock g)). Qed.

Lemma getBlock_updBlock (f : BasicBlock -> BasicBlock) (F : Func) (S T : positive) :
  (forall B, bid (f B) = bid B) ->
  getBlock (updBlock S f F) T
  = if Pos.eqb T S then f <$> getBlock F T else getBlock F T.
Proof.
  intros Hf. unfold updBlock.
  rewrite (getBlock_map (fun B => if Pos.eqb (bid B) S then f B else B)).
  - destruct (getBlock F T) as [B |] eqn:E; cbn.
    + rewrite (getBlock_bid _ _ _ E). by destruct (Pos.eqb T S).
    + by destruct (Pos.eqb T S).
  - intros B. destruct (Pos.eqb (bid B) S); [apply Hf | done].
Qed.

(** The blocks a function reaches [S] from depend on the identifiers and
    the successors of the blocks only. *)
Lemma predecessors_map (h : BasicBlock -> BasicBlock) (F : Func) (S : positive) :
  (forall B, In B F -> bid (h B) = bid B /\ successors (h B) = successors B) ->
  predecessors (map h F) S = predecessors F S.
Proof.
  unfold predecessors. induction F as [| B F IH]; intros H; cbn; [done |].
  destruct (H B (or_introl eq_refl)) as [-> ->]. f_equal.
  apply IH. intros B' HB'. apply H. by right.
Qed.

Lemma allInsts_map (h : BasicBlock -> BasicBlock) (F : Func) :
  allInsts (map h F) = flat_map (fun B => binsts (h B)) F.
Proof.
  unfold allInsts. induction F as [| B F IH]; cbn; [done |]. by rewrite IH.
Qed.

Lemma last_map_Some_app (l1 l2 : list Instruction) :
  l2 <> [] ->
  List.last (map Some (l1 ++ l2)) None = List.last (map Some l2) None.
Proof.
  intros H. rewrite map_app. induction l1 as [| x l1 IH]; [done |].
  cbn. rewrite IH. destruct (map Some l1 ++ map Some l2) eqn:E; [| done].
  apply app_eq_nil in E as [_ E]. destruct l2; [done | discriminate].
Qed.

Lemma last_map_Some_In (l : list Instruction) (x : Instruction) :
  List.last (map Some l) None = Some x -> In x l.
Proof.
  induction l as [| y l IH]; cbn; [discriminate |].
  destruct (map Some l) eqn:E.
  - intros [= ->]. by left.
  - intros H. right. apply IH. exact H.
Qed.

Lemma last_map_Some_map (g : Instruction -> Instruction) (l : list Instruction) :
  List.last (map Some (map g l)) None = g <$> List.last (map Some l) None.
Proof.
  induction l as [| y l IH]; cbn; [done |].
  destruct l as [| z l]; [done |]. exact IH.
Qed.

(** A block without terminator at its end has no successors. *)
Lemma successors_all_nonterminators (b : positive) (l : list Instruction) :
  (forall x, In x l -> isTerminatorKind (ikind x) = false) ->
  successors (mkBlock b l) = [].
Proof.
  intros H. unfold successors, getTerminator. cbn.
  destruct (List.last (map Some l) None) as [x |] eqn:E; [| done].
  by rewrite (H x (last_map_Some_In _ _ E)).
Qed.

(** Rewriting a prefix of instructions that are not terminators leaves the
    successors of the block as they are. *)
Lemma successors_prefix (b : positive) (P P' rest : list Instruction) :
  (forall x, In x P -> isTerminatorKind (ikind x) = false) ->
  (forall x, In x P' -> isTerminatorKind (ikind x) = false) ->
  successors (mkBlock b (P' ++ rest)) = successors (mkBlock b (P ++ rest)).
Proof.
  intros HP HP'. destruct rest as [| r rest].
  - rewrite !app_nil_r. by rewrite !successors_all_nonterminators.
  - unfold successors, getTerminator. cbn [binsts].
    by rewrite !last_map_Some_app.
Qed.

Lemma successors_mapBlock (g : Instruction -> Instruction) (B : BasicBlock) :
  (forall ins, isTerminatorKind (ikind (g ins)) = isTerminatorKind (ikind ins)
               /\ kindSuccessors (ikind (g ins)) = kindSuccessors (ikind ins)) ->
  successors (mapBlock g B) = successors B.
Proof.
  intros Hg. unfold successors, getTerminator, mapBlock. cbn.
  rewrite last_map_Some_map.
  destruct (List.last (map Some (binsts B)) None) as [x |]; cbn; [| done].
  destruct (Hg x) as [-> Hs]. destruct (isTerminatorKind (ikind x)); [exact Hs | done].
Qed.

Lemma takeWhile_app_all {A} (f : A -> bool) (P rest : list A) :
  (forall x, In x P -> f x = true) ->
  match rest with [] => True | r :: _ => f r = false end ->
  takeWhile f (P ++ rest) = P.
Proof.
  intros HP Hr. induction P as [| x P IH]; cbn.
  - destruct rest as [| r rest]; cbn; [done | by rewrite Hr].
  - rewrite (HP x (or_introl eq_refl)). f_equal. apply IH.
    intros y Hy. apply HP. by right.
Qed.

Lemma takeWhile_In {A} (f : A -> bool) (l : list A) (x : A) :
  In x (takeWhile f l) -> In x l /\ f x = true.
Proof.
  induction l as [| y l IH]; cbn; [done |].
  destruct (f y) eqn:E; [| done].
  intros [-> | H]; [by split; [left |] |].
  destruct (IH H). split; [by right | done].
Qed.

(** A list splits into its longest prefix satisfying [f] and a rest that
    does not start with an element satisfying [f]. *)
Lemma takeWhile_split {A} (f : A -> bool) (l : list A) :
  exists rest,
    l = takeWhile f l ++ rest
    /\ match rest with [] => True | r :: _ => f r = false end.
Proof.
  induction l as [| x l (rest & E & Hr)]; cbn.
  - by exists [].
  - destruct (f x) eqn:Ex.
    + exists rest. split; [cbn; congruence | done].
    + by exists (x :: l).
Qed.

Lemma isPHI_not_terminator (ins : Instruction) :
  isPHI ins = true -> isTerminatorKind (ikind ins) = false.
Proof. unfold isPHI. by destruct (ikind ins). Qed.

Lemma isLandingPad_not_terminator (ins : Instruction) :
  isLandingPad ins = true -> isTerminatorKind (ikind ins) = false.
Proof. unfold isLandingPad. by destruct (ikind ins). Qed.

Lemma isPHI_withEntry (VMap : ValueMap) (EB NE : positive) (PN : Instruction) :
  isPHI (withEntryForNewExit VMap EB NE PN) = isPHI PN.
Proof.
  unfold withEntryForNewExit, getIncomingValueForBlock, addIncoming, withKind, isPHI.
  destruct (ikind PN) eqn:E; cbn; rewrite ?E; try done.
  destruct (List.find _ _); cbn; by rewrite ?E.
Qed.

(** [addEntriesForNewExit] rewrites the phi nodes at the head of the block,
    each by [withEntryForNewExit], provided each has an entry for the exit
    block. *)
Lemma addEntriesForNewExit_spec (VMap : ValueMap) (EB NE : positive)
    (insts rest : list Instruction) :
  insts = takeWhile isPHI insts ++ rest ->
  match rest with [] => True | r :: _ => isPHI r = false end ->
  (forall PN, In PN (takeWhile isPHI insts) ->
     is_Some (getIncomingValueForBlock PN EB)) ->
  addEntriesForNewExit VMap EB NE insts
  = Some (map (withEntryForNewExit VMap EB NE) (takeWhile isPHI insts) ++ rest).
Proof.
  revert rest. induction insts as [| x insts IH]; intros rest E Hr Hent.
  - cbn in *. by subst rest.
  - cbn in *. destruct (isPHI x) eqn:Ex.
    + cbn in E. injection E as E.
      destruct (Hent x (or_introl eq_refl)) as [v Hv]. rewrite Hv. cbn.
      rewrite (IH rest E Hr) by (intros PN HPN; apply Hent; by right). cbn.
      unfold withEntryForNewExit at 2. by rewrite Hv.
    + cbn in E. by subst rest.
Qed.

Lemma insertAfterHead_spec (f : Instruction -> bool) (new l : list Instruction) :
  exists rest,
    l = takeWhile f l ++ rest
    /\ match rest with [] => True | r :: _ => f r = false end
    /\ insertAfterHead f new l = takeWhile f l ++ new ++ rest.
Proof.
  induction l as [| x l (rest & E & Hr & Hi)]; cbn.
  - exists []. by rewrite app_nil_r.
  - destruct (f x) eqn:Ex.
    + exists rest. split; [cbn; congruence |]. split; [done |]. by rewrite Hi.
    + exists (x :: l). done.
Qed.

Lemma Ty_eqb_eq (s t : Ty) : Ty_eqb s t = true -> s = t.
Proof.
  revert t. induction s; intros [] H; cbn in H; try discriminate; try done.
  - apply N.eqb_eq in H. by subst.
  - f_equal. by apply IHs.
  - apply andb_true_iff in H as [H1 H2]. apply N.eqb_eq in H1. subst.
    f_equal. by apply IHs.
Qed.

Lemma Value_eqb_eq (a b : Value) : Value_eqb a b = true -> a = b.
Proof.
  destruct a, b; cbn; intros H; try discriminate;
    repeat match goal with
           | H : _ && _ = true |- _ => apply andb_true_iff in H as [? ?]
           | H : Ty_eqb _ _ = true |- _ => apply Ty_eqb_eq in H
           | H : Z.eqb _ _ = true |- _ => apply Z.eqb_eq in H
           | H : Pos.eqb _ _ = true |- _ => apply Pos.eqb_eq in H
           end; by subst.
Qed.

Lemma mapOperands_compose (f g : Value -> Value) (k : InstKind) :
  mapOperands f (mapOperands g k) = mapOperands (fun v => f (g v)) k.
Proof.
  destruct k; cbn; rewrite ?map_map; try done.
  by destruct v.
Qed.

Lemma mapOperands_id (k : InstKind) : mapOperands (fun v => v) k = k.
Proof.
  destruct k; cbn; rewrite ?map_id; try done.
  - f_equal. induction incoming as [| [v b] l IH]; cbn; [done | by rewrite IH].
  - by destruct v.
Qed.

Lemma mapOperands_shape (f : Value -> Value) (k : InstKind) :
  isTerminatorKind (mapOperands f k) = isTerminatorKind k
  /\ kindSuccessors (mapOperands f k) = kindSuccessors k
  /\ (match mapOperands f k with PHINode _ => true | _ => false end
      = match k with PHINode _ => true | _ => false end)
  /\ (match mapOperands f k with LandingPadInst => true | _ => false end
      = match k with LandingPadInst => true | _ => false end).
Proof. by destruct k. Qed.

Section Unifies.
Variables (F : Func) (next : positive).

Lemma unifies_id : unifies F next [] (fun ins => ins).
Proof.
  intros ins. exists (fun v => v), []. repeat split; try done.
  rewrite mapOperands_id. destruct (ikind ins); try done. by rewrite app_nil_r.
Qed.

Lemma unifies_shape (app : list positive) (g : Instruction -> Instruction)
    (ins : Instruction) :
  unifies F next app g ->
  iid (g ins) = iid ins
  /\ isPHI (g ins) = isPHI ins
  /\ isLandingPad (g ins) = isLandingPad ins
  /\ isTerminatorKind (ikind (g ins)) = isTerminatorKind (ikind ins)
  /\ kindSuccessors (ikind (g ins)) = kindSuccessors (ikind ins).
Proof.
  intros Hg. destruct (Hg ins) as (σ & es & _ & Hid & _ & Hk & _).
  split; [done |]. unfold isPHI, isLandingPad. rewrite Hk.
  destruct (ikind ins); cbn; done.
Qed.

Lemma unifies_entries (app : list positive) (g : Instruction -> Instruction)
    (ins : Instruction) :
  unifies F next app g -> iid ins <> next ->
  map snd (entriesOf (g ins)) = map snd (entriesOf ins)
  /\ ((forall e, In e (entriesOf ins) -> ~ landingPadRef F (fst e)) ->
      entriesOf (g ins) = entriesOf ins).
Proof.
  intros Hg Hne. destruct (Hg ins) as (σ & es & Hσ & _ & _ & Hk & Hes & _).
  rewrite (Hes Hne) in Hk. unfold entriesOf. rewrite Hk.
  destruct (ikind ins); cbn; try done.
  rewrite app_nil_r. split.
  - rewrite map_map. done.
  - clear Hk. intros Hv. induction incoming as [| [v b] l IH]; cbn; [done |].
    rewrite (Hσ v) by (apply (Hv (v, b)); by left).
    f_equal. apply IH. intros e He. apply Hv. by right.
Qed.

Lemma unifies_entries_next (app : list positive) (g : Instruction -> Instruction)
    (ins : Instruction) :
  unifies F next app g -> iid ins = next -> isPHI ins = true ->
  map snd (entriesOf (g ins)) = map snd (entriesOf ins) ++ app.
Proof.
  intros Hg He Hphi. destruct (Hg ins) as (σ & es & _ & _ & _ & Hk & _ & Happ).
  unfold entriesOf, isPHI in *. rewrite Hk.
  destruct (ikind ins); cbn; try discriminate.
  rewrite map_app, map_map, (Happ He). done.
Qed.

(** One round of the loop over the predecessors keeps the rewriting of
    this kind. *)
Lemma unifies_step (app : list positive) (g : Instruction -> Instruction)
    (lpi BB : positive) :
  unifies F next app g ->
  landingPadRef F (InstRef lpi) ->
  unifies F next (app ++ [BB])
    (fun ins =>
       (fun x => if Pos.eqb (iid x) next
                 then addIncoming (InstRef lpi) BB x else x)
         (withKind (mapOperands (substValue (InstRef lpi) (InstRef next)))
            (g ins))).
Proof.
  intros Hg Hlp ins.
  destruct (Hg ins) as (σ & es & Hσ & Hid & Hty & Hk & Hes & Happ).
  set (τ := substValue (InstRef lpi) (InstRef next)).
  assert (Hτ : forall v, ~ landingPadRef F v -> τ v = v).
  { intros v Hv. unfold τ, substValue.
    destruct (Value_eqb v (InstRef lpi)) eqn:E; [| done].
    apply Value_eqb_eq in E. by subst. }
  exists (fun v => τ (σ v)),
    (map (fun e => (τ (fst e), snd e)) es
     ++ if Pos.eqb (iid ins) next then [(InstRef lpi, BB)] else []).
  split; [intros v Hv; by rewrite (Hσ v Hv), (Hτ v Hv) |].
  assert (E1 : ikind (withKind (mapOperands τ) (g ins))
               = match mapOperands (fun v => τ (σ v)) (ikind ins) with
                 | PHINode inc => PHINode (inc ++ map (fun e => (τ (fst e), snd e)) es)
                 | k => k
                 end).
  { cbn [ikind withKind]. rewrite Hk, <- (mapOperands_compose τ σ (ikind ins)).
    destruct (mapOperands σ (ikind ins)); cbn; try done.
    by rewrite map_app. }
  cbv beta.
  set (x := withKind (mapOperands τ) (g ins)) in *.
  assert (Hx : iid x = iid ins) by (rewrite <- Hid; reflexivity).
  assert (Hxt : ity x = ity ins) by (rewrite <- Hty; reflexivity).
  rewrite Hx.
  destruct (Pos.eqb_spec (iid ins) next) as [En | En].
  - change (iid (addIncoming (InstRef lpi) BB x)) with (iid x).
    change (ity (addIncoming (InstRef lpi) BB x)) with (ity x).
    change (ikind (addIncoming (InstRef lpi) BB x))
      with (match ikind x with
            | PHINode inc => PHINode (inc ++ [(InstRef lpi, BB)])
            | _ => ikind x
            end).
    rewrite E1.
    split; [done |]. split; [done |]. split.
    + destruct (mapOperands (fun v => τ (σ v)) (ikind ins)); try done.
      by rewrite <- app_assoc.
    + split; [done |]. intros _. rewrite map_app, map_map. cbn.
      f_equal. rewrite <- (Happ En). by apply map_ext.
  - rewrite E1.
    split; [done |]. split; [done |]. split.
    + by rewrite app_nil_r.
    + split; [| done]. intros _. by rewrite (Hes En).
Qed.

End Unifies.

Lemma updInsts_compose (f g : Instruction -> Instruction) (F : Func) :
  updInsts f (updInsts g F) = updInsts (fun ins => f (g ins)) F.
Proof.
  unfold updInsts. rewrite map_map. apply map_ext. intros B. cbn.
  by rewrite map_map.
Qed.

Lemma getLandingPadInst_mapBlock (g : Instruction -> Instruction) (B : BasicBlock) :
  (forall ins, isLandingPad (g ins) = isLandingPad ins) ->
  getLandingPadInst (mapBlock g B) = g <$> getLandingPadInst B.
Proof.
  intros Hg. unfold getLandingPadInst, mapBlock. cbn.
  rewrite find_map_commute. f_equal. apply find_ext_in. intros x _. apply Hg.
Qed.

Lemma getLandingPadInst_ref (F : Func) (b : positive) (B : BasicBlock)
    (LPI : Instruction) :
  getBlock F b = Some B -> getLandingPadInst B = Some LPI ->
  landingPadRef F (InstRef (iid LPI)).
Proof.
  intros HB HL. exists LPI. apply find_some in HL as [Hin Hlp].
  split; [| done]. unfold allInsts. apply in_flat_map.
  exists B. split; [by apply (getBlock_In F b) | done].
Qed.

(** The loop over the predecessors of a landing pad's successor, as one
    rewriting of the instructions. *)
Lemma unifyLandingPads_spec (F2 : Func) (next S : positive)
    (preds : list positive) :
  forall (app : list positive) (g : Instruction -> Instruction),
    unifies F2 next app g ->
    (forall BB, In BB preds -> isLandingPadBlock F2 BB) ->
    exists g',
      unifyLandingPads next S preds (updInsts g F2) = Some (updInsts g' F2)
      /\ unifies F2 next (app ++ preds) g'.
Proof.
  induction preds as [| BB preds IH]; intros app g Hg Hlp.
  - exists g. cbn. by rewrite app_nil_r.
  - destruct (Hlp BB (or_introl eq_refl)) as (B & HB & [LPI HL]).
    cbn [unifyLandingPads]. rewrite getBlock_updInsts, HB. cbn [fmap option_fmap option_map mbind option_bind].
    rewrite getLandingPadInst_mapBlock
      by (intros ins; apply (unifies_shape F2 next app g ins Hg)).
    rewrite HL. cbn [fmap option_fmap option_map mbind option_bind].
    destruct (unifies_shape F2 next app g LPI Hg) as (Hid & _).
    rewrite Hid.
    unfold updInst, replaceAllUsesWith. rewrite !updInsts_compose.
    pose proof (unifies_step F2 next app g (iid LPI) BB Hg
                  (getLandingPadInst_ref F2 BB B LPI HB HL)) as Hstep.
    destruct (IH (app ++ [BB]) _ Hstep) as (g' & Hrun & Hg').
    { intros BB' HBB'. apply Hlp. by right. }
    exists g'. split; [exact Hrun |]. by rewrite <- app_assoc in Hg'.
Qed.

Lemma sameShape_refl (F : Func) : sameShape F F.
Proof. by repeat split. Qed.

Lemma sameShape_trans (F G H : Func) :
  sameShape F G -> sameShape G H -> sameShape F H.
Proof.
  intros (A1 & A2 & A3 & A4 & A5) (B1 & B2 & B3 & B4 & B5).
  split; [congruence |]. split; [intros b; by rewrite B2 |].
  split; [intros T; by rewrite B3 |].
  split; [intros b; by rewrite B4 | intros v; by rewrite B5].
Qed.

Lemma getLandingPadInst_is_Some (B : BasicBlock) :
  is_Some (getLandingPadInst B) <-> exists i, lpIds (binsts B) i.
Proof.
  unfold getLandingPadInst, lpIds. split.
  - intros [x Hx]. apply find_some in Hx as [Hin Hlp]. by exists (iid x), x.
  - intros (i & x & Hin & Hlp & _).
    destruct (List.find _ (binsts B)) as [y |] eqn:E; [by exists y |].
    apply (find_none _ _ E) in Hin. unfold isLandingPad in Hlp. congruence.
Qed.

Lemma landingPadRef_blocks (F : Func) (v : Value) :
  landingPadRef F v
  <-> exists B i, In B F /\ lpIds (binsts B) i /\ v = InstRef i.
Proof.
  unfold landingPadRef, allInsts, lpIds. split.
  - intros (ins & Hin & Hlp & ->). apply in_flat_map in Hin as (B & HB & Hin).
    exists B, (iid ins). split; [done |]. split; [by exists ins | done].
  - intros (B & i & HB & (ins & Hin & Hlp & <-) & ->).
    exists ins. split; [| done]. apply in_flat_map. by exists B.
Qed.

Lemma sameShape_map (h : BasicBlock -> BasicBlock) (F : Func) :
  (forall B, bid (h B) = bid B) ->
  (forall B, In B F ->
     successors (h B) = successors B
     /\ forall i, lpIds (binsts (h B)) i <-> lpIds (binsts B) i) ->
  sameShape F (map h F).
Proof.
  intros Hb Hh. unfold sameShape.
  split; [rewrite map_map; by apply map_ext |].
  split.
  { intros b. rewrite (getBlock_map h F b Hb).
    destruct (getBlock F b) as [B |] eqn:E; cbn; [| done].
    f_equal. apply Hh. by apply (getBlock_In F b). }
  split.
  { intros T. apply predecessors_map. intros B HB. split; [apply Hb | by apply Hh]. }
  split.
  { intros b. unfold isLandingPadBlock. rewrite (getBlock_map h F b Hb).
    destruct (getBlock F b) as [B |] eqn:E; cbn.
    - pose proof (getBlock_In F b B E) as HB. destruct (Hh B HB) as [_ Hlp].
      split.
      + intros (B' & [= <-] & HL). exists B. split; [done |].
        apply getLandingPadInst_is_Some. apply getLandingPadInst_is_Some in HL.
        destruct HL as [i Hi]. exists i. by apply Hlp.
      + intros (B' & [= <-] & HL). exists (h B). split; [done |].
        apply getLandingPadInst_is_Some. apply getLandingPadInst_is_Some in HL.
        destruct HL as [i Hi]. exists i. by apply Hlp.
    - split; intros (B' & HB' & _); discriminate. }
  intros v. rewrite !landingPadRef_blocks. split.
  - intros (B' & i & HB' & Hi & ->). apply in_map_iff in HB' as (B & <- & HB).
    exists B, i. split; [done |]. split; [by apply (Hh B HB) | done].
  - intros (B & i & HB & Hi & ->). exists (h B), i.
    split; [by apply in_map |]. split; [by apply (Hh B HB) | done].
Qed.

Lemma getBlock_unique (F : Func) (B : BasicBlock) :
  List.NoDup (map bid F) -> In B F -> getBlock F (bid B) = Some B.
Proof.
  unfold getBlock. induction F as [| C F IH]; intros Hnd Hin; [done |].
  cbn in *. apply List.NoDup_cons_iff in Hnd as [Hnot Hnd].
  destruct (Pos.eqb_spec (bid C) (bid B)) as [E | E].
  - destruct Hin as [-> | Hin]; [done |].
    exfalso. apply Hnot. rewrite E. by apply in_map.
  - destruct Hin as [-> | Hin]; [done |]. by apply IH.
Qed.

Lemma lpIds_app (l1 l2 : list Instruction) (i : positive) :
  lpIds (l1 ++ l2) i <-> lpIds l1 i \/ lpIds l2 i.
Proof.
  unfold lpIds. split.
  - intros (x & Hin & H). apply in_app_iff in Hin as [Hin | Hin];
      [left | right]; by exists x.
  - intros [(x & Hin & H) | (x & Hin & H)]; exists x;
      (split; [apply in_app_iff; tauto | done]).
Qed.

Lemma lpIds_none (l : list Instruction) (i : positive) :
  (forall x, In x l -> isLandingPad x = false) -> ~ lpIds l i.
Proof. intros H (x & Hin & Hlp & _). rewrite (H x Hin) in Hlp. discriminate. Qed.

Lemma lpIds_map (g : Instruction -> Instruction) (l : list Instruction)
    (i : positive) :
  (forall x, iid (g x) = iid x /\ isLandingPad (g x) = isLandingPad x) ->
  lpIds (map g l) i <-> lpIds l i.
Proof.
  intros Hg. unfold lpIds. split.
  - intros (y & Hin & Hlp & Hi). apply in_map_iff in Hin as (x & <- & Hin).
    destruct (Hg x) as [E1 E2]. exists x. rewrite <- E1, <- E2. done.
  - intros (x & Hin & Hlp & Hi). exists (g x). destruct (Hg x) as [E1 E2].
    split; [by apply in_map |]. by rewrite E1, E2.
Qed.

(** Replacing the instructions of one block. *)
Lemma sameShape_updBlock (F : Func) (S : positive) (SuccB : BasicBlock)
    (insts' : list Instruction) :
  List.NoDup (map bid F) ->
  getBlock F S = Some SuccB ->
  successors (mkBlock S insts') = successors SuccB ->
  (forall i, lpIds insts' i <-> lpIds (binsts SuccB) i) ->
  sameShape F (updBlock S (fun _ => mkBlock S insts') F).
Proof.
  intros Hnd HS Hsucc Hlp. unfold updBlock. apply sameShape_map.
  - intros B. destruct (Pos.eqb_spec (bid B) S); [by cbn | done].
  - intros B HB. destruct (Pos.eqb_spec (bid B) S) as [E | E]; [| done].
    pose proof (getBlock_unique F B Hnd HB) as HU. rewrite E, HS in HU.
    apply (inj Some) in HU. subst B. done.
Qed.

Lemma sameShape_updInsts (F : Func) (g : Instruction -> Instruction) :
  (forall x, iid (g x) = iid x
             /\ isLandingPad (g x) = isLandingPad x
             /\ isTerminatorKind (ikind (g x)) = isTerminatorKind (ikind x)
             /\ kindSuccessors (ikind (g x)) = kindSuccessors (ikind x)) ->
  sameShape F (updInsts g F).
Proof.
  intros Hg. unfold updInsts. apply sameShape_map; [done |].
  intros B _. split.
  - apply (successors_mapBlock g B). intros x. by destruct (Hg x) as (_ & _ & ? & ?).
  - intros i. cbn. apply lpIds_map. intros x. by destruct (Hg x) as (? & ? & _).
Qed.

Lemma takeWhile_map {A B} (p : B -> bool) (q : A -> bool) (h : A -> B)
    (l : list A) :
  (forall x, p (h x) = q x) ->
  takeWhile p (map h l) = map h (takeWhile q l).
Proof.
  intros H. induction l as [| x l IH]; cbn; [done |].
  rewrite H. destruct (q x); cbn; [by rewrite IH | done].
Qed.

Lemma phisOf_updInsts (g : Instruction -> Instruction) (F : Func) (T : positive) :
  (forall x, isPHI (g x) = isPHI x) ->
  phisOf (updInsts g F) T = map g (phisOf F T).
Proof.
  intros Hg. unfold phisOf. rewrite getBlock_updInsts.
  destruct (getBlock F T) as [B |]; cbn; [| done].
  unfold phis. cbn. by apply takeWhile_map.
Qed.

Lemma getBlock_updBlock_const (F : Func) (S T : positive) (B' : BasicBlock) :
  bid B' = S ->
  getBlock (updBlock S (fun _ => B') F) T
  = if Pos.eqb T S then (fun _ => B') <$> getBlock F T else getBlock F T.
Proof.
  intros HB'. unfold updBlock.
  rewrite (getBlock_map (fun B => if Pos.eqb (bid B) S then B' else B)).
  - destruct (getBlock F T) as [B |] eqn:E; cbn.
    + rewrite (getBlock_bid _ _ _ E). by destruct (Pos.eqb T S).
    + by destruct (Pos.eqb T S).
  - intros B. destruct (Pos.eqb_spec (bid B) S); congruence.
Qed.

Lemma updBlock_const_compose (f : BasicBlock -> BasicBlock) (F : Func)
    (S : positive) (B' : BasicBlock) :
  bid B' = S ->
  updBlock S f (updBlock S (fun _ => B') F) = updBlock S (fun _ => f B') F.
Proof.
  intros HB'. unfold updBlock. rewrite map_map. apply map_ext. intros B.
  destruct (Pos.eqb_spec (bid B) S) as [E | E].
  - rewrite HB'. by rewrite Pos.eqb_refl.
  - by destruct (Pos.eqb_spec (bid B) S).
Qed.

Lemma phisOf_updBlock_other (F : Func) (S T : positive) (B' : BasicBlock) :
  bid B' = S -> T <> S ->
  phisOf (updBlock S (fun _ => B') F) T = phisOf F T.
Proof.
  intros HB' Hne. unfold phisOf. rewrite (getBlock_updBlock_const F S T B' HB').
  by destruct (Pos.eqb_spec T S).
Qed.

Lemma phisOf_updBlock_same (F : Func) (S : positive) (SuccB : BasicBlock)
    (insts' : list Instruction) :
  getBlock F S = Some SuccB ->
  phisOf (updBlock S (fun _ => mkBlock S insts') F) S = takeWhile isPHI insts'.
Proof.
  intros HS. unfold phisOf.
  rewrite (getBlock_updBlock_const F S S (mkBlock S insts') eq_refl).
  by rewrite Pos.eqb_refl, HS.
Qed.

Lemma allInsts_updInsts (g : Instruction -> Instruction) (F : Func) :
  allInsts (updInsts g F) = map g (allInsts F).
Proof.
  unfold updInsts, allInsts. induction F as [| B F IH]; cbn; [done |].
  by rewrite IH, map_app.
Qed.

Lemma fresh_updInsts (g : Instruction -> Instruction) (F : Func) (n : positive) :
  (forall x, iid (g x) = iid x) -> fresh F n -> fresh (updInsts g F) n.
Proof.
  intros Hg HF ins Hin. rewrite allInsts_updInsts in Hin.
  apply in_map_iff in Hin as (x & <- & Hin). rewrite Hg. by apply HF.
Qed.

Lemma fresh_updBlock (F : Func) (S : positive) (B' : BasicBlock) (n : positive) :
  fresh F n -> (forall x, In x (binsts B') -> (iid x < n)%positive) ->
  fresh (updBlock S (fun _ => B') F) n.
Proof.
  intros HF HB' ins Hin. unfold updBlock, allInsts in Hin.
  apply in_flat_map in Hin as (B & HB & Hin).
  apply in_map_iff in HB as (B0 & <- & HB0).
  destruct (Pos.eqb (bid B0) S); [by apply HB' |].
  apply HF. unfold allInsts. apply in_flat_map. by exists B0.
Qed.

Lemma fresh_mono (F : Func) (n m : positive) :
  fresh F n -> (n <= m)%positive -> fresh F m.
Proof. intros HF Hle ins Hin. specialize (HF ins Hin). lia. Qed.

Lemma updInsts_id (F : Func) : updInsts (fun ins => ins) F = F.
Proof.
  unfold updInsts. induction F as [| [b l] F IH]; cbn; [done |].
  by rewrite map_id, IH.
Qed.

Lemma unifies_landingPads (F F' : Func) (next : positive) (app : list positive)
    (g : Instruction -> Instruction) :
  (forall v, landingPadRef F' v <-> landingPadRef F v) ->
  unifies F' next app g -> unifies F next app g.
Proof.
  intros Hlp Hg ins. destruct (Hg ins) as (σ & es & Hσ & H).
  exists σ, es. split; [| exact H]. intros v Hv. apply Hσ. by rewrite Hlp.
Qed.

(** A phi node the rewriting leaves as it is: an old one without landing
    pad values. *)
Lemma unifies_keeps_phi (F : Func) (next : positive) (app : list positive)
    (g : Instruction -> Instruction) (PN : Instruction) :
  unifies F next app g -> iid PN <> next -> isPHI PN = true ->
  (forall e, In e (entriesOf PN) -> ~ landingPadRef F (fst e)) ->
  g PN = PN.
Proof.
  intros Hg Hne Hphi Hv.
  destruct (unifies_entries F next app g PN Hg Hne) as [_ He].
  specialize (He Hv).
  destruct (Hg PN) as (σ & es & _ & Hid & Hty & Hk & _).
  unfold entriesOf, isPHI in *.
  destruct (g PN) as [i t k], PN as [i0 t0 k0]. cbn in *. subst i t.
  f_equal. destruct k0; try discriminate. cbn in Hk. subst k. cbn in He.
  by rewrite He.
Qed.

Lemma withEntry_shape (VMap : ValueMap) (EB NE : positive) (x : Instruction) :
  iid (withEntryForNewExit VMap EB NE x) = iid x
  /\ isLandingPad (withEntryForNewExit VMap EB NE x) = isLandingPad x.
Proof.
  unfold withEntryForNewExit, getIncomingValueForBlock, addIncoming, withKind,
    isLandingPad.
  destruct (ikind x) eqn:E; cbn; rewrite ?E; try done.
  destruct (List.find _ _); cbn; by rewrite ?E.
Qed.

Lemma withEntry_entries (VMap : ValueMap) (EB NE : positive) (PN : Instruction)
    (v : Value) :
  isPHI PN = true ->
  getIncomingValueForBlock PN EB = Some v ->
  entriesOf (withEntryForNewExit VMap EB NE PN)
  = entriesOf PN ++ [(remapValue VMap v, NE)].
Proof.
  intros Hphi Hv. unfold withEntryForNewExit. rewrite Hv.
  unfold entriesOf, addIncoming, withKind, isPHI in *. cbn.
  by destruct (ikind PN).
Qed.

Lemma successors_binsts (B : BasicBlock) (b : positive) :
  successors (mkBlock b (binsts B)) = successors B.
Proof. reflexivity. Qed.

Lemma phis_insertAfterHead (P rest : list Instruction) (PN : Instruction) :
  (forall x, In x P -> isPHI x = true) ->
  match rest with [] => True | r :: _ => isPHI r = false end ->
  isPHI PN = true ->
  exists extra,
    (extra = [] \/ extra = [PN])
    /\ takeWhile isPHI
         (insertAfterHead (fun ins => isPHI ins || isLandingPad ins) [PN]
            (P ++ rest))
       = P ++ extra.
Proof.
  intros HP Hr HPN. induction P as [| x P IH]; cbn.
  - destruct rest as [| r rest]; cbn.
    + exists [PN]. rewrite HPN. by split; [right |].
    + rewrite Hr. cbn. destruct (isLandingPad r); cbn.
      * rewrite Hr. exists []. by split; [left |].
      * rewrite HPN, Hr. exists [PN]. by split; [right |].
  - rewrite (HP x (or_introl eq_refl)). cbn.
    rewrite (HP x (or_introl eq_refl)).
    destruct IH as (extra & He & IH); [intros y Hy; apply HP; by right |].
    exists extra. split; [done |]. by rewrite IH.
Qed.

Lemma In_binsts_allInsts (F : Func) (b : positive) (B : BasicBlock)
    (x : Instruction) :
  getBlock F b = Some B -> In x (binsts B) -> In x (allInsts F).
Proof.
  intros HB Hx. unfold allInsts. apply in_flat_map. exists B.
  split; [by apply (getBlock_In F b) | done].
Qed.

(** One round of the loop over the exit blocks. *)
Lemma extendExit_spec (VMap : ValueMap) (EB NE S : positive) (F : Func)
    (LI : LoopInfo) (next : positive) (NEB SuccB : BasicBlock) :
  List.NoDup (map bid F) -> fresh F next ->
  vmBlock VMap !! EB = Some NE -> getBlock F NE = Some NEB ->
  successors NEB = [S] -> getBlock F S = Some SuccB ->
  (forall PN, In PN (phis SuccB) -> is_Some (getIncomingValueForBlock PN EB)) ->
  (is_Some (getLandingPadInst NEB) ->
   forall BB, In BB (predecessors F S) -> isLandingPadBlock F BB) ->
  exists F' LI' next' g app extra,
    extendExit VMap EB (F, LI, next) = Some (F', LI', next')
    /\ sameShape F F'
    /\ fresh F' next'
    /\ unifies F next app g
    /\ (extra = []
        \/ exists ty, extra = [mkInst next ty (PHINode [])]
                      /\ app = predecessors F S)
    /\ (forall T, T <> S -> phisOf F' T = map g (phisOf F T))
    /\ phisOf F' S
       = map g (map (withEntryForNewExit VMap EB NE) (phisOf F S) ++ extra).
Proof.
  intros Hnd Hfresh HNE HNEB Hsucc HS Hent Hlpad.
  set (h := withEntryForNewExit VMap EB NE).
  destruct (takeWhile_split isPHI (binsts SuccB)) as (rest & Esplit & Hrest).
  fold (phis SuccB) in Esplit.
  pose proof (addEntriesForNewExit_spec VMap EB NE (binsts SuccB) rest
                Esplit Hrest Hent) as Hadd.
  fold (phis SuccB) in Hadd. fold h in Hadd.
  set (insts' := map h (phis SuccB) ++ rest) in *.
  assert (HphiP : forall x, In x (phis SuccB) -> isPHI x = true).
  { intros x Hx. by apply (takeWhile_In isPHI (binsts SuccB)). }
  assert (HphiP' : forall x, In x (map h (phis SuccB)) -> isPHI x = true).
  { intros y Hy. apply in_map_iff in Hy as (x & <- & Hx).
    unfold h. rewrite isPHI_withEntry. by apply HphiP. }
  assert (Hsucc1 : successors (mkBlock S insts') = successors SuccB).
  { rewrite <- (successors_binsts SuccB S), Esplit. unfold insts'.
    apply successors_prefix.
    - intros x Hx. apply isPHI_not_terminator. by apply HphiP.
    - intros x Hx. apply isPHI_not_terminator. by apply HphiP'. }
  assert (Hlp1 : forall i, lpIds insts' i <-> lpIds (binsts SuccB) i).
  { intros i. rewrite Esplit. unfold insts'. rewrite !lpIds_app.
    rewrite (lpIds_map h); [done |]. intros x. apply withEntry_shape. }
  assert (Hfr1 : forall x, In x insts' -> (iid x < next)%positive).
  { intros x Hx. unfold insts' in Hx. apply in_app_iff in Hx as [Hx | Hx].
    - apply in_map_iff in Hx as (y & <- & Hy). unfold h.
      destruct (withEntry_shape VMap EB NE y) as [-> _].
      apply Hfresh. apply (In_binsts_allInsts F S SuccB); [done |].
      by apply (takeWhile_In isPHI (binsts SuccB)).
    - apply Hfresh. apply (In_binsts_allInsts F S SuccB); [done |].
      rewrite Esplit. apply in_app_iff. by right. }
  assert (HphisS : phisOf F S = phis SuccB) by (unfold phisOf; by rewrite HS).
  unfold extendExit. rewrite HNE. cbn [mbind option_bind].
  rewrite HNEB. cbn [mbind option_bind]. rewrite Hsucc, HS.
  cbn [mbind option_bind]. rewrite Hadd. cbn [mbind option_bind].
  destruct (getLandingPadInst NEB) as [LPad |] eqn:ELP.
  - (* the clone of the exit block is a landing pad *)
    set (PN := mkInst next (ity LPad) (PHINode [])).
    rewrite (updBlock_const_compose (insertAtFirstInsertionPt [PN]) F S
               (mkBlock S insts') eq_refl).
    unfold insertAtFirstInsertionPt. cbn [bid binsts].
    set (insts2 := insertAfterHead _ [PN] insts').
    destruct (insertAfterHead_spec (fun ins => isPHI ins || isLandingPad ins)
                [PN] insts') as (rest2 & E2 & Hr2 & Hins2).
    fold insts2 in Hins2.
    set (A := takeWhile (fun ins => isPHI ins || isLandingPad ins) insts') in *.
    assert (HA : forall x, In x A -> isTerminatorKind (ikind x) = false).
    { intros x Hx. apply takeWhile_In in Hx as [_ Hx].
      apply orb_true_iff in Hx as [Hx | Hx];
        [by apply isPHI_not_terminator | by apply isLandingPad_not_terminator]. }
    assert (Hsucc2 : successors (mkBlock S insts2) = successors SuccB).
    { rewrite <- Hsucc1, Hins2, E2, app_assoc. apply successors_prefix; [done |].
      intros x Hx. apply in_app_iff in Hx as [Hx | [<- | []]]; [by apply HA | done]. }
    assert (Hlp2 : forall i, lpIds insts2 i <-> lpIds (binsts SuccB) i).
    { intros i. rewrite <- Hlp1, Hins2, E2 at 1. rewrite !lpIds_app.
      assert (~ lpIds [PN] i).
      { apply lpIds_none. intros x [<- | []]. done. }
      tauto. }
    set (F2 := updBlock S (fun _ => mkBlock S insts2) F).
    pose proof (sameShape_updBlock F S SuccB insts2 Hnd HS Hsucc2 Hlp2) as Hshape2.
    fold F2 in Hshape2.
    pose proof Hshape2 as (S1 & S2 & S3 & S4 & S5).
    destruct (unifyLandingPads_spec F2 next S (predecessors F2 S) []
                (fun ins => ins) (unifies_id F2 next)) as (g & Hrun & Hg).
    { intros BB HBB. apply S4. apply Hlpad; [done |]. by rewrite <- S3. }
    rewrite updInsts_id in Hrun. rewrite Hrun. cbn [mbind option_bind].
    cbn [app] in Hg. rewrite S3 in Hg.
    assert (Hgs : forall x, iid (g x) = iid x
             /\ isPHI (g x) = isPHI x
             /\ isLandingPad (g x) = isLandingPad x
             /\ isTerminatorKind (ikind (g x)) = isTerminatorKind (ikind x)
             /\ kindSuccessors (ikind (g x)) = kindSuccessors (ikind x)).
    { intros x. by apply (unifies_shape F2 next (predecessors F S) g x). }
    destruct (phis_insertAfterHead (map h (phis SuccB)) rest PN HphiP' Hrest
                eq_refl) as (extra & Hextra & Hphis2).
    fold insts' in Hphis2. fold insts2 in Hphis2.
    eexists (updInsts g F2), _, (Pos.succ next), g, (predecessors F S), extra.
    split; [reflexivity |].
    split.
    { apply (sameShape_trans F F2); [exact Hshape2 |].
      apply sameShape_updInsts. intros x.
      by destruct (Hgs x) as (? & _ & ? & ? & ?). }
    split.
    { apply fresh_updInsts; [intros x; apply Hgs |].
      apply fresh_updBlock; [apply (fresh_mono F next); [done | lia] |].
      cbn [binsts]. intros x Hx. rewrite Hins2 in Hx.
      assert (In x insts' \/ x = PN) as [Hx' | ->].
      { rewrite E2. apply in_app_iff in Hx as [Hx | [<- | Hx]].
        - left. apply in_app_iff. by left.
        - by right.
        - left. apply in_app_iff. by right. }
      - specialize (Hfr1 x Hx'). lia.
      - cbn. lia. }
    split; [by apply (unifies_landingPads F F2) |].
    split.
    { destruct Hextra as [-> | ->]; [by left | right]. by exists (ity LPad). }
    split.
    { intros T HT. rewrite phisOf_updInsts by (intros x; apply Hgs).
      unfold F2. by rewrite phisOf_updBlock_other. }
    rewrite phisOf_updInsts by (intros x; apply Hgs).
    unfold F2. rewrite (phisOf_updBlock_same F S SuccB insts2 HS).
    by rewrite Hphis2, HphisS.
  - (* no landing pad: the phi nodes get their entries, and that is all *)
    eexists (updBlock S (fun _ => mkBlock S insts') F), _, next,
      (fun ins => ins), [], [].
    split; [reflexivity |].
    split; [by apply (sameShape_updBlock F S SuccB) |].
    split; [by apply fresh_updBlock |].
    split; [apply unifies_id |].
    split; [by left |].
    split.
    { intros T HT. rewrite map_id. by rewrite phisOf_updBlock_other. }
    rewrite map_id, app_nil_r, (phisOf_updBlock_same F S SuccB insts' HS), HphisS.
    unfold insts'. by apply takeWhile_app_all.
Qed.

Lemma oneEntry_iff (F : Func) (S : positive) (PN : Instruction) :
  oneEntryPerPredecessor F S PN
  <-> isPHI PN = true /\ map snd (entriesOf PN) ≡ₚ predecessors F S.
Proof.
  unfold oneEntryPerPredecessor, isPHI, entriesOf.
  destruct (ikind PN); split; try done; try (by intros [? _]); by intros [_ ?].
Qed.

Lemma map_lookup {A B} (f : A -> B) (l : list A) (k : nat) :
  map f l !! k = f <$> l !! k.
Proof.
  revert k. induction l as [| x l IH]; intros [| k]; cbn; try done.
Qed.

Lemma lookup_In {A} (l : list A) (k : nat) (x : A) : l !! k = Some x -> In x l.
Proof.
  revert k. induction l as [| y l IH]; intros [| k]; cbn; try done.
  - intros [= ->]. by left.
  - intros H. right. by apply (IH k).
Qed.

Lemma map_fixed {A} (f : A -> A) (l : list A) :
  (forall x, In x l -> f x = x) -> map f l = l.
Proof.
  intros H. induction l as [| x l IH]; cbn; [done |].
  rewrite (H x (or_introl eq_refl)), IH; [done |].
  intros y Hy. apply H. by right.
Qed.

Lemma find_In_Some {A} (p : A -> bool) (l : list A) (x : A) :
  In x l -> p x = true -> exists y, List.find p l = Some y.
Proof.
  intros Hin Hp. destruct (List.find p l) as [y |] eqn:E; [by exists y |].
  rewrite (find_none p l E x Hin) in Hp. discriminate.
Qed.

(** A phi node with an entry for the block [EB] has an incoming value for
    it, and that value is among its entries. *)
Lemma incoming_of_entry (PN : Instruction) (EB : positive) :
  In EB (map snd (entriesOf PN)) ->
  exists v, getIncomingValueForBlock PN EB = Some v
            /\ exists b, In (v, b) (entriesOf PN).
Proof.
  unfold getIncomingValueForBlock, entriesOf.
  destruct (ikind PN); cbn; try done.
  intros Hin. apply in_map_iff in Hin as (e & He & Hin).
  destruct (find_In_Some (fun e => Pos.eqb (snd e) EB) incoming e Hin)
    as [[v b] Hf]; [by apply Pos.eqb_eq |].
  rewrite Hf. exists v. split; [done |]. exists b.
  by apply find_some in Hf as [? _].
Qed.

Lemma phisOf_In (F : Func) (S : positive) (x : Instruction) :
  In x (phisOf F S) -> In x (allInsts F) /\ isPHI x = true.
Proof.
  unfold phisOf. destruct (getBlock F S) as [B |] eqn:E; [| done].
  intros Hx. apply (takeWhile_In isPHI (binsts B)) in Hx as [Hx Hphi].
  split; [by apply (In_binsts_allInsts F S B) | done].
Qed.

Section Step.
Variables (F0 Fc F' : Func) (VMap : ValueMap) (nc : positive)
          (app : list positive) (g : Instruction -> Instruction).
Hypothesis Hfresh : fresh Fc nc.
Hypothesis Hg : unifies F0 nc app g.

(** A later round of the loop leaves the phi nodes of an exit successor
    that is still waiting as they are. *)
Lemma step_waiting (S' : positive) :
  cleanPhis F0 VMap S' ->
  phisOf Fc S' = phisOf F0 S' ->
  phisOf F' S' = map g (phisOf Fc S') ->
  phisOf F' S' = phisOf F0 S'.
Proof.
  intros Hclean Hc H'. rewrite H', Hc. apply map_fixed. intros PN HPN.
  apply (unifies_keeps_phi F0 nc app g PN Hg).
  - rewrite <- Hc in HPN. apply phisOf_In in HPN as [HPN _].
    specialize (Hfresh PN HPN). lia.
  - rewrite <- Hc in HPN. by apply phisOf_In in HPN as [_ ?].
  - intros e He. by apply (Hclean PN HPN e He).
Qed.

(** A later round of the loop keeps what an earlier round has established. *)
Lemma step_done (EB' NE' S' : positive) :
  cleanPhis F0 VMap S' ->
  phisOf F' S' = map g (phisOf Fc S') ->
  predecessors F' S' = predecessors Fc S' ->
  exitExtended F0 Fc VMap EB' NE' S' ->
  exitExtended F0 F' VMap EB' NE' S'.
Proof.
  intros Hclean H' Hpred [H1 H2]. split.
  - intros PN' HPN'. rewrite H' in HPN'.
    apply in_map_iff in HPN' as (PN0 & <- & HPN0).
    apply oneEntry_iff. pose proof (H1 _ HPN0) as HP.
    apply oneEntry_iff in HP as [Hphi Hperm].
    apply phisOf_In in HPN0 as [Hin _].
    assert (Hne : iid PN0 <> nc) by (specialize (Hfresh PN0 Hin); lia).
    destruct (unifies_shape F0 nc app g PN0 Hg) as (_ & -> & _).
    destruct (unifies_entries F0 nc app g PN0 Hg Hne) as [-> _].
    by rewrite Hpred.
  - intros k PN Hk. destruct (H2 k PN Hk) as (PN0 & v & Hk0 & Hid & Hv & Hent).
    exists PN0, v. split; [| done].
    rewrite H', map_lookup, Hk0. cbn. f_equal.
    pose proof (lookup_In _ _ _ Hk0) as HPN0. apply phisOf_In in HPN0 as [Hin Hphi].
    apply (unifies_keeps_phi F0 nc app g PN0 Hg); [| done |].
    + specialize (Hfresh PN0 Hin). lia.
    + intros e He. rewrite Hent in He.
      pose proof (lookup_In _ _ _ Hk) as HPN.
      apply in_app_iff in He as [He | [<- | []]].
      * by apply (Hclean PN HPN e He).
      * cbn. unfold getIncomingValueForBlock in Hv.
        assert (exists b, In (v, b) (entriesOf PN)) as [b Hb].
        { unfold entriesOf. destruct (ikind PN); try discriminate.
          destruct (List.find _ incoming) as [[v' b] |] eqn:Ef; [| discriminate].
          cbn in Hv. apply (inj Some) in Hv. subst v'. exists b.
          by apply find_some in Ef as [? _]. }
        by apply (Hclean PN HPN (v, b) Hb).
Qed.

(** The round of the loop for the exit block [EB] establishes the property
    at its successor. *)
Lemma step_new (EB NE S : positive) (extra : list Instruction) :
  cleanPhis F0 VMap S ->
  NE <> EB -> In EB (predecessors F0 S) ->
  (forall PN, In PN (phisOf F0 S) ->
     map snd (entriesOf PN) ++ [NE] ≡ₚ predecessors F0 S) ->
  phisOf Fc S = phisOf F0 S ->
  predecessors Fc S = predecessors F0 S ->
  predecessors F' S = predecessors F0 S ->
  (extra = []
   \/ exists ty, extra = [mkInst nc ty (PHINode [])]
                 /\ app = predecessors Fc S) ->
  phisOf F' S
  = map g (map (withEntryForNewExit VMap EB NE) (phisOf Fc S) ++ extra) ->
  exitExtended F0 F' VMap EB NE S.
Proof.
  intros Hclean Hne HEB Hperm Hc Hpc Hp' Hextra H'.
  assert (Hold : forall PN, In PN (phisOf F0 S) ->
            exists v, getIncomingValueForBlock PN EB = Some v
              /\ isPHI PN = true
              /\ iid PN <> nc
              /\ entriesOf (withEntryForNewExit VMap EB NE PN)
                 = entriesOf PN ++ [(remapValue VMap v, NE)]
              /\ g (withEntryForNewExit VMap EB NE PN)
                 = withEntryForNewExit VMap EB NE PN).
  { intros PN HPN. pose proof HPN as HPNc. rewrite <- Hc in HPNc.
    apply phisOf_In in HPNc as [Hin Hphi].
    assert (Hid : iid PN <> nc) by (specialize (Hfresh PN Hin); lia).
    destruct (incoming_of_entry PN EB) as (v & Hv & b & Hb).
    { pose proof (Permutation_in EB (Permutation_sym (Hperm PN HPN)) HEB) as Hi.
      apply in_app_iff in Hi as [Hi | [Hi | []]]; [done | congruence]. }
    exists v. split; [done |]. split; [done |]. split; [done |].
    pose proof (withEntry_entries VMap EB NE PN v Hphi Hv) as Hent.
    split; [done |].
    apply (unifies_keeps_phi F0 nc app g _ Hg).
    - by destruct (withEntry_shape VMap EB NE PN) as [-> _].
    - by rewrite isPHI_withEntry.
    - intros e He. rewrite Hent in He. apply in_app_iff in He as [He | [<- | []]].
      + by apply (Hclean PN HPN e He).
      + by apply (Hclean PN HPN (v, b) Hb). }
  split.
  - intros PN' HPN'. rewrite H', Hc, map_app in HPN'. apply oneEntry_iff.
    apply in_app_iff in HPN' as [HPN' | HPN'].
    + apply in_map_iff in HPN' as (y & <- & Hy).
      apply in_map_iff in Hy as (PN & <- & HPN).
      destruct (Hold PN HPN) as (v & Hv & Hphi & Hid & Hent & ->).
      rewrite isPHI_withEntry. split; [done |].
      rewrite Hent, map_app, Hp'. cbn. by apply Hperm.
    + destruct Hextra as [-> | (ty & -> & ->)]; [done |].
      destruct HPN' as [<- | []].
      destruct (unifies_shape F0 nc (predecessors Fc S) g
                  (mkInst nc ty (PHINode [])) Hg) as (_ & -> & _).
      split; [done |].
      rewrite (unifies_entries_next F0 nc (predecessors Fc S) g
                 (mkInst nc ty (PHINode [])) Hg eq_refl eq_refl).
      cbn. by rewrite Hpc, Hp'.
  - intros k PN Hk. pose proof (lookup_In _ _ _ Hk) as HPN.
    destruct (Hold PN HPN) as (v & Hv & Hphi & Hid & Hent & Hfix).
    exists (withEntryForNewExit VMap EB NE PN), v.
    split; [| split; [by destruct (withEntry_shape VMap EB NE PN) | done]].
    rewrite H', Hc, map_lookup.
    rewrite lookup_app_l.
    + rewrite map_lookup, Hk. cbn. by rewrite Hfix.
    + rewrite length_map. by apply lookup_lt_Some in Hk.
Qed.

End Step.

Lemma exitOf_inv (F : Func) (VMap : ValueMap) (EB NE S : positive) :
  exitOf F VMap EB = Some (NE, S) ->
  vmBlock VMap !! EB = Some NE
  /\ exists B, getBlock F NE = Some B /\ successors B = [S].
Proof.
  unfold exitOf. destruct (vmBlock VMap !! EB) as [NE' |]; cbn; [| done].
  destruct (getBlock F NE') as [B |] eqn:EB'; cbn; [| done].
  destruct (successors B) as [| S' [| ? ?]] eqn:ES; try done.
  intros [= -> ->]. split; [done |]. by exists B.
Qed.

Lemma sameShape_block (F F' : Func) (b : positive) (B : BasicBlock) :
  sameShape F F' -> getBlock F b = Some B ->
  exists B', getBlock F' b = Some B' /\ successors B' = successors B.
Proof.
  intros (_ & H & _) HB. specialize (H b). rewrite HB in H. cbn in H.
  destruct (getBlock F' b) as [B' |]; cbn in H; [| done].
  exists B'. split; [done | congruence].
Qed.

Section Exits.
Variables (F0 : Func) (VMap : ValueMap) (exits : list positive).
Hypothesis Hnd0 : List.NoDup (map bid F0).
Hypothesis Hready : forall EB, In EB exits -> exitReady F0 VMap EB.
Hypothesis Hshare :
  forall EB EB' NE NE' S,
    In EB exits -> In EB' exits ->
    exitOf F0 VMap EB = Some (NE, S) -> exitOf F0 VMap EB' = Some (NE', S) ->
    EB = EB'.

Lemma ready_clean (EB NE S : positive) :
  In EB exits -> exitOf F0 VMap EB = Some (NE, S) -> cleanPhis F0 VMap S.
Proof.
  intros Hin HE. destruct (Hready EB Hin) as (NE' & S' & HE' & _ & _ & _ & _ & H).
  rewrite HE in HE'. injection HE' as <- <-.
  intros PN HPN e He. by apply (H PN HPN).
Qed.

(** The loop over the exit blocks: it runs through, and establishes the
    property for every exit block it visits and keeps it for those it has
    visited. *)
Lemma extendExits_spec (rest : list positive) :
  forall (done : list positive) (Fc : Func) (LIc : LoopInfo) (nc : positive),
    List.NoDup rest ->
    (forall x, In x rest -> In x exits) ->
    (forall x, In x done -> In x exits) ->
    (forall x, In x done -> ~ In x rest) ->
    sameShape F0 Fc -> fresh Fc nc ->
    (forall EB NE S, In EB rest -> exitOf F0 VMap EB = Some (NE, S) ->
       phisOf Fc S = phisOf F0 S) ->
    (forall EB NE S, In EB done -> exitOf F0 VMap EB = Some (NE, S) ->
       exitExtended F0 Fc VMap EB NE S) ->
    exists F' LI' n',
      extendExits VMap rest (Fc, LIc, nc) = Some (F', LI', n')
      /\ sameShape F0 F'
      /\ forall EB NE S, In EB done \/ In EB rest ->
           exitOf F0 VMap EB = Some (NE, S) ->
           exitExtended F0 F' VMap EB NE S.
Proof.
  induction rest as [| EB rest IH];
    intros done Fc LIc nc Hnd Hrest Hdone Hdisj Hshape Hfresh Hwait Hdn.
  - exists Fc, LIc, nc. split; [done |]. split; [done |].
    intros EB NE S [H | []] HE. by apply (Hdn EB).
  - apply List.NoDup_cons_iff in Hnd as [HnotIn Hnd].
    assert (HEBin : In EB exits) by (apply Hrest; by left).
    destruct (Hready EB HEBin)
      as (NE & S & HE & Hne & Hpred & HSsome & Hlpad & Hphis).
    destruct (exitOf_inv F0 VMap EB NE S HE) as (HNE & NEB0 & HNEB0 & Hsucc0).
    destruct (sameShape_block F0 Fc NE NEB0 Hshape HNEB0) as (NEB & HNEB & Hsucc).
    rewrite Hsucc0 in Hsucc.
    destruct HSsome as [SuccB0 HS0].
    destruct (sameShape_block F0 Fc S SuccB0 Hshape HS0) as (SuccB & HS & _).
    pose proof Hshape as (Sh1 & Sh2 & Sh3 & Sh4 & Sh5).
    assert (HphiS : phisOf Fc S = phisOf F0 S)
      by (apply (Hwait EB NE S); [by left | done]).
    assert (HphiS' : phis SuccB = phisOf F0 S)
      by (rewrite <- HphiS; unfold phisOf; by rewrite HS).
    destruct (extendExit_spec VMap EB NE S Fc LIc nc NEB SuccB)
      as (F1 & LI1 & n1 & g & app & extra & Hrun & Hshape1 & Hfresh1 & Hg
          & Hextra & Hother & Hsame); try done.
    { by rewrite Sh1. }
    { intros PN HPN. rewrite HphiS' in HPN.
      destruct (incoming_of_entry PN EB) as (v & Hv & _); [| by exists v].
      destruct (Hphis PN HPN) as [Hperm _].
      pose proof (Permutation_in EB (Permutation_sym Hperm) Hpred) as Hi.
      apply in_app_iff in Hi as [Hi | [Hi | []]]; [done | congruence]. }
    { intros HLP BB HBB. apply Sh4. apply Hlpad.
      - apply Sh4. by exists NEB.
      - by rewrite <- Sh3. }
    apply (unifies_landingPads F0 Fc) in Hg; [| done].
    pose proof (sameShape_trans F0 Fc F1 Hshape Hshape1) as Hshape01.
    pose proof Hshape1 as (_ & _ & Sp1 & _).
    destruct (IH (EB :: done) F1 LI1 n1) as (F' & LI' & n' & Hrun' & Hshape' & Hall);
      try done.
    + intros x Hx. apply Hrest. by right.
    + intros x [<- | Hx]; [done | by apply Hdone].
    + intros x [<- | Hx]; [done |]. intros Hx'. apply (Hdisj x Hx). by right.
    + (* the exit blocks still waiting *)
      intros EB' NE' S' HEB' HE'.
      assert (HS' : S' <> S).
      { intros ->. assert (EB' = EB); [| congruence].
        apply (Hshare EB' EB NE' NE S); [apply Hrest; by right | done ..]. }
      apply (step_waiting F0 Fc F1 VMap nc app g Hfresh Hg).
      * apply (ready_clean EB' NE' S'); [apply Hrest; by right | done].
      * apply (Hwait EB' NE' S'); [by right | done].
      * by apply Hother.
    + (* the exit blocks visited *)
      intros EB' NE' S' [<- | HEB'] HE'.
      * rewrite HE in HE'. injection HE' as <- <-.
        apply (step_new F0 Fc F1 VMap nc app g Hfresh Hg EB NE S extra); try done.
        -- by apply (ready_clean EB NE S).
        -- intros PN HPN. by apply (Hphis PN HPN).
        -- by rewrite Sp1, Sh3.
      * assert (HS' : S' <> S).
        { intros ->. assert (EB' = EB) as ->.
          { apply (Hshare EB' EB NE' NE S); [by apply Hdone | done ..]. }
          apply (Hdisj EB HEB'). by left. }
        apply (step_done F0 Fc F1 VMap nc app g Hfresh Hg EB' NE' S').
        -- apply (ready_clean EB' NE' S'); [by apply Hdone | done].
        -- by apply Hother.
        -- by rewrite Sp1.
        -- by apply (Hdn EB' NE' S').
    + exists F', LI', n'. split.
      * cbn [extendExits]. rewrite Hrun. exact Hrun'.
      * split; [done |]. intros EB' NE' S' HEB' HE'.
        apply (Hall EB' NE' S'); [| done].
        destruct HEB' as [H | [<- | H]];
          [left; by right | left; by left | by right].
Qed.

End Exits.

(** ** The rewriting of the new blocks *)

Lemma RemapInstruction_successors (VMap : ValueMap) (ins : Instruction) :
  isTerminatorKind (ikind (RemapInstruction VMap ins))
  = isTerminatorKind (ikind ins)
  /\ kindSuccessors (ikind (RemapInstruction VMap ins))
     = map (remapBlock VMap) (kindSuccessors (ikind ins)).
Proof. unfold RemapInstruction, withKind. cbn. by destruct (ikind ins). Qed.

Lemma successors_remapped (VMap : ValueMap) (b : positive)
    (l : list Instruction) :
  successors (mkBlock b (map (RemapInstruction VMap) l))
  = map (remapBlock VMap) (successors (mkBlock b l)).
Proof.
  unfold successors, getTerminator. cbn. rewrite last_map_Some_map.
  destruct (List.last (map Some l) None) as [x |]; cbn -[RemapInstruction];
    [| done].
  destruct (RemapInstruction_successors VMap x) as [-> Hs].
  by destruct (isTerminatorKind (ikind x)).
Qed.

Lemma edges_remapped (r : positive -> positive) (S : positive)
    (l : list positive) (c : positive) :
  (forall x, Pos.eqb S (r x) = Pos.eqb S x) ->
  map (fun _ => c) (List.filter (Pos.eqb S) (map r l))
  = map (fun _ => c) (List.filter (Pos.eqb S) l).
Proof.
  intros Hr. induction l as [| x l IH]; cbn; [done |].
  rewrite Hr. destruct (Pos.eqb S x); cbn; by rewrite IH.
Qed.

Lemma remapBlock_apart (VMap : ValueMap) (S x : positive) :
  vmBlock VMap !! S = None ->
  (forall b, vmBlock VMap !! b <> Some S) ->
  Pos.eqb S (remapBlock VMap x) = Pos.eqb S x.
Proof.
  intros Hdom Hrng. unfold remapBlock.
  destruct (vmBlock VMap !! x) as [y |] eqn:E; cbn; [| done].
  destruct (Pos.eqb_spec S y) as [-> | Hy].
  - by destruct (Hrng x).
  - destruct (Pos.eqb_spec S x) as [-> | Hx]; [congruence | done].
Qed.

(** The rewriting of the new blocks leaves a block outside of them, its
    phi nodes and the edges into it as they are. *)
Lemma remapNewBlocks_apart (VMap : ValueMap) (NewBBs : list BasicBlock)
    (F : Func) (S : positive) :
  ~ In S (map bid NewBBs) ->
  vmBlock VMap !! S = None ->
  (forall b, vmBlock VMap !! b <> Some S) ->
  phisOf (remapNewBlocks VMap NewBBs F) S = phisOf F S
  /\ predecessors (remapNewBlocks VMap NewBBs F) S = predecessors F S.
Proof.
  intros Hnew Hdom Hrng. unfold remapNewBlocks. split.
  - unfold phisOf. rewrite getBlock_map.
    + destruct (getBlock F S) as [B |] eqn:E; cbn; [| done].
      rewrite (getBlock_bid F S B E).
      destruct (memb S (map bid NewBBs)) eqn:Em; [| done].
      by apply memb_true_iff in Em.
    + intros B. by destruct (memb (bid B) (map bid NewBBs)).
  - unfold predecessors. induction F as [| B F IH]; cbn; [done |].
    rewrite IH. f_equal.
    destruct (memb (bid B) (map bid NewBBs)); [| done].
    cbn [bid]. rewrite successors_remapped, successors_binsts.
    apply edges_remapped. intros x. by apply remapBlock_apart.
Qed.

Lemma exitExtended_transport (F F1 F2 : Func) (VMap : ValueMap)
    (EB NE S : positive) :
  phisOf F2 S = phisOf F1 S -> predecessors F2 S = predecessors F1 S ->
  exitExtended F F1 VMap EB NE S -> exitExtended F F2 VMap EB NE S.
Proof.
  intros Hp Hq [H1 H2]. unfold exitExtended, oneEntryPerPredecessor in *.
  rewrite Hp, Hq. by split.
Qed.


(** A function without landing pads. *)
Lemma no_landingPadRef (F : Func) (v : Value) :
  forallb (fun ins => negb (isLandingPad ins)) (allInsts F) = true ->
  ~ landingPadRef F v.
Proof.
  intros H (ins & Hin & Hlp & _).
  rewrite forallb_forall in H. specialize (H ins Hin). by rewrite Hlp in H.
Qed.

Lemma NoDup_by_computation (l : list positive) :
  bool_decide (NoDup l) = true -> List.NoDup l.
Proof.
  intros H. apply NoDup_ListNoDup. by apply bool_decide_eq_true in H.
Qed.

Lemma fresh_by_computation (F : Func) (n : positive) :
  forallb (fun ins => Pos.ltb (iid ins) n) (allInsts F) = true -> fresh F n.
Proof.
  intros H ins Hin. rewrite forallb_forall in H. by apply Pos.ltb_lt, H.
Qed.

Lemma fooSum_exitsReady (d : Duplication) :
  lasbcDuplication fooSum = Some d ->
  exitsReady (dFn d) (dVMap d) (dExitBlocks d) (dNext d).
Proof.
  intros Hd. vm_compute in Hd. apply (inj Some) in Hd. subst d.
  cbn [dFn dVMap dExitBlocks dNext].
  split; [apply NoDup_by_computation; vm_compute; reflexivity |].
  split; [apply NoDup_by_computation; vm_compute; reflexivity |].
  split; [apply fresh_by_computation; vm_compute; reflexivity |].
  split.
  - intros EB [<- | []]. exists 123%positive, 4%positive.
    split; [vm_compute; reflexivity |].
    split; [discriminate |].
    split; [vm_compute; auto |].
    split; [eexists; vm_compute; reflexivity |].
    split.
    { intros (B & HB & [x Hx]). vm_compute in HB. apply (inj Some) in HB.
      subst B. vm_compute in Hx. discriminate. }
    intros PN HPN. vm_compute in HPN. destruct HPN as [<- | []].
    split; [vm_compute; apply perm_swap |].
    intros e He. vm_compute in He. destruct He as [<- | []].
    split; apply no_landingPadRef; vm_compute; reflexivity.
  - intros EB EB' NE NE' S [<- | []] [<- | []] _ _. reflexivity.
Qed.

Lemma fooSum_clonesApart (d : Duplication) :
  lasbcDuplication fooSum = Some d -> clonesApart d.
Proof.
  intros Hd. vm_compute in Hd. apply (inj Some) in Hd. subst d.
  intros EB NE S [<- | []] HE. vm_compute in HE. injection HE as <- <-.
  cbn [dNewBBs dVMap].
  split; [vm_compute; intuition discriminate |].
  split; [vm_compute; reflexivity |].
  intros b Hb. apply elem_of_map_to_list in Hb. apply list_elem_of_In in Hb.
  vm_compute in Hb. repeat destruct Hb as [Hb | Hb]; try discriminate. done.
Qed.

(** [fooSum] after [LASBCPass::runOnLoop], hooks included: block 4 is
    entered from the exit block 102 and from its clone 123, and its phi
    node has the old entry and one for the clone, carrying the clone of the
    value. *)
Example fooSum_exit_phi_after_lasbc :
  exists F',
    lasbcTransformed fooSum = Some F'
    /\ predecessors F' 4 = [123; 102]%positive
    /\ phisOf F' 4
       = [mkInst 30 i64
            (PHINode [(InstRef 104, 102%positive); (InstRef 124, 123%positive)])].
Proof. eexists. split; [vm_compute; reflexivity |]. vm_compute. done. Qed.


(* ===================================================================== *)
(** * Further properties of the passes *)
(* ===================================================================== *)

Import Shapes.

(** ** Dependency extraction of LoopConditionalLICM *)

Lemma extendsDeps_refl (acc : Value -> bool) (deps : LCLICM.DepsMap) :
  extendsDeps acc deps deps.
Proof.
  unfold extendsDeps. induction deps as [| e deps IH]; constructor; [| done].
  split; [done |]. exists []. by rewrite app_nil_r.
Qed.

Lemma extendsDeps_trans (acc : Value -> bool) (a b c : LCLICM.DepsMap) :
  extendsDeps acc a b -> extendsDeps acc b c -> extendsDeps acc a c.
Proof.
  unfold extendsDeps. intros Hab. revert c.
  induction Hab as [| x y a b [Hk (n1 & Hn1 & Ha1)] Hab IH]; intros c Hbc.
  - inversion Hbc. constructor.
  - inversion Hbc as [| ? z ? c' [Hk' (n2 & Hn2 & Ha2)] Hbc']; subst.
    constructor; [| by apply IH].
    split; [congruence |]. exists (n1 ++ n2).
    split; [by rewrite Hn2, Hn1, app_assoc | by apply Forall_app].
Qed.

Lemma hasKey_extends (acc : Value -> bool) (P : Value)
    (deps d : LCLICM.DepsMap) :
  extendsDeps acc deps d -> LCLICM.hasKey P d = LCLICM.hasKey P deps.
Proof.
  unfold LCLICM.hasKey. induction 1 as [| x y a b [Hk _] _ IH]; [done |].
  cbn. by rewrite Hk, IH.
Qed.

Lemma pushDep_extends (acc : Value -> bool) (P : Value) (m : LCLICM.MemLoc)
    (deps : LCLICM.DepsMap) :
  LCLICM.hasKey P deps = true -> acc (fst m) = true ->
  extendsDeps acc deps (LCLICM.pushDep P m deps).
Proof.
  unfold LCLICM.hasKey, extendsDeps. intros Hk Hm.
  induction deps as [| [K l] rest IH]; [discriminate |].
  cbn in *. destruct (Value_eqb K P) eqn:E.
  - constructor; [| apply extendsDeps_refl].
    split; [done |]. exists [m]. split; [done |]. by constructor.
  - constructor; [| by apply IH].
    split; [done |]. exists []. by rewrite app_nil_r.
Qed.

Section Extraction2.
Variable an : LCLICM.Analyses.

(** The loop over the operands: whatever its outcome, it has only added
    entries for the candidate, with accessible starting addresses; when it
    runs through, every operand is a load through a GEP, and the flag tells
    whether one of them loads the candidate. *)
Lemma checkOperands_spec (F : Func) (L : Loop) (Pre : positive) (P : Value)
    (ops : list Value) :
  forall (saw saw' : bool) (deps : LCLICM.DepsMap) (s : LCLICM.Step),
    LCLICM.checkOperands an F L Pre P ops saw deps = Some (s, saw') ->
    LCLICM.hasKey P deps = true ->
    extendsDeps (LCLICM.isAccessibleInPreheader an F Pre) deps (depsOf s)
    /\ forall d, s = LCLICM.Continue d ->
         Forall (fun op => exists p, loadsThroughGEP F op p) ops
         /\ (saw' = true ->
             saw = true
             \/ Exists (fun op => loadsThroughGEP F op P) ops).
Proof.
  induction ops as [| Op rest IH]; intros saw saw' deps s H Hk.
  - cbn in H. injection H as <- <-. split; [apply extendsDeps_refl |].
    intros d _. split; [constructor | tauto].
  - cbn -[LCLICM.walkGEPChain] in H.
    destruct (LCLICM.asLoad F Op) as [LIa |] eqn:EL;
      [| injection H as <- <-; split; [apply extendsDeps_refl | discriminate]].
    destruct (LCLICM.loadPointer LIa) as [pa |] eqn:EP;
      cbn -[LCLICM.walkGEPChain] in H; [| discriminate].
    destruct (LCLICM.asGEP F pa) as [Ga |] eqn:EG;
      [| injection H as <- <-; split; [apply extendsDeps_refl | discriminate]].
    destruct (LCLICM.walkGEPChain an _ F _ Ga None) as [[sa oa] |];
      cbn -[LCLICM.walkGEPChain] in H; [| discriminate].
    destruct (LCLICM.isAccessibleInPreheader an F Pre sa) eqn:EA; cbn in H;
      [| injection H as <- <-; split; [apply extendsDeps_refl | discriminate]].
    pose proof (pushDep_extends (LCLICM.isAccessibleInPreheader an F Pre) P
                  (sa, LCLICM.getRawData oa) deps Hk EA) as Hpush.
    destruct (IH _ _ _ _ H) as [Hext Hcont].
    { by rewrite (hasKey_extends _ _ _ _ Hpush). }
    split; [by apply (extendsDeps_trans _ _ _ _ Hpush) |].
    intros d ->. destruct (Hcont d eq_refl) as [Hall Hsaw].
    split.
    + constructor; [| done]. exists pa, LIa, Ga. done.
    + intros Hs. destruct (Hsaw Hs) as [Hs' | Hs'].
      * destruct (Value_eqb P pa) eqn:EV; [| by left].
        right. apply Exists_cons_hd. apply Value_eqb_eq in EV. subst pa.
        by exists LIa, Ga.
      * right. by apply Exists_cons_tl.
Qed.

Lemma visitAccess_spec (F : Func) (L : Loop) (Pre : positive)
    (ins : Instruction) (deps : LCLICM.DepsMap) (s : LCLICM.Step) :
  LCLICM.visitAccess an F L Pre ins deps = Some s ->
  extendsDeps (LCLICM.isAccessibleInPreheader an F Pre) deps (depsOf s)
  /\ forall d v P bo op a b,
       s = LCLICM.Continue d ->
       ikind ins = StoreInst (InstRef v) P ->
       LCLICM.hasKey P deps = true ->
       getInst F v = Some bo -> ikind bo = BinaryOperator op a b ->
       (exists p, loadsThroughGEP F a p) /\ (exists p, loadsThroughGEP F b p)
       /\ (loadsThroughGEP F a P \/ loadsThroughGEP F b P).
Proof.
  unfold LCLICM.visitAccess. intros H.
  assert (Skip : Some (LCLICM.Continue deps) = Some s ->
            extendsDeps (LCLICM.isAccessibleInPreheader an F Pre) deps (depsOf s)).
  { intros [= <-]. apply extendsDeps_refl. }
  destruct (ikind ins) as [| | | | | | | val ptr | | | | | |] eqn:EK;
    try (split; [by apply Skip | intros; congruence]).
  destruct (LCLICM.hasKey ptr deps) eqn:Ekey; cbn [negb] in H;
    [| split; [by apply Skip | intros; congruence]].
  destruct val as [ty0 z0 | ty0 | ty0 n0 | ty0 g0 | i];
    try (split; [by apply Skip | intros; congruence]).
  destruct (getInst F i) as [bo0 |] eqn:Ebo;
    cbn [fmap option_fmap option_map] in H;
    [| split; [by apply Skip | intros; congruence]].
  destruct (ikind bo0) as [| op0 a0 b0 | | | | | | | | | | | |] eqn:Ekb;
    try (split; [by apply Skip | intros; congruence]).
  destruct (LCLICM.checkOperands an F L Pre ptr [a0; b0] false deps)
    as [[s0 saw] |] eqn:E; cbn [mbind option_bind] in H; [| discriminate].
  destruct (checkOperands_spec _ _ _ _ _ _ _ _ _ E Ekey) as [Hext Hcont].
  destruct s0 as [d0 | d0]; [| injection H as <-; split; [done | discriminate]].
  destruct saw; cbn in H;
    [| injection H as <-; split; [done | discriminate]].
  injection H as <-. split; [done |].
  intros d v P bo op a b _ [= <- <-] _ Hbo Hk.
  rewrite Ebo in Hbo. injection Hbo as <-. rewrite Ekb in Hk.
  injection Hk as _ <- <-.
  destruct (Hcont d0 eq_refl) as [Hall Hsaw].
  inversion Hall as [| ? ? Ha Hall']; subst.
  inversion Hall' as [| ? ? Hb _]; subst.
  split; [done |]. split; [done |].
  destruct (Hsaw eq_refl) as [? | Hex]; [discriminate |].
  inversion Hex as [? ? Hx | ? ? Hx]; subst; [by left |].
  inversion Hx as [? ? Hy | ? ? Hy]; subst; [by right | inversion Hy].
Qed.

Lemma visitAccesses_spec (F : Func) (L : Loop) (Pre : positive)
    (accs : list Instruction) :
  forall (deps : LCLICM.DepsMap) (s : LCLICM.Step),
    LCLICM.visitAccesses an F L Pre accs deps = Some s ->
    extendsDeps (LCLICM.isAccessibleInPreheader an F Pre) deps (depsOf s)
    /\ forall d ins v P bo op a b,
         s = LCLICM.Continue d -> In ins accs ->
         ikind ins = StoreInst (InstRef v) P ->
         LCLICM.hasKey P deps = true ->
         getInst F v = Some bo -> ikind bo = BinaryOperator op a b ->
         (exists p, loadsThroughGEP F a p) /\ (exists p, loadsThroughGEP F b p)
         /\ (loadsThroughGEP F a P \/ loadsThroughGEP F b P).
Proof.
  induction accs as [| ins0 rest IH]; intros deps s H.
  - cbn in H. injection H as <-. split; [apply extendsDeps_refl |].
    intros d ins v P bo op a b _ [].
  - cbn in H.
    destruct (LCLICM.visitAccess an F L Pre ins0 deps) as [s0 |] eqn:E;
      cbn in H; [| discriminate].
    destruct (visitAccess_spec _ _ _ _ _ _ E) as [Hext0 Hc0].
    destruct s0 as [d0 | d0].
    + destruct (IH _ _ H) as [Hext Hc]. cbn in Hext0.
      split; [by apply (extendsDeps_trans _ _ _ _ Hext0) |].
      intros d ins v P bo op a b -> [<- | Hin] Hk HP Hbo Hkb.
      * by apply (Hc0 d0 v P bo op a b).
      * apply (Hc d ins v P bo op a b eq_refl Hin Hk); [| done | done].
        by rewrite (hasKey_extends _ _ _ _ Hext0).
    + injection H as <-. split; [done | discriminate].
Qed.

End Extraction2.

(** X1 - dependency extraction only ever adds entries to the lists of the
    promotion candidates it was given: whatever it returns, the map has the
    same candidates in the same order, the entries recorded before are still
    there, and every entry added has a starting address that is accessible
    in the preheader ([isAccessibleInPreheader]); started on empty lists,
    every recorded starting address is accessible in the preheader. *)
Theorem lclicm_extraction_records_accessible_addresses
    (an : LCLICM.Analyses) (F : Func) (L : Loop) (Pre : positive)
    (deps0 deps : LCLICM.DepsMap) (ok : bool) :
  LCLICM.populatePromotionPtrDeps an F L Pre deps0 = Some (ok, deps) ->
  map fst deps = map fst deps0
  /\ extendsDeps (LCLICM.isAccessibleInPreheader an F Pre) deps0 deps
  /\ (allEmpty deps0 ->
      forall e m, In e deps -> In m (snd e) ->
        LCLICM.isAccessibleInPreheader an F Pre (fst m) = true).
Proof.
  unfold LCLICM.populatePromotionPtrDeps. intros H.
  destruct (LCLICM.visitAccesses an F L Pre _ deps0) as [s |] eqn:E;
    cbn [mbind option_bind] in H; [| discriminate].
  destruct (visitAccesses_spec an _ _ _ _ _ _ E) as [Hext _].
  assert (depsOf s = deps) as <- by (destruct s; by injection H).
  clear H E. split; [| split; [done |]].
  - induction Hext as [| x y a b [Hk _] _ IH]; [done |]. cbn. by rewrite Hk, IH.
  - intros H0. unfold allEmpty in H0.
    induction Hext as [| x y a b [_ (new & Hn & Hacc)] _ IH]; [intros ? ? [] |].
    inversion H0 as [| ? ? Hx H0']; subst.
    intros e m [<- | He] Hm.
    + rewrite Hn, Hx in Hm. cbn in Hm.
      by apply (proj1 (List.Forall_forall _ _) Hacc).
    + by apply (IH H0' e m).
Qed.

(** On the regression test. *)
Lemma lclicm_extraction_records_accessible_addresses_witness :
  let deps := [(InstRef 16%positive, [(InstRef 15%positive, 100); (gArrB, 6400)])] in
  map fst deps = [InstRef 16%positive]
  /\ extendsDeps (LCLICM.isAccessibleInPreheader (fnAnalyses true) fnTest 4)
       [(InstRef 16%positive, [])] deps
  /\ (allEmpty [(InstRef 16%positive, [])] ->
      forall e m, In e deps -> In m (snd e) ->
        LCLICM.isAccessibleInPreheader (fnAnalyses true) fnTest 4 (fst m) = true).
Proof.
  apply (lclicm_extraction_records_accessible_addresses
           (fnAnalyses true) fnTest fnInner 4%positive
           [(InstRef 16%positive, [])] _ true).
  vm_compute. reflexivity.
Defined.

(** X2 - when dependency extraction reports success, every store in the loop to
    a promotion candidate whose stored value is a binary operator fits
    "ptr_a = ptr_a <BinaryOperator> ptr_b": both operands of the operator
    are loads through pointers computed by GEPs, and one of them loads
    through the candidate itself. *)
Theorem lclicm_extraction_success_means_format
    (an : LCLICM.Analyses) (F : Func) (L : Loop) (Pre : positive)
    (deps0 deps : LCLICM.DepsMap)
    (ins bo : Instruction) (v : positive) (P a b : Value) (op : Opcode) :
  LCLICM.populatePromotionPtrDeps an F L Pre deps0 = Some (true, deps) ->
  In ins (LCLICM.memoryAccesses F L) ->
  ikind ins = StoreInst (InstRef v) P ->
  LCLICM.hasKey P deps0 = true ->
  getInst F v = Some bo -> ikind bo = BinaryOperator op a b ->
  (exists p, loadsThroughGEP F a p) /\ (exists p, loadsThroughGEP F b p)
  /\ (loadsThroughGEP F a P \/ loadsThroughGEP F b P).
Proof.
  unfold LCLICM.populatePromotionPtrDeps. intros H Hin Hk HP Hbo Hkb.
  destruct (LCLICM.visitAccesses an F L Pre _ deps0) as [s |] eqn:E;
    cbn [mbind option_bind] in H; [| discriminate].
  destruct (visitAccesses_spec an _ _ _ _ _ _ E) as [_ Hc].
  destruct s as [d | d]; [| discriminate].
  by apply (Hc d ins v P bo op a b).
Qed.

(** The store of the regression test: [*%6 = *%6 + b[i][j]]. *)
Lemma lclicm_extraction_success_means_format_witness :
  (exists p, loadsThroughGEP fnTest (InstRef 24%positive) p)
  /\ (exists p, loadsThroughGEP fnTest (InstRef 23%positive) p)
  /\ (loadsThroughGEP fnTest (InstRef 24%positive) (InstRef 16%positive)
      \/ loadsThroughGEP fnTest (InstRef 23%positive) (InstRef 16%positive)).
Proof.
  apply (lclicm_extraction_success_means_format
           (fnAnalyses true) fnTest fnInner 4%positive
           [(InstRef 16%positive, [])]
           [(InstRef 16%positive, [(InstRef 15%positive, 100); (gArrB, 6400)])]
           (mkInst 26 VoidTy (StoreInst (InstRef 25%positive) (InstRef 16%positive)))
           (mkInst 25 i64 (BinaryOperator Add (InstRef 24%positive) (InstRef 23%positive)))
           25%positive (InstRef 16%positive) (InstRef 24%positive)
           (InstRef 23%positive) Add).
  - vm_compute. reflexivity.
  - vm_compute. tauto.
  - reflexivity.
  - vm_compute. reflexivity.
  - vm_compute. reflexivity.
  - reflexivity.
Defined.

(** ** What the guard of LoopConditionalLICM computes *)

Lemma land_bit (a b : bool) : Z.land (bit a) (bit b) = bit (a && b).
Proof. by destruct a, b. Qed.

Lemma lor_bit (a : bool) : Z.lor (bit a) (bit a) = bit a.
Proof. by destruct a. Qed.

Section Guard.
Variables (F : Func) (inp : Sem.Inputs) (w : N) (val : Value -> Z).

Lemma pairReady_insert (rg : gmap positive Z) (next k : positive) (z : Z)
    (OCP : LCLICM.OverlapConditionPair) :
  (next <= k)%positive -> pairReady F inp w val rg next OCP ->
  pairReady F inp w val (<[k := z]> rg) (Pos.succ k) OCP.
Proof.
  intros Hk (H1 & H2 & H3 & H4 & H5 & H6).
  split; [done |]. split; [done |].
  split; [rewrite evalValue_insert_fresh; [done |];
          intros j Hj; specialize (H5 j Hj); lia |].
  split; [rewrite evalValue_insert_fresh; [done |];
          intros j Hj; specialize (H6 j Hj); lia |].
  split; intros j Hj; [specialize (H5 j Hj) | specialize (H6 j Hj)]; lia.
Qed.

(** The compares and the 'or' of every pair: each 'or' holds whether start
    A lies after end B. *)
Lemma emitOrs_exec (OCPs : list LCLICM.OverlapConditionPair) :
  forall (next : positive) (m : Sem.Machine),
    Forall (pairReady F inp w val (Sem.regs m) next) OCPs ->
    exists m',
      (forall rest,
         Sem.execBody F inp m (snd (fst (LCLICM.emitOrs OCPs next)) ++ rest)
         = Sem.execBody F inp m' rest)
      /\ (next <= snd (LCLICM.emitOrs OCPs next))%positive
      /\ (forall j, (j < next)%positive -> Sem.regs m' !! j = Sem.regs m !! j)
      /\ Forall2
           (fun o OCP =>
              exists j, o = InstRef j
                        /\ (j < snd (LCLICM.emitOrs OCPs next))%positive
                        /\ Sem.regs m' !! j = Some (bit (startAfterEnd w val OCP)))
           (fst (fst (LCLICM.emitOrs OCPs next))) OCPs.
Proof.
  induction OCPs as [| OCP rest IH]; intros next m Hall.
  - exists m. cbn. split; [done |]. split; [lia |]. split; [done | constructor].
  - inversion Hall as [| ? ? Hp Hrest]; subst.
    destruct Hp as (H1 & H2 & H3 & H4 & H5 & H6).
    set (n1 := Pos.succ next). set (n2 := Pos.succ n1). set (n3 := Pos.succ n2).
    set (b := startAfterEnd w val OCP).
    set (m1 := Sem.mkMachine (<[next := bit b]> (Sem.regs m)) (Sem.mem m) (Sem.trace m)).
    set (m2 := Sem.mkMachine (<[n1 := bit b]> (Sem.regs m1)) (Sem.mem m) (Sem.trace m)).
    set (m3 := Sem.mkMachine (<[n2 := bit b]> (Sem.regs m2)) (Sem.mem m) (Sem.trace m)).
    destruct (IH n3 m3) as (m' & Hexec & Hle & Hkeep & Hors).
    { eapply Forall_impl; [exact Hrest |]. intros o Ho. cbn.
      apply (pairReady_insert _ n2 n2); [lia |].
      apply (pairReady_insert _ n1 n1); [lia |].
      apply (pairReady_insert _ next next); [lia | done]. }
    exists m'. cbn [LCLICM.emitOrs]. fold n1 n2 n3.
    destruct (LCLICM.emitOrs rest n3) as [[ors insts] n] eqn:E.
    cbn [fst snd] in *.
    split; [| split; [lia | split]].
    + intros tl. cbn [app].
      erewrite execBody_step;
        [| done | eapply execInst_icmp; [exact H1 | exact H3 | exact H4]].
      erewrite execBody_step;
        [| done | eapply execInst_icmp; [exact H2 | |]].
      2: { cbn [Sem.regs]. rewrite evalValue_insert_fresh; [exact H4 |].
           intros j Hj. specialize (H6 j Hj). lia. }
      2: { cbn [Sem.regs]. rewrite evalValue_insert_fresh; [exact H3 |].
           intros j Hj. specialize (H5 j Hj). lia. }
      erewrite execBody_step; [| done | apply execInst_binop].
      2: { cbn. rewrite lookup_insert_ne by lia. apply lookup_insert_eq. }
      2: { cbn. apply lookup_insert_eq. }
      cbn [Sem.regs Sem.mem Sem.trace Sem.widthOf Sem.evalICmp Sem.evalBinOp].
      fold (bit (Sem.signed w (val (LCLICM.EndB OCP))
                 <? Sem.signed w (val (LCLICM.StartA OCP)))).
      fold (startAfterEnd w val OCP). fold b. rewrite lor_bit.
      apply (Hexec tl).
    + intros j Hj. rewrite Hkeep by lia. cbn.
      rewrite !lookup_insert_ne by lia. done.
    + constructor.
      * exists n2. split; [done |]. split; [lia |].
        rewrite Hkeep by lia. cbn. apply lookup_insert_eq.
      * done.
Qed.

(** The chain of 'and's: its last value is the conjunction. *)
Lemma emitAnds_exec (Ors : list Value) :
  forall (bs : list bool) (FinalCond : Value) (b0 : bool) (next : positive)
         (m : Sem.Machine),
    Sem.evalValue inp (Sem.regs m) FinalCond = Some (bit b0) ->
    Forall2
      (fun o b => exists j, o = InstRef j /\ (j < next)%positive
                            /\ Sem.regs m !! j = Some (bit b)) Ors bs ->
    exists m',
      (forall rest,
         Sem.execBody F inp m
           (snd (fst (LCLICM.emitAnds FinalCond Ors next)) ++ rest)
         = Sem.execBody F inp m' rest)
      /\ Sem.evalValue inp (Sem.regs m')
           (fst (fst (LCLICM.emitAnds FinalCond Ors next)))
         = Some (bit (b0 && forallb (fun b => b) bs)).
Proof.
  induction Ors as [| o rest IH]; intros bs FinalCond b0 next m Hc Hors.
  - inversion Hors; subst. exists m. cbn. split; [done |].
    by rewrite andb_true_r.
  - inversion Hors as [| ? b ? bs' (j & -> & Hj & Hb) Hrest]; subst.
    set (m1 := Sem.mkMachine (<[next := bit (b0 && b)]> (Sem.regs m))
                 (Sem.mem m) (Sem.trace m)).
    destruct (IH bs' (InstRef next) (b0 && b) (Pos.succ next) m1)
      as (m' & Hexec & Hval).
    { cbn. apply lookup_insert_eq. }
    { eapply Forall2_impl; [exact Hrest |].
      intros o' b' (j' & -> & Hj' & Hb'). exists j'. split; [done |].
      split; [lia |]. cbn. by rewrite lookup_insert_ne by lia. }
    exists m'. cbn [LCLICM.emitAnds].
    destruct (LCLICM.emitAnds (InstRef next) rest (Pos.succ next))
      as [[c insts] n] eqn:E.
    cbn [fst snd] in *. split.
    + intros tl. cbn [app].
      erewrite execBody_step; [| done | apply execInst_binop; [exact Hc | exact Hb]].
      cbn [Sem.evalBinOp]. rewrite land_bit. apply (Hexec tl).
    + rewrite Hval. cbn. by rewrite andb_assoc.
Qed.

End Guard.

(** X3 - the guard LoopConditionalLICM emits for the pairs [OCPs]: the compares,
    the 'or's, the 'and's and the conditional branch take the true
    destination exactly when, for every pair, start A lies after end B
    (the second compare of a pair repeats the first, so whether end A lies
    before start B has no influence). *)
Theorem lclicm_guard_is_start_after_end
    (F : Func) (inp : Sem.Inputs) (w : N) (val : Value -> Z)
    (OCPs : list LCLICM.OverlapConditionPair) (next : positive)
    (m : Sem.Machine) (TrueDest FalseDest : positive) :
  OCPs <> [] ->
  Forall (pairReady F inp w val (Sem.regs m) next) OCPs ->
  exists FinalCond insts3 n3 m',
    LCLICM.emitFinalCond (fst (fst (LCLICM.emitOrs OCPs next)))
      (snd (LCLICM.emitOrs OCPs next))
    = Some (FinalCond, insts3, n3)
    /\ Sem.execBody F inp m
         (snd (fst (LCLICM.emitOrs OCPs next)) ++ insts3
          ++ [mkInst n3 VoidTy (CondBr FinalCond TrueDest FalseDest)])
       = Some (m', Sem.Goto (if forallb (startAfterEnd w val) OCPs
                             then TrueDest else FalseDest)).
Proof.
  intros Hne Hall.
  destruct (emitOrs_exec F inp w val OCPs next m Hall)
    as (m1 & Hexec & Hle & Hkeep & Hors).
  destruct (LCLICM.emitOrs OCPs next) as [[Ors insts2] n2] eqn:E.
  cbn [fst snd] in *.
  assert (Hbr : forall (mx : Sem.Machine) c n (b : bool),
            Sem.evalValue inp (Sem.regs mx) c = Some (bit b) ->
            Sem.execBody F inp mx [mkInst n VoidTy (CondBr c TrueDest FalseDest)]
            = Some (mx, Sem.Goto (if b then TrueDest else FalseDest))).
  { intros mx c n b Hv. cbn. unfold Sem.execTerminator. cbn. rewrite Hv. cbn.
    by destruct b. }
  destruct Hors as [| o0 p0 ors ps (j0 & -> & Hj0 & Hb0) Hors]; [done |].
  destruct Hors as [| o1 p1 ors ps (j1 & -> & Hj1 & Hb1) Hors].
  - (* one pair: its 'or' is the condition *)
    exists (InstRef j0), [], n2, m1. split; [done |].
    rewrite Hexec. cbn [app forallb]. rewrite andb_true_r. by apply Hbr.
  - (* the first 'and', then the chain *)
    unfold LCLICM.emitFinalCond. cbn [lookup list_lookup mbind option_bind drop].
    rewrite drop_0.
    set (m2 := Sem.mkMachine
                 (<[n2 := bit (startAfterEnd w val p0 && startAfterEnd w val p1)]>
                    (Sem.regs m1)) (Sem.mem m1) (Sem.trace m1)).
    destruct (emitAnds_exec F inp ors (map (startAfterEnd w val) ps) (InstRef n2)
                (startAfterEnd w val p0 && startAfterEnd w val p1)
                (Pos.succ n2) m2) as (m3 & Hexec3 & Hval3).
    { cbn. apply lookup_insert_eq. }
    { clear -Hors. induction Hors as [| o p ors ps (j & -> & Hj & Hb) _ IH];
        [constructor |].
      cbn. constructor; [| exact IH]. exists j. split; [done |].
      split; [lia |]. cbn. by rewrite lookup_insert_ne by lia. }
    destruct (LCLICM.emitAnds (InstRef n2) ors (Pos.succ n2))
      as [[c insts] n3] eqn:E3.
    cbn [fst snd] in *.
    exists c, (mkInst n2 (IntTy 1) (BinaryOperator And (InstRef j0) (InstRef j1)) :: insts),
      n3, m3.
    split; [done |].
    rewrite Hexec. cbn [app].
    erewrite execBody_step; [| done | apply execInst_binop; [exact Hb0 | exact Hb1]].
    cbn [Sem.evalBinOp]. rewrite land_bit. fold m2.
    rewrite Hexec3. rewrite (Hbr m3 c n3 _ Hval3).
    assert (forallb (fun b : bool => b) (map (startAfterEnd w val) ps)
            = forallb (startAfterEnd w val) ps) as ->.
    { clear. induction ps as [| p ps IH]; cbn; [done | by rewrite IH]. }
    cbn [forallb]. by rewrite andb_assoc.
Qed.

(** Two pairs of constants: start A after end B in both, and in one only. *)
Lemma lclicm_guard_is_start_after_end_witness :
  let p := LCLICM.mkOCP (c64 50) (c64 0) (c64 60) (c64 20) in
  let q := LCLICM.mkOCP (c64 10) (c64 70) (c64 15) (c64 90) in
  let val v := match v with ConstantInt _ z => z | _ => 0 end in
  let m := Sem.mkMachine ∅ ∅ [] in
  forallb (startAfterEnd 64 val) [p; p] = true
  /\ forallb (startAfterEnd 64 val) [p; q] = false
  /\ exists FinalCond insts3 n3 m',
       LCLICM.emitFinalCond (fst (fst (LCLICM.emitOrs [p; q] 100)))
         (snd (LCLICM.emitOrs [p; q] 100))
       = Some (FinalCond, insts3, n3)
       /\ Sem.execBody fnTest (fnInputs 0) m
            (snd (fst (LCLICM.emitOrs [p; q] 100)) ++ insts3
             ++ [mkInst n3 VoidTy (CondBr FinalCond 7 8)])
          = Some (m', Sem.Goto (if forallb (startAfterEnd 64 val) [p; q]
                                then 7%positive else 8%positive)).
Proof.
  cbv zeta. split; [reflexivity |]. split; [reflexivity |].
  apply (lclicm_guard_is_start_after_end fnTest (fnInputs 0) 64); [done |].
  repeat constructor; intros j Hj; discriminate.
Defined.

(** ** The pairs of LoopConditionalLICM's guard *)

Lemma pairCount_closed (n : nat) : (2 * pairCount n = n * (n - 1))%nat.
Proof. induction n as [| [| k] IH]; cbn in *; lia. Qed.

Lemma pairsWith_length (F : Func) (A : Value * Value)
    (rest : list LCLICM.MemLoc) :
  forall (n n' : positive) ps insts,
    LCLICM.pairsWith F A rest n = Some (ps, insts, n') ->
    length ps = length rest.
Proof.
  induction rest as [| d rest IH]; intros n n' ps insts H; cbn in H.
  - by injection H as <- _ _.
  - destruct (LCLICM.GetStartAndEnd F d n) as [[[[sb eb] i1] n1] |];
      cbn [mbind option_bind] in H; [| discriminate].
    destruct (LCLICM.pairsWith F A rest n1) as [[[ps' i2] n2] |] eqn:E;
      cbn [mbind option_bind] in H; [| discriminate].
    injection H as <- _ _. cbn. f_equal. by apply (IH _ _ _ _ E).
Qed.

Lemma pairsOfList_length (F : Func) (l : list LCLICM.MemLoc) :
  forall (n n' : positive) ps insts,
    LCLICM.pairsOfList F l n = Some (ps, insts, n') ->
    length ps = pairCount (length l).
Proof.
  induction l as [| d [| d' rest] IH]; intros n n' ps insts H.
  - cbn in H. by injection H as <- _ _.
  - cbn in H. by injection H as <- _ _.
  - rewrite pairsOfList_unfold in H.
    destruct (LCLICM.GetStartAndEnd F d n) as [[[[sa ea] i1] n1] |];
      cbn [mbind option_bind] in H; [| discriminate].
    destruct (LCLICM.pairsWith F (sa, ea) (d' :: rest) n1)
      as [[[ps1 i2] n2] |] eqn:E1; cbn [mbind option_bind] in H; [| discriminate].
    destruct (LCLICM.pairsOfList F (d' :: rest) n2)
      as [[[ps2 i3] n3] |] eqn:E2; cbn [mbind option_bind] in H; [| discriminate].
    injection H as <- _ _. rewrite length_app.
    rewrite (pairsWith_length _ _ _ _ _ _ _ E1), (IH _ _ _ _ E2). done.
Qed.

(** X4 - the guard tests one overlap condition for every pair of entries
    recorded for the same promotion candidate, and none across candidates:
    for lists of lengths [n_1, ..., n_k] there are
    [n_1 (n_1 - 1) / 2 + ... + n_k (n_k - 1) / 2] pairs, and as many
    'or's. *)
Theorem lclicm_one_condition_per_pair_of_a_candidate
    (F : Func) (deps : LCLICM.DepsMap) (next n : positive)
    (OCPs : list LCLICM.OverlapConditionPair) (insts : list Instruction) :
  LCLICM.pairsOfMap F deps next = Some (OCPs, insts, n) ->
  length OCPs = pairsTested deps
  /\ length (fst (fst (LCLICM.emitOrs OCPs n))) = pairsTested deps.
Proof.
  intros H. rewrite emitOrs_length.
  assert (length OCPs = pairsTested deps); [| done].
  revert next n OCPs insts H. unfold pairsTested.
  induction deps as [| e rest IH]; intros next n OCPs insts H.
  - cbn in H. by injection H as <- _ _.
  - cbn [LCLICM.pairsOfMap] in H.
    destruct (LCLICM.pairsOfList F (snd e) next) as [[[ps i1] n1] |] eqn:E1;
      cbn [mbind option_bind] in H; [| discriminate].
    destruct (LCLICM.pairsOfMap F rest n1) as [[[ps' i2] n2] |] eqn:E2;
      cbn [mbind option_bind] in H; [| discriminate].
    injection H as <- _ _. rewrite length_app. cbn.
    by rewrite (pairsOfList_length _ _ _ _ _ _ E1), (IH _ _ _ _ E2).
Qed.

(** Two candidates with three and two entries: 3 + 1 pairs (and not the
    10 pairs among five entries). *)
Lemma lclicm_one_condition_per_pair_of_a_candidate_witness :
  let deps := [(InstRef 16%positive, [(gArrB, 8); (gArrB, 16); (gPA, 8)]);
               (InstRef 15%positive, [(gArrB, 8); (gPA, 16)])] in
  exists OCPs insts n,
    LCLICM.pairsOfMap fnTest deps 100 = Some (OCPs, insts, n)
    /\ length OCPs = 4%nat
    /\ length (fst (fst (LCLICM.emitOrs OCPs n))) = 4%nat.
Proof.
  cbv zeta. eexists _, _, _. split; [vm_compute; reflexivity |].
  eapply (lclicm_one_condition_per_pair_of_a_candidate fnTest
           [(InstRef 16%positive, [(gArrB, 8); (gArrB, 16); (gPA, 8)]);
            (InstRef 15%positive, [(gArrB, 8); (gPA, 16)])] 100%positive).
  vm_compute. reflexivity.
Defined.

(** ** What [LoopConditionalLICMPass::runOnLoop] transforms *)

(** X5 - LoopConditionalLICM duplicates a loop only if the loop has not been
    processed, is in loop-simplify form, has an induction variable, is safe
    to clone, has one exiting block and one exit block and no sub-loops,
    has at least one promotion candidate, and dependency extraction has
    succeeded on the candidates. *)
Theorem lclicm_duplicates_only_checked_loops
    (an : LCLICM.Analyses) (p p' : Pass) (l : positive) :
  LCLICM.runOnLoop an p l = Some (true, p') ->
  exists L Pre,
    passLI p !! l = Some L
    /\ getLoopPreheader (passFn p) L = Some Pre
    /\ (l ∉ passProcessed p)
    /\ isLoopSimplifyForm (passFn p) L = true
    /\ is_Some (LCLICM.getInductionVariable an (passFn p) L)
    /\ isSafeToClone (passFn p) L = true
    /\ is_Some (getExitingBlock (passFn p) L)
    /\ is_Some (getExitBlock (passFn p) L)
    /\ getSubLoops L = []
    /\ LCLICM.collectPromotionCandidates an (passFn p) L <> []
    /\ exists deps0 deps,
         LCLICM.initDeps (LCLICM.collectPromotionCandidates an (passFn p) L) []
         = Some deps0
         /\ LCLICM.populatePromotionPtrDeps an (passFn p) L Pre deps0
            = Some (true, deps).
Proof.
  unfold LCLICM.runOnLoop. intros H.
  destruct (passLI p !! l) as [L |] eqn:EL; cbn [mbind option_bind] in H;
    [| discriminate].
  destruct (getLoopPreheader (passFn p) L) as [Pre |] eqn:EP;
    cbn [mbind option_bind] in H; [| discriminate].
  destruct (getHeader L) as [Hd |] eqn:EH; cbn [mbind option_bind] in H;
    [| discriminate].
  destruct (bool_decide (l ∈ passProcessed p)) eqn:Epr; [discriminate |].
  apply bool_decide_eq_false in Epr.
  unfold LCLICM.isCurrentLoopACandidate in H.
  cbn [li CurrentLoop fn] in H. rewrite EL in H. cbn [mbind option_bind] in H.
  destruct (isLoopSimplifyForm (passFn p) L) eqn:E1; cbn [negb] in H;
    [| discriminate].
  destruct (bool_decide (is_Some (LCLICM.getInductionVariable an (passFn p) L)))
    eqn:E2; cbn [negb] in H; [| discriminate].
  destruct (isSafeToClone (passFn p) L) eqn:E3; cbn [negb] in H; [| discriminate].
  destruct (bool_decide (is_Some (getExitingBlock (passFn p) L))) eqn:E4;
    cbn [negb] in H; [| discriminate].
  destruct (bool_decide (is_Some (getExitBlock (passFn p) L))) eqn:E5;
    cbn [negb] in H; [| discriminate].
  destruct (bool_decide (getSubLoops L = [])) eqn:E6; cbn [negb] in H;
    [| discriminate].
  apply bool_decide_eq_true in E2, E4, E5, E6.
  cbn [mbind option_bind negb] in H.
  destruct (LCLICM.collectPromotionCandidates an (passFn p) L) as [| s0 sets]
    eqn:Ec; [discriminate |].
  destruct (LCLICM.initDeps (s0 :: sets) []) as [deps0 |] eqn:Ei;
    cbn [mbind option_bind] in H; [| discriminate].
  destruct (LCLICM.populatePromotionPtrDeps an (passFn p) L Pre deps0)
    as [[[|] deps] |] eqn:Epop; cbn [mbind option_bind negb] in H;
    [| discriminate | discriminate].
  exists L, Pre. rewrite Ec. do 10 (split; [done |]). by exists deps0, deps.
Qed.

(** The inner loop of the regression test. *)
Lemma lclicm_duplicates_only_checked_loops_witness :
  exists L Pre,
    fnLI !! 2%positive = Some L
    /\ getLoopPreheader fnTest L = Some Pre
    /\ (2%positive ∉ (∅ : gset positive))
    /\ isLoopSimplifyForm fnTest L = true
    /\ is_Some (LCLICM.getInductionVariable (fnAnalyses true) fnTest L)
    /\ isSafeToClone fnTest L = true
    /\ is_Some (getExitingBlock fnTest L)
    /\ is_Some (getExitBlock fnTest L)
    /\ getSubLoops L = []
    /\ LCLICM.collectPromotionCandidates (fnAnalyses true) fnTest L <> []
    /\ exists deps0 deps,
         LCLICM.initDeps
           (LCLICM.collectPromotionCandidates (fnAnalyses true) fnTest L) []
         = Some deps0
         /\ LCLICM.populatePromotionPtrDeps (fnAnalyses true) fnTest L Pre deps0
            = Some (true, deps).
Proof.
  eapply (lclicm_duplicates_only_checked_loops (fnAnalyses true)
            (passOn fnTest fnLI) _ 2%positive).
  vm_compute. reflexivity.
Defined.

(** ** The keys of [PromotionPtrDeps] *)

Lemma hasKey_app (P : Value) (a b : LCLICM.DepsMap) :
  LCLICM.hasKey P (a ++ b) = LCLICM.hasKey P a || LCLICM.hasKey P b.
Proof. unfold LCLICM.hasKey. apply existsb_app. Qed.

Lemma initDeps_spec (sets : list (list Value)) :
  forall deps d,
    LCLICM.initDeps sets deps = Some d ->
    (exists new, d = deps ++ new /\ allEmpty new
                 /\ forall e, In e new ->
                      LCLICM.hasKey (fst e) deps = false
                      /\ exists set, In set sets /\ head set = Some (fst e))
    /\ (forall set, In set sets ->
          exists P, head set = Some P /\ LCLICM.hasKey P d = true).
Proof.
  induction sets as [| set rest IH]; intros deps d H.
  - cbn in H. injection H as <-. split; [| intros ? []].
    exists []. rewrite app_nil_r. split; [done |]. split; [constructor | intros ? []].
  - cbn [LCLICM.initDeps] in H.
    destruct (head set) as [P |] eqn:EP; cbn [mbind option_bind] in H;
      [| discriminate].
    destruct (LCLICM.hasKey P deps) eqn:EK.
    + destruct (IH _ _ H) as [(new & -> & Hemp & Hnew) Hkeys]. split.
      * exists new. split; [done |]. split; [done |].
        intros e He. destruct (Hnew e He) as [Hk (s & Hs & Hh)].
        split; [done |]. exists s. split; [by right | done].
      * intros s [<- | Hs]; [| by apply Hkeys].
        exists P. split; [done |]. by rewrite hasKey_app, EK.
    + destruct (IH _ _ H) as [(new & -> & Hemp & Hnew) Hkeys]. split.
      * exists ((P, []) :: new). split; [by rewrite <- app_assoc |].
        split; [by constructor |].
        intros e [<- | He].
        -- split; [done |]. exists set. split; [by left | done].
        -- destruct (Hnew e He) as [Hk (s & Hs & Hh)].
           rewrite hasKey_app in Hk. apply orb_false_iff in Hk as [Hk _].
           split; [done |]. exists s. split; [by right | done].
      * intros s [<- | Hs]; [| by apply Hkeys].
        exists P. split; [done |].
        rewrite !hasKey_app. cbn. by rewrite Value_eqb_refl, orb_true_r.
Qed.

(** X6 - [PromotionPtrDeps] as [runOnLoop] sets it up: every must-alias set has
    its first pointer as a key, every key is the first pointer of a set,
    and every list is empty; the set-up fails only on an empty set. *)
Theorem lclicm_candidates_start_with_empty_lists (sets : list (list Value)) :
  (is_Some (LCLICM.initDeps sets []) <-> Forall (fun set => set <> []) sets)
  /\ forall d,
       LCLICM.initDeps sets [] = Some d ->
       allEmpty d
       /\ (forall set, In set sets ->
             exists P, head set = Some P /\ LCLICM.hasKey P d = true)
       /\ (forall e, In e d -> exists set, In set sets /\ head set = Some (fst e)).
Proof.
  split.
  - generalize (@nil (Value * list LCLICM.MemLoc)).
    induction sets as [| set rest IH]; intros deps; cbn [LCLICM.initDeps].
    + split; [constructor | by eexists].
    + destruct set as [| P set']; cbn [head mbind option_bind].
      * split; [intros [? ?]; discriminate |].
        intros Hall. inversion Hall; subst. done.
      * rewrite IH. split; [intros Hall; by constructor |].
        intros Hall. by inversion Hall.
  - intros d H. destruct (initDeps_spec sets [] d H)
      as [(new & -> & Hemp & Hnew) Hkeys].
    split; [done |]. split; [done |].
    intros e He. by destruct (Hnew e He) as [_ ?].
Qed.

(** ** The guard of LASBC, where the product does not overflow *)

(** X7 - the guard LASBC emits, run on a machine where [N] holds the [w]-bit
    pattern [v]: provided [N * (w / 8)] does not overflow [w] bits, the
    branch takes the true destination if [N > 0] and
    [N * (w / 8) <= INT32_MAX], and the false destination otherwise. *)
Theorem lasbc_guard_selects_by_bound
    (F : Func) (inp : Sem.Inputs) (m : Sem.Machine) (n : Value) (w : N) (v : Z)
    (next TrueDest FalseDest : positive) :
  (32 < w)%N ->
  getType F n = Some (IntTy w) ->
  Sem.evalValue inp (Sem.regs m) n = Some v ->
  0 <= v < 2 ^ Z.of_N w ->
  - 2 ^ (Z.of_N w - 1) <= Sem.signed w v * Z.of_N (w / 8) < 2 ^ (Z.of_N w - 1) ->
  (forall j, n = InstRef j -> (j < next)%positive) ->
  getType F (InstRef (Pos.succ next)) = Some (IntTy w) ->
  is_Some (getType F (InstRef (Pos.succ (Pos.succ (Pos.succ next))))) ->
  exists m' dest,
    Sem.execBody F inp m
      (LASBC.guardInsts (IntTy w) n next
       ++ [mkInst (Pos.succ (Pos.succ (Pos.succ (Pos.succ (Pos.succ next))))) VoidTy
             (CondBr (InstRef (Pos.succ (Pos.succ (Pos.succ (Pos.succ next)))))
                TrueDest FalseDest)])
    = Some (m', Sem.Goto dest)
    /\ (boundsOk w (Sem.signed w v) -> dest = TrueDest)
    /\ (~ boundsOk w (Sem.signed w v) -> dest = FalseDest).
Proof.
  intros Hw Hty Hv Hrange Hno Hfresh Hmul Hand.
  destruct (guard_instructions_compute_guardValue F inp m n w v next
              TrueDest FalseDest Hty Hv Hfresh Hmul Hand) as [m' Hrun].
  pose proof (guardValue_without_overflow w v Hw Hrange Hno) as Hiff.
  exists m', (if guardValue w v then TrueDest else FalseDest).
  split; [exact Hrun |].
  destruct (guardValue w v); split; intros H; try done.
  - exfalso. apply H. by apply Hiff.
  - apply Hiff in H. discriminate.
Qed.

(** The regression test, with [n = 7] loaded into [%10] and the guard at
    the instructions 123 to 127 of the transformed function. *)
Lemma lasbc_guard_selects_by_bound_witness :
  exists F',
    lasbcTransformed foo = Some F'
    /\ exists m' dest,
         Sem.execBody F' fooInputs (Sem.mkMachine {[ 10%positive := 7 ]} ∅ [])
           (LASBC.guardInsts (IntTy 64) (InstRef 10) 123
            ++ [mkInst 128 VoidTy (CondBr (InstRef 127) 100 104)])
         = Some (m', Sem.Goto dest)
         /\ (boundsOk 64 (Sem.signed 64 7) -> dest = 100%positive)
         /\ (~ boundsOk 64 (Sem.signed 64 7) -> dest = 104%positive).
Proof.
  lazymatch eval vm_compute in (lasbcTransformed foo) with
  | Some ?G => exists G
  end.
  split; [vm_compute; reflexivity |].
  apply (lasbc_guard_selects_by_bound _ fooInputs
           (Sem.mkMachine {[ 10%positive := 7 ]} ∅ []) (InstRef 10) 64 7
           123%positive 100%positive 104%positive).
  - reflexivity.
  - vm_compute. reflexivity.
  - vm_compute. reflexivity.
  - lia.
  - vm_compute. split; [discriminate | reflexivity].
  - intros j [= <-]. reflexivity.
  - vm_compute. reflexivity.
  - vm_compute. by eexists.
Defined.

(** ** The induction variable LASBC accepts *)

Lemma scanZExtUsers_spec (F : Func) (us : list Instruction) :
  forall (Compare r : option Instruction) (Saw saw' : bool),
    LASBC.scanZExtUsers F us Compare Saw = Some (r, saw') ->
    Forall (fun U => isICmp U || isGEP U = true) us
    /\ match Compare with
       | Some C0 => r = Some C0 /\ List.filter isICmp us = []
       | None =>
           (r = None /\ List.filter isICmp us = [])
           \/ exists C, r = Some C /\ List.filter isICmp us = [C]
                        /\ feedsOneBranch F C
       end
    /\ (saw' = true -> Saw = true \/ Exists (fun U => isGEP U = true) us).
Proof.
  induction us as [| U rest IH]; intros Compare r Saw saw' H.
  - cbn in H. injection H as <- <-. split; [constructor |].
    split; [destruct Compare; [done | by left] | by left].
  - cbn [LASBC.scanZExtUsers] in H. unfold isICmp, isGEP in *.
    destruct (ikind U) eqn:EK; try discriminate.
    + (* a compare *)
      destruct Compare as [C0 |]; [discriminate |].
      destruct (hasOneUser F (InstRef (iid U))) eqn:E1; [| discriminate].
      destruct (users F (InstRef (iid U))) as [| B ?] eqn:E2; [discriminate |].
      cbn [andb] in H. destruct (LASBC.isBranchInst B) eqn:E3; [| discriminate].
      destruct (IH _ _ _ _ H) as (Hall & [-> Hf] & Hsaw).
      split; [constructor; [by rewrite EK | done] |].
      split.
      * right. exists U. split; [done |]. cbn. rewrite EK, Hf.
        split; [done |]. split; [done |]. exists B. by rewrite E2.
      * intros Hs. destruct (Hsaw Hs); [by left | right; by constructor].
    + (* an address computation *)
      destruct (IH _ _ _ _ H) as (Hall & Hc & Hsaw).
      split; [constructor; [by rewrite EK | done] |].
      split.
      * cbn. rewrite EK. exact Hc.
      * intros _. right. constructor. by rewrite EK.
Qed.

(** X8 - an induction variable LASBC accepts, with what the pass records of it:
    a 32-bit integer phi node with two users; on the back edge it takes a
    binary operator of the phi node and a constant, which has one user; one
    user of the phi node is a zero extension, which is used by address
    computations (at least one) and by exactly one compare, and by nothing
    else; that compare feeds one branch. *)
Theorem lasbc_accepted_iv_shape
    (st st' : PassState LASBC.Fields) (PN : Instruction) :
  LASBC.isPHIAnAppropriateIV st PN = Some (true, st') ->
  exists It ZExt Cmp op t c,
    ity PN = IntTy 32
    /\ LASBC.IV (priv st') = Some PN
    /\ LASBC.IVLoopIterationValue (priv st') = Some It
    /\ LASBC.IVLoopIterationValueConstOperand (priv st') = Some (ConstantInt t c)
    /\ LASBC.IVExtension (priv st') = Some ZExt
    /\ (exists b, In (InstRef (iid It), b) (entriesOf PN))
    /\ getInst (fn st) (iid It) = Some It
    /\ ikind It = BinaryOperator op (InstRef (iid PN)) (ConstantInt t c)
    /\ hasOneUser (fn st) (InstRef (iid It)) = true
    /\ length (users (fn st) (InstRef (iid PN))) = 2%nat
    /\ In ZExt (users (fn st) (InstRef (iid PN)))
    /\ LASBC.isZExt ZExt = true
    /\ Forall (fun U => isICmp U || isGEP U = true)
         (users (fn st) (InstRef (iid ZExt)))
    /\ List.filter isICmp (users (fn st) (InstRef (iid ZExt))) = [Cmp]
    /\ Exists (fun U => isGEP U = true) (users (fn st) (InstRef (iid ZExt)))
    /\ feedsOneBranch (fn st) Cmp.
Proof.
  unfold LASBC.isPHIAnAppropriateIV.
  destruct (li st !! CurrentLoop st) as [L |]; cbn [mbind option_bind];
    [| discriminate].
  destruct (LASBC.ivShape (fn st) L PN) as [[[[[It C] Z] Cmp] |] |] eqn:ES;
    cbn [mbind option_bind]; [| discriminate | discriminate].
  destruct (LASBC.captureN Cmp Z) as [n |]; cbn [mbind option_bind];
    [| discriminate].
  destruct (LASBC.nIsInPreheader (fn st) L n); cbn [negb]; [| discriminate].
  destruct (LASBC.branchControlsLoop (fn st) L Cmp) as [[|] |];
    cbn [mbind option_bind negb]; [| discriminate | discriminate].
  intros [= <-]. cbn [priv setPriv LASBC.IV LASBC.IVLoopIterationValue
                      LASBC.IVLoopIterationValueConstOperand LASBC.IVExtension].
  revert ES. unfold LASBC.ivShape, entriesOf.
  destruct (ikind PN) as [inc | | | | | | | | | | | | |] eqn:EPN; try discriminate.
  destruct (ity PN) as [wd | | | |] eqn:ETy; cbn [isIntegerTy negb orb];
    try discriminate.
  cbn [getTypeSizeInBits]. destruct (N.eqb_spec wd 32) as [-> | ?];
    cbn [negb]; [| discriminate].
  destruct (inc !! 0%nat) as [e0 |]; cbn [mbind option_bind]; [| discriminate].
  set (k := (1 - (if contains L (snd e0) then 1 else 0))%nat).
  destruct (inc !! k) as [[v bb] |] eqn:Ek; cbn [mbind option_bind fst];
    [| discriminate].
  destruct v as [| | | | it]; try discriminate.
  destruct (getInst (fn st) it) as [IterValue |] eqn:EIt; [| discriminate].
  destruct (ikind IterValue) as [| op op0 op1 | | | | | | | | | | | |] eqn:EKI;
    try discriminate.
  destruct (hasOneUser (fn st) (InstRef it)) eqn:E1; cbn [negb]; [| discriminate].
  destruct op1 as [t c | | | |]; try discriminate.
  destruct (Value_eqb op0 (InstRef (iid PN))) eqn:E0; cbn [negb]; [| discriminate].
  apply Value_eqb_eq in E0. subst op0.
  destruct (users (fn st) (InstRef (iid PN))) as [| U1 [| U2 [| ? ?]]] eqn:EU;
    try discriminate.
  assert (Hid : iid IterValue = it).
  { unfold getInst in EIt. apply find_some in EIt as [_ E]. by apply Pos.eqb_eq. }
  set (ZE := if LASBC.isZExt U1 then Some U1
             else if LASBC.isZExt U2 then Some U2 else None).
  assert (HZ : forall Zx, ZE = Some Zx ->
            In Zx [U1; U2] /\ LASBC.isZExt Zx = true).
  { unfold ZE. intros Zx. destruct (LASBC.isZExt U1) eqn:Ez1.
    - intros [= <-]. split; [by left | done].
    - destruct (LASBC.isZExt U2) eqn:Ez2; [| discriminate].
      intros [= <-]. split; [right; by left | done]. }
  destruct ZE as [Zx |]; [| discriminate].
  destruct (HZ Zx eq_refl) as [HinZ HisZ].
  destruct (LASBC.scanZExtUsers (fn st) (users (fn st) (InstRef (iid Zx))) None false)
    as [[[Cx |] [|]] |] eqn:Escan; try discriminate.
  intros [= <- <- <- <-].
  destruct (scanZExtUsers_spec _ _ _ _ _ _ Escan) as (Hall & Hc & Hsaw).
  destruct Hc as [[? _] | (C' & [= <-] & Hf & Hfeeds)]; [discriminate |].
  destruct (Hsaw eq_refl) as [? | Hgep]; [discriminate |].
  exists IterValue, Zx, Cx, op, t, c. rewrite Hid.
  split; [done |]. do 4 (split; [done |]).
  split; [exists bb; by apply (lookup_In inc k) |].
  do 9 (split; [done |]). done.
Qed.

(** The induction variable of the regression test. *)
Lemma lasbc_accepted_iv_shape_witness :
  let PN := mkInst 12 i32 (PHINode [(c32 0, 1%positive); (InstRef 21, 3%positive)]) in
  exists st' It ZExt Cmp op t c,
    LASBC.isPHIAnAppropriateIV (lasbcState foo) PN = Some (true, st')
    /\ ity PN = IntTy 32
    /\ LASBC.IV (priv st') = Some PN
    /\ LASBC.IVLoopIterationValue (priv st') = Some It
    /\ LASBC.IVLoopIterationValueConstOperand (priv st') = Some (ConstantInt t c)
    /\ LASBC.IVExtension (priv st') = Some ZExt
    /\ (exists b, In (InstRef (iid It), b) (entriesOf PN))
    /\ getInst foo (iid It) = Some It
    /\ ikind It = BinaryOperator op (InstRef (iid PN)) (ConstantInt t c)
    /\ hasOneUser foo (InstRef (iid It)) = true
    /\ length (users foo (InstRef (iid PN))) = 2%nat
    /\ In ZExt (users foo (InstRef (iid PN)))
    /\ LASBC.isZExt ZExt = true
    /\ Forall (fun U => isICmp U || isGEP U = true) (users foo (InstRef (iid ZExt)))
    /\ List.filter isICmp (users foo (InstRef (iid ZExt))) = [Cmp]
    /\ Exists (fun U => isGEP U = true) (users foo (InstRef (iid ZExt)))
    /\ feedsOneBranch foo Cmp.
Proof.
  cbv zeta.
  lazymatch eval vm_compute in
    (LASBC.isPHIAnAppropriateIV (lasbcState foo)
       (mkInst 12 i32 (PHINode [(c32 0, 1%positive); (InstRef 21, 3%positive)])))
  with Some (_, ?s) => pose (st' := s) end.
  assert (E : LASBC.isPHIAnAppropriateIV (lasbcState foo)
                (mkInst 12 i32 (PHINode [(c32 0, 1%positive); (InstRef 21, 3%positive)]))
              = Some (true, st')) by (vm_compute; reflexivity).
  destruct (lasbc_accepted_iv_shape _ _ _ E) as (It & ZExt & Cmp & op & t & c & H).
  exists st', It, ZExt, Cmp, op, t, c. split; [exact E | exact H].
Defined.

(** ** The branch in the preheader *)

Lemma NoDup_app_disjoint {A} (l k : list A) (x : A) :
  List.NoDup (l ++ k) -> In x l -> In x k -> False.
Proof.
  intros H Hl Hk. apply NoDup_ListNoDup in H. apply NoDup_app in H as (_ & H & _).
  apply (H x); by apply list_elem_of_In.
Qed.

(** With distinct instruction identifiers, two blocks of different names
    share no identifier. *)
Lemma ids_apart (F : Func) (X Y : BasicBlock) (x y : Instruction) :
  List.NoDup (map iid (allInsts F)) ->
  In X F -> In Y F -> In x (binsts X) -> In y (binsts Y) ->
  iid x = iid y -> bid X <> bid Y -> False.
Proof.
  unfold allInsts. induction F as [| A G IH]; intros Hnd HX HY Hx Hy Hid Hne;
    [done |].
  cbn in Hnd. rewrite map_app in Hnd.
  assert (Hin : forall Z z, In Z G -> In z (binsts Z) ->
            In (iid z) (map iid (flat_map binsts G))).
  { intros Z z HZ Hz. apply in_map. apply in_flat_map. by exists Z. }
  destruct HX as [-> | HX], HY as [-> | HY].
  - done.
  - apply (NoDup_app_disjoint _ _ (iid x) Hnd); [by apply in_map |].
    rewrite Hid. by apply (Hin Y).
  - apply (NoDup_app_disjoint _ _ (iid y) Hnd); [by apply in_map |].
    rewrite <- Hid. by apply (Hin X).
  - apply IH; try done. apply NoDup_ListNoDup in Hnd.
    apply NoDup_app in Hnd as (_ & _ & Hnd). by apply NoDup_ListNoDup.
Qed.

Lemma ids_of_block (F : Func) (X : BasicBlock) :
  List.NoDup (map iid (allInsts F)) -> In X F -> List.NoDup (map iid (binsts X)).
Proof.
  unfold allInsts. induction F as [| A G IH]; intros Hnd HX; [done |].
  cbn in Hnd. rewrite map_app in Hnd. apply NoDup_ListNoDup in Hnd.
  apply NoDup_app in Hnd as (H1 & _ & H2).
  destruct HX as [-> | HX]; [by apply NoDup_ListNoDup |].
  apply IH; [by apply NoDup_ListNoDup | done].
Qed.

Lemma getTerminator_last (B : BasicBlock) (T : Instruction) :
  getTerminator B = Some T ->
  exists body, binsts B = body ++ [T] /\ isTerminatorKind (ikind T) = true.
Proof.
  unfold getTerminator.
  destruct (List.last (map Some (binsts B)) None) as [x |] eqn:E; [| discriminate].
  destruct (isTerminatorKind (ikind x)) eqn:Et; [| discriminate].
  intros [= <-]. split with (removelast (binsts B)). split; [| done].
  destruct (binsts B) as [| i l] eqn:Eb; [discriminate |].
  rewrite (app_removelast_last x) at 1 by discriminate. f_equal. f_equal.
  clear -E. revert i E. induction l as [| j l IH]; intros i E.
  - cbn in E. by injection E.
  - cbn. cbn in E. by apply IH.
Qed.

Lemma insertBeforeIn_absent (old : positive) (new l : list Instruction) :
  (forall x, In x l -> iid x <> old) -> insertBeforeIn old new l = l.
Proof.
  induction l as [| x l IH]; intros H; cbn; [done |].
  destruct (Pos.eqb_spec (iid x) old) as [E | _].
  - by destruct (H x (or_introl eq_refl)).
  - f_equal. apply IH. intros y Hy. apply H. by right.
Qed.

Lemma insertBeforeIn_last (old : positive) (new body : list Instruction)
    (T : Instruction) :
  (forall x, In x body -> iid x <> old) -> iid T = old ->
  insertBeforeIn old new (body ++ [T]) = body ++ new ++ [T].
Proof.
  induction body as [| x l IH]; intros H HT; cbn.
  - by rewrite HT, Pos.eqb_refl.
  - destruct (Pos.eqb_spec (iid x) old) as [E | _].
    + by destruct (H x (or_introl eq_refl)).
    + f_equal. apply IH; [| done]. intros y Hy. apply H. by right.
Qed.

Section ReplaceBranch.
Variables (F : Func) (pre : positive) (B : BasicBlock) (OldBr New : Instruction)
          (guard : list Instruction) (c : Value) (T E : positive).
Hypothesis HB : getBlock F pre = Some B.
Hypothesis HT : getTerminator B = Some OldBr.
Hypothesis Hnd : List.NoDup (map iid (allInsts F)).
Hypothesis HNew : ikind New = CondBr c T E.

Let F' := ReplaceInstWithInst (iid OldBr) New (insertBefore (iid OldBr) guard F).

Let rauw := withKind (mapOperands (substValue (InstRef (iid OldBr)) (InstRef (iid New)))).
Let repl := fun ins : Instruction => if Pos.eqb (iid ins) (iid OldBr) then New else ins.
Let h := fun X : BasicBlock =>
  mkBlock (bid X)
    (map repl (map rauw (insertBeforeIn (iid OldBr) guard (binsts X)))).

Lemma replaceBranch_blocks : F' = map h F.
Proof.
  unfold F', ReplaceInstWithInst, replaceAllUsesWith, updInsts, insertBefore.
  rewrite !map_map. apply map_ext. intros X. done.
Qed.

Lemma body_apart (body : list Instruction) :
  binsts B = body ++ [OldBr] -> forall x, In x body -> iid x <> iid OldBr.
Proof.
  intros Eb x Hx Hid.
  pose proof (ids_of_block F B Hnd (getBlock_In F pre B HB)) as Hb.
  rewrite Eb, map_app in Hb.
  apply (NoDup_app_disjoint _ _ (iid x) Hb); [by apply in_map |].
  rewrite Hid. by left.
Qed.

Lemma other_apart (b : positive) (X : BasicBlock) :
  b <> pre -> getBlock F b = Some X -> forall x, In x (binsts X) -> iid x <> iid OldBr.
Proof.
  intros Hne HX x Hx Hid.
  destruct (getTerminator_last B OldBr HT) as (body & Eb & _).
  apply (ids_apart F X B x OldBr Hnd); try done.
  - by apply (getBlock_In F b).
  - by apply (getBlock_In F pre).
  - rewrite Eb. apply in_app_iff. right. by left.
  - rewrite (getBlock_bid F b X HX), (getBlock_bid F pre B HB). done.
Qed.

Lemma rauw_shape (x : Instruction) :
  iid (rauw x) = iid x
  /\ isTerminatorKind (ikind (rauw x)) = isTerminatorKind (ikind x)
  /\ kindSuccessors (ikind (rauw x)) = kindSuccessors (ikind x).
Proof.
  unfold rauw, withKind. cbn.
  destruct (mapOperands_shape
              (substValue (InstRef (iid OldBr)) (InstRef (iid New))) (ikind x))
    as (? & ? & _). done.
Qed.

Lemma repl_rauw_other (x : Instruction) :
  iid x <> iid OldBr ->
  isTerminatorKind (ikind (repl (rauw x))) = isTerminatorKind (ikind x)
  /\ kindSuccessors (ikind (repl (rauw x))) = kindSuccessors (ikind x).
Proof.
  intros Hne. unfold repl. destruct (rauw_shape x) as (Hi & Ht & Hs).
  rewrite Hi. destruct (Pos.eqb_spec (iid x) (iid OldBr)); [done |]. done.
Qed.

(** The control flow after the replacement: the block of the branch goes
    to [T] and [E], the others where they went. *)
Lemma replaceBranch_cfg :
  (successors <$> getBlock F' pre) = Some [T; E]
  /\ (forall b, b <> pre ->
        successors <$> getBlock F' b = successors <$> getBlock F b)
  /\ map bid F' = map bid F.
Proof.
  rewrite replaceBranch_blocks.
  assert (Hbid : forall X, bid (h X) = bid X) by done.
  split; [| split].
  - rewrite (getBlock_map h F pre Hbid), HB. cbn [fmap option_fmap option_map].
    f_equal.
    destruct (getTerminator_last B OldBr HT) as (body & Eb & Hterm).
    unfold h. rewrite Eb.
    rewrite (insertBeforeIn_last (iid OldBr) guard body OldBr
               (body_apart body Eb) eq_refl).
    rewrite app_assoc, !map_app. cbn [map].
    unfold successors, getTerminator. cbn [binsts].
    rewrite last_map_Some_app by discriminate. cbn.
    unfold repl. destruct (rauw_shape OldBr) as (-> & _).
    rewrite Pos.eqb_refl. rewrite HNew. cbn. by rewrite HNew.
  - intros b Hne. rewrite (getBlock_map h F b Hbid).
    destruct (getBlock F b) as [X |] eqn:EX; cbn [fmap option_fmap option_map];
      [| done].
    f_equal. unfold h.
    rewrite (insertBeforeIn_absent _ _ _ (other_apart b X Hne EX)).
    rewrite map_map. unfold successors, getTerminator. cbn [binsts].
    rewrite last_map_Some_map.
    destruct (List.last (map Some (binsts X)) None) as [x |] eqn:El;
      cbn [fmap option_fmap option_map]; [| done].
    cbv beta.
    destruct (repl_rauw_other x) as [Ht Hs];
      [apply (other_apart b X Hne EX); by apply last_map_Some_In |].
    rewrite Ht. by destruct (isTerminatorKind (ikind x)).
  - rewrite map_map. by apply map_ext.
Qed.

End ReplaceBranch.

(** X9 - [LASBCPass::emitPreheaderBranch], called on the terminator of
    the preheader: when it returns, the preheader goes to [TrueDest] and to
    [FalseDest], two different blocks; every other block goes where it
    went, and no block is added or removed. *)
Theorem lasbc_guard_branch_rewires_only_the_preheader
    (st st' : PassState LASBC.Fields) (TrueDest FalseDest : positive)
    (B : BasicBlock) (OldBranch : Instruction) :
  getBlock (fn st) (Preheader st) = Some B ->
  getTerminator B = Some OldBranch ->
  List.NoDup (map iid (allInsts (fn st))) ->
  LASBC.emitPreheaderBranch st TrueDest FalseDest OldBranch = Some st' ->
  TrueDest <> FalseDest
  /\ (successors <$> getBlock (fn st') (Preheader st))
     = Some [TrueDest; FalseDest]
  /\ (forall b, b <> Preheader st ->
        successors <$> getBlock (fn st') b = successors <$> getBlock (fn st) b)
  /\ map bid (fn st') = map bid (fn st).
Proof.
  intros HB HT Hnd H. unfold LASBC.emitPreheaderBranch in H.
  destruct (ikind OldBranch); try discriminate.
  destruct (Pos.eqb_spec TrueDest FalseDest) as [| Hne]; [discriminate |].
  destruct (LASBC.N (priv st)) as [n |]; [| discriminate].
  cbn [mbind option_bind] in H.
  destruct (getType (fn st) n) as [NTy |]; [| discriminate].
  cbn [mbind option_bind] in H. injection H as <-. split; [done |].
  cbn [fn setNext setFn].
  by eapply replaceBranch_cfg.
Qed.

(** The preheader of the test function, block 1, with its branch 11. *)
Lemma lasbc_guard_branch_rewires_only_the_preheader_witness :
  exists st st',
    lasbcCandidate foo = Some st
    /\ LASBC.emitPreheaderBranch st 2 4 (mkInst 11 VoidTy (Br 2)) = Some st'
    /\ (successors <$> getBlock (fn st') 1) = Some [2; 4]%positive
    /\ (successors <$> getBlock (fn st') 2) = (successors <$> getBlock foo 2).
Proof.
  lazymatch eval vm_compute in (lasbcCandidate foo) with
  | Some ?s => pose (st := s)
  end.
  lazymatch eval vm_compute in
    (LASBC.emitPreheaderBranch st 2 4 (mkInst 11 VoidTy (Br 2))) with
  | Some ?s => pose (st' := s)
  end.
  lazymatch eval vm_compute in (getBlock foo 1) with
  | Some ?b => pose (B := b)
  end.
  exists st, st'. split; [vm_compute; reflexivity |].
  assert (He : LASBC.emitPreheaderBranch st 2 4 (mkInst 11 VoidTy (Br 2))
               = Some st') by (vm_compute; reflexivity).
  split; [exact He |].
  destruct (lasbc_guard_branch_rewires_only_the_preheader st st' 2 4
              B (mkInst 11 VoidTy (Br 2)))
    as (_ & H1 & H2 & _).
  - vm_compute; reflexivity.
  - vm_compute; reflexivity.
  - apply NoDup_by_computation. vm_compute; reflexivity.
  - exact He.
  - split; [exact H1 |]. rewrite (H2 2%positive) by discriminate. reflexivity.
Defined.

(** X10 - [LoopConditionalLICMPass::emitPreheaderBranch], when it returns,
    has turned the block that ended in the old branch into one that goes to
    [TrueDest] and to [FalseDest], two different blocks; every other block
    goes where it went, and no block is added or removed. *)
Theorem lclicm_guard_branch_rewires_only_the_preheader
    (st st' : PassState LCLICM.Fields) (TrueDest FalseDest pre : positive)
    (B : BasicBlock) (OldBranch : Instruction) :
  getBlock (fn st) pre = Some B ->
  getTerminator B = Some OldBranch ->
  List.NoDup (map iid (allInsts (fn st))) ->
  LCLICM.emitPreheaderBranch st TrueDest FalseDest OldBranch = Some st' ->
  TrueDest <> FalseDest
  /\ (successors <$> getBlock (fn st') pre) = Some [TrueDest; FalseDest]
  /\ (forall b, b <> pre ->
        successors <$> getBlock (fn st') b = successors <$> getBlock (fn st) b)
  /\ map bid (fn st') = map bid (fn st).
Proof.
  intros HB HT Hnd H. unfold LCLICM.emitPreheaderBranch in H.
  destruct (ikind OldBranch); try discriminate.
  destruct (Pos.eqb_spec TrueDest FalseDest) as [| Hne]; [discriminate |].
  destruct (LCLICM.pairsOfMap _ _ _) as [[[OCPs insts1] n1] |]; [| discriminate].
  cbn [mbind option_bind] in H.
  destruct (LCLICM.emitOrs OCPs n1) as [[Ors insts2] n2].
  destruct (LCLICM.emitFinalCond Ors n2) as [[[FinalCond insts3] n3] |];
    [| discriminate].
  cbn [mbind option_bind] in H. injection H as <-. split; [done |].
  cbn [fn setNext setFn].
  by eapply replaceBranch_cfg.
Qed.

Lemma lclicm_guard_branch_rewires_only_the_preheader_witness :
  exists st',
    LCLICM.emitPreheaderBranch
      (lclicmState fnTest [(InstRef 16, [(InstRef 15, 100); (gArrB, 6400)])])
      9 7 (mkInst 30 VoidTy (Br 9)) = Some st'
    /\ (successors <$> getBlock (fn st') 4) = Some [9; 7]%positive
    /\ (successors <$> getBlock (fn st') 9) = (successors <$> getBlock fnTest 9).
Proof.
  pose (st := lclicmState fnTest [(InstRef 16, [(InstRef 15, 100); (gArrB, 6400)])]).
  lazymatch eval vm_compute in
    (LCLICM.emitPreheaderBranch st 9 7 (mkInst 30 VoidTy (Br 9))) with
  | Some ?s => pose (st' := s)
  end.
  lazymatch eval vm_compute in (getBlock fnTest 4) with
  | Some ?b => pose (B := b)
  end.
  exists st'.
  assert (He : LCLICM.emitPreheaderBranch st 9 7 (mkInst 30 VoidTy (Br 9))
               = Some st') by (vm_compute; reflexivity).
  split; [exact He |].
  destruct (lclicm_guard_branch_rewires_only_the_preheader st st' 9 7 4
              B (mkInst 30 VoidTy (Br 9)))
    as (_ & H1 & H2 & _).
  - vm_compute; reflexivity.
  - vm_compute; reflexivity.
  - apply NoDup_by_computation. vm_compute; reflexivity.
  - exact He.
  - split; [exact H1 |]. rewrite (H2 9%positive) by discriminate. reflexivity.
Defined.

(** ** The cloning loop *)

Lemma idsFrom_In (n : positive) (k : nat) (i : positive) :
  In i (idsFrom n k) -> (Pos.to_nat n <= Pos.to_nat i < Pos.to_nat n + k)%nat.
Proof.
  revert n. induction k as [| k IH]; intros n; cbn; [done |].
  intros [<- | H]; [lia |]. apply IH in H. lia.
Qed.

Lemma idsFrom_length (n : positive) (k : nat) : length (idsFrom n k) = k.
Proof.
  revert n. induction k as [| k IH]; intros n; cbn; [done |]. by rewrite IH.
Qed.

Lemma idsFrom_NoDup (n : positive) (k : nat) : List.NoDup (idsFrom n k).
Proof.
  revert n. induction k as [| k IH]; intros n; cbn; constructor; [| apply IH].
  intros H. apply idsFrom_In in H. lia.
Qed.

Lemma idsFrom_app (n m : positive) (j k : nat) :
  Pos.to_nat m = (Pos.to_nat n + j)%nat ->
  idsFrom n j ++ idsFrom m k = idsFrom n (j + k).
Proof.
  revert n. induction j as [| j IH]; intros n H; cbn.
  - f_equal. lia.
  - f_equal. apply IH. lia.
Qed.

Lemma cloneInsts_spec (insts : list Instruction) (vm : gmap positive positive)
    (next : positive) :
  forall insts' vm' next',
    cloneInsts insts vm next = (insts', vm', next') ->
    map iid insts' = idsFrom next (length insts)
    /\ Pos.to_nat next' = (Pos.to_nat next + length insts)%nat
    /\ (forall i, ~ In i (map iid insts) -> vm' !! i = vm !! i)
    /\ (List.NoDup (map iid insts) ->
        Forall2 (fun i i' => vm' !! iid i = Some (iid i')
                             /\ ity i' = ity i /\ ikind i' = ikind i)
          insts insts').
Proof.
  revert vm next. induction insts as [| ins rest IH]; intros vm next insts' vm' next' H.
  - cbn in H. injection H as <- <- <-. cbn. repeat split; try done; lia.
  - cbn in H.
    destruct (cloneInsts rest (<[iid ins := next]> vm) (Pos.succ next))
      as [[rest' vm1] next1] eqn:E.
    injection H as <- <- <-.
    destruct (IH _ _ _ _ _ E) as (H1 & H2 & H3 & H4).
    split; [| split; [| split]].
    + cbn. by rewrite H1.
    + cbn. lia.
    + intros i Hi. cbn in Hi. rewrite H3 by tauto.
      apply lookup_insert_ne. tauto.
    + intros Hnd. cbn in Hnd. apply List.NoDup_cons_iff in Hnd as [Hn Hnd].
      constructor; [| by apply H4].
      cbn. split; [| done]. rewrite H3 by done. apply lookup_insert_eq.
Qed.

Lemma Forall2_cloned_mono (vm vm' : gmap positive positive)
    (l k : list Instruction) :
  (forall i, In i (map iid l) -> vm' !! i = vm !! i) ->
  Forall2 (fun i i' => vm !! iid i = Some (iid i')
                       /\ ity i' = ity i /\ ikind i' = ikind i) l k ->
  Forall2 (fun i i' => vm' !! iid i = Some (iid i')
                       /\ ity i' = ity i /\ ikind i' = ikind i) l k.
Proof.
  intros Hsame H. induction H as [| x y l k (Hx & Hy) H IH]; constructor.
  - split; [| done]. rewrite Hsame; [done |]. by left.
  - apply IH. intros i Hi. apply Hsame. by right.
Qed.

(** What the instructions of the blocks of [LoopBBs] are called. *)
Lemma cloneBlocks_spec (F : Func) (LoopBBs : list BlockId) :
  List.NoDup LoopBBs ->
  List.NoDup (map iid (allInsts F)) ->
  forall VMap next NewBBs VMap' next',
    cloneBlocks LoopBBs F VMap next = Some (NewBBs, VMap', next') ->
    Forall2 (cloneOf F VMap') LoopBBs NewBBs
    /\ clonedIds NewBBs = idsFrom next (length (clonedIds NewBBs))
    /\ Pos.to_nat next' = (Pos.to_nat next + length (clonedIds NewBBs))%nat
    /\ (forall b, ~ In b LoopBBs -> vmBlock VMap' !! b = vmBlock VMap !! b)
    /\ (forall i,
          (forall b B, In b LoopBBs -> getBlock F b = Some B ->
                       ~ In i (map iid (binsts B))) ->
          vmInst VMap' !! i = vmInst VMap !! i).
Proof.
  intros HndB HndI. induction LoopBBs as [| b rest IH];
    intros VMap next NewBBs VMap' next' H.
  - cbn in H. injection H as <- <- <-. cbn. repeat split; try done; lia.
  - cbn [cloneBlocks] in H.
    destruct (getBlock F b) as [B |] eqn:EB; [| discriminate].
    cbn [mbind option_bind] in H. unfold CloneBasicBlock in H.
    destruct (cloneInsts (binsts B) (vmInst VMap) (Pos.succ next))
      as [[insts' vm1] next1] eqn:Ec.
    destruct (cloneBlocks rest F _ next1) as [[[NewBBs3 VMap3] next3] |] eqn:Er;
      [| discriminate].
    cbn [mbind option_bind] in H. injection H as <- <- <-.
    apply List.NoDup_cons_iff in HndB as [Hnb HndR].
    destruct (IH HndR _ _ _ _ _ Er) as (I1 & I2 & I3 & I4 & I5).
    destruct (cloneInsts_spec _ _ _ _ _ _ Ec) as (C1 & C2 & C3 & C4).
    assert (Hl : length (map iid insts') = length (binsts B))
      by (rewrite C1; apply idsFrom_length).
    split; [| split; [| split; [| split]]].
    + constructor; [| done]. split.
      * rewrite I4 by done. cbn. apply lookup_insert_eq.
      * exists B. split; [done |]. cbn [binsts].
        apply (Forall2_cloned_mono vm1).
        -- intros i Hi. rewrite I5; [done |].
           intros b' B' Hb' EB' Hi'.
           apply in_map_iff in Hi as (x & <- & Hx).
           apply in_map_iff in Hi' as (y & Hxy & Hy).
           apply (ids_apart F B' B y x HndI); try done.
           ++ by apply (getBlock_In F b').
           ++ by apply (getBlock_In F b).
           ++ rewrite (getBlock_bid F b' B' EB'), (getBlock_bid F b B EB).
              intros ->. done.
        -- apply C4. apply (ids_of_block F B HndI). by apply (getBlock_In F b).
    + cbn [clonedIds flat_map bid binsts]. fold (clonedIds NewBBs3).
      cbn [app length]. rewrite length_app, Hl.
      set (k3 := length (clonedIds NewBBs3)) in *.
      rewrite C1, I2.
      apply (idsFrom_app next next1 (S (length (binsts B))) k3). lia.
    + cbn [clonedIds flat_map bid binsts]. fold (clonedIds NewBBs3).
      cbn [app length]. rewrite length_app, Hl. lia.
    + intros b' Hb'. cbn in Hb'. rewrite I4 by tauto. cbn.
      apply lookup_insert_ne. tauto.
    + intros i Hi. rewrite I5.
      * cbn. apply C3. apply (Hi b B); [by left | done].
      * intros b' B' Hb'. apply Hi. by right.
Qed.

(** X11 - the cloning loop of [transformCurrentLoop]: when the blocks of
    [LoopBBs] are pairwise different and the instructions of the function
    have pairwise different names, [NewBBs[I]] is the clone of
    [LoopBBs[I]] for every [I]: the value map sends the block to it and
    each of its instructions to the copy at the same place.  The clones and
    their instructions get pairwise different names, all from the fresh
    supply, and the map entries of the other blocks stay as they were. *)
Theorem cloning_loop_maps_every_block_to_its_clone
    (F : Func) (LoopBBs : list BlockId) (VMap VMap' : ValueMap)
    (next next' : positive) (NewBBs : list BasicBlock) :
  List.NoDup LoopBBs ->
  List.NoDup (map iid (allInsts F)) ->
  cloneBlocks LoopBBs F VMap next = Some (NewBBs, VMap', next') ->
  Forall2 (cloneOf F VMap') LoopBBs NewBBs
  /\ List.NoDup (clonedIds NewBBs)
  /\ Forall (fun i => (next <= i < next')%positive) (clonedIds NewBBs)
  /\ (forall b, ~ In b LoopBBs -> vmBlock VMap' !! b = vmBlock VMap !! b).
Proof.
  intros HndB HndI H.
  destruct (cloneBlocks_spec F LoopBBs HndB HndI _ _ _ _ _ H)
    as (H1 & H2 & H3 & H4 & _).
  split; [done |]. split; [| split; [| done]].
  - rewrite H2. apply idsFrom_NoDup.
  - apply List.Forall_forall. intros i Hi. rewrite H2 in Hi.
    apply idsFrom_In in Hi. lia.
Qed.

Lemma cloning_loop_maps_every_block_to_its_clone_witness :
  exists NewBBs VMap' next',
    cloneBlocks [2; 3; 4]%positive foo (mkVMap ∅ ∅) 100 = Some (NewBBs, VMap', next')
    /\ Forall2 (cloneOf foo VMap') [2; 3; 4]%positive NewBBs
    /\ List.NoDup (clonedIds NewBBs)
    /\ Forall (fun i => (100 <= i < next')%positive) (clonedIds NewBBs).
Proof.
  lazymatch eval vm_compute in
    (cloneBlocks [2; 3; 4]%positive foo (mkVMap ∅ ∅) 100) with
  | Some (?n, ?v, ?x) => pose (NewBBs := n); pose (VMap' := v); pose (next' := x)
  end.
  exists NewBBs, VMap', next'.
  assert (He : cloneBlocks [2; 3; 4]%positive foo (mkVMap ∅ ∅) 100
               = Some (NewBBs, VMap', next')) by (vm_compute; reflexivity).
  split; [exact He |].
  destruct (cloning_loop_maps_every_block_to_its_clone foo [2; 3; 4]%positive
              (mkVMap ∅ ∅) VMap' 100 next' NewBBs) as (H1 & H2 & H3 & _).
  - apply NoDup_by_computation. vm_compute; reflexivity.
  - apply NoDup_by_computation. vm_compute; reflexivity.
  - exact He.
  - split; [exact H1 |]. split; [exact H2 | exact H3].
Defined.

(** ** The clones after the rewrite *)

Lemma cloneInsts_range (insts : list Instruction) (vm : gmap positive positive)
    (next : positive) :
  forall insts' vm' next',
    cloneInsts insts vm next = (insts', vm', next') ->
    forall i j, vm' !! i = Some j -> vm !! i = Some j \/ (next <= j)%positive.
Proof.
  revert vm next. induction insts as [| ins rest IH];
    intros vm next insts' vm' next' H i j Hij.
  - cbn in H. injection H as <- <- <-. by left.
  - cbn in H.
    destruct (cloneInsts rest (<[iid ins := next]> vm) (Pos.succ next))
      as [[rest' vm1] next1] eqn:E.
    injection H as <- <- <-.
    destruct (IH _ _ _ _ _ E i j Hij) as [H | H]; [| right; lia].
    destruct (decide (iid ins = i)) as [<- | Hne].
    + rewrite lookup_insert_eq in H. injection H as <-. right. lia.
    + rewrite lookup_insert_ne in H by done. by left.
Qed.

Lemma cloneInsts_next (insts : list Instruction) (vm : gmap positive positive)
    (next : positive) :
  forall insts' vm' next',
    cloneInsts insts vm next = (insts', vm', next') -> (next <= next')%positive.
Proof.
  intros insts' vm' next' H.
  destruct (cloneInsts_spec _ _ _ _ _ _ H) as (_ & H2 & _). lia.
Qed.

Lemma cloneBlocks_range (F : Func) (LoopBBs : list BlockId) :
  forall VMap next NewBBs VMap' next',
    cloneBlocks LoopBBs F VMap next = Some (NewBBs, VMap', next') ->
    (forall i j, vmInst VMap' !! i = Some j ->
                 vmInst VMap !! i = Some j \/ (next <= j)%positive)
    /\ (forall b c, vmBlock VMap' !! b = Some c ->
                    vmBlock VMap !! b = Some c \/ (next <= c)%positive).
Proof.
  induction LoopBBs as [| b rest IH]; intros VMap next NewBBs VMap' next' H.
  - cbn in H. injection H as <- <- <-. split; intros; by left.
  - cbn [cloneBlocks] in H.
    destruct (getBlock F b) as [B |] eqn:EB; [| discriminate].
    cbn [mbind option_bind] in H. unfold CloneBasicBlock in H.
    destruct (cloneInsts (binsts B) (vmInst VMap) (Pos.succ next))
      as [[insts' vm1] next1] eqn:Ec.
    destruct (cloneBlocks rest F _ next1) as [[[NewBBs3 VMap3] next3] |] eqn:Er;
      [| discriminate].
    cbn [mbind option_bind] in H. injection H as <- <- <-.
    destruct (IH _ _ _ _ _ Er) as [I1 I2].
    pose proof (cloneInsts_next _ _ _ _ _ _ Ec) as Hn.
    split.
    + intros i j Hij. destruct (I1 i j Hij) as [H | H]; [| right; lia].
      cbn in H. destruct (cloneInsts_range _ _ _ _ _ _ Ec i j H) as [H' | H'];
        [by left | right; lia].
    + intros b' c Hc. destruct (I2 b' c Hc) as [H | H]; [| right; lia].
      cbn in H. destruct (decide (b = b')) as [<- | Hne].
      * rewrite lookup_insert_eq in H. injection H as <-. right. cbn. lia.
      * rewrite lookup_insert_ne in H by done. by left.
Qed.

Lemma Forall2_In_l {A B} (R : A -> B -> Prop) (l : list A) (k : list B) (x : A) :
  Forall2 R l k -> In x l -> exists y, In y k /\ R x y.
Proof.
  intros H. induction H as [| a b l k Hab H IH]; [done |].
  intros [<- | Hx].
  - exists b. split; [by left | done].
  - destruct (IH Hx) as (y & Hy & Hxy). exists y. split; [by right | done].
Qed.

Lemma operands_remapped (VMap : ValueMap) (ins : Instruction) :
  operands (ikind (RemapInstruction VMap ins))
  = map (remapValue VMap) (operands (ikind ins)).
Proof.
  unfold RemapInstruction, withKind. cbn.
  destruct (ikind ins) as [inc | | | | | | | | | | | [v |] | |]; cbn; try done.
  by rewrite !map_map.
Qed.

Lemma incomingBlocks_remapped (VMap : ValueMap) (ins : Instruction) :
  incomingBlocks (ikind (RemapInstruction VMap ins))
  = map (remapBlock VMap) (incomingBlocks (ikind ins)).
Proof.
  unfold RemapInstruction, withKind. cbn.
  destruct (ikind ins) as [inc | | | | | | | | | | | | |]; cbn; try done.
  by rewrite !map_map.
Qed.

(** X12 - "Rewrite the code to refer to itself": after the cloning loop,
    started with an empty value map and a fresh supply of names, and the
    rewrite of the new blocks, no instruction of a new block uses an
    instruction of the blocks that were cloned, branches to one of them or
    names one of them as an incoming block. *)
Theorem rewritten_clones_refer_to_themselves
    (F G : Func) (LoopBBs : list BlockId) (VMap' : ValueMap)
    (next next' : positive) (NewBBs : list BasicBlock)
    (B' : BasicBlock) (ins : Instruction) :
  List.NoDup LoopBBs ->
  List.NoDup (map iid (allInsts F)) ->
  fresh F next ->
  (forall B, In B F -> (bid B < next)%positive) ->
  cloneBlocks LoopBBs F (mkVMap ∅ ∅) next = Some (NewBBs, VMap', next') ->
  In B' (remapNewBlocks VMap' NewBBs G) ->
  In (bid B') (map bid NewBBs) ->
  In ins (binsts B') ->
  (forall i, In (InstRef i) (operands (ikind ins)) -> ~ instOfBlocks F LoopBBs i)
  /\ (forall s, In s (kindSuccessors (ikind ins)) -> ~ In s LoopBBs)
  /\ (forall s, In s (incomingBlocks (ikind ins)) -> ~ In s LoopBBs).
Proof.
  intros HndB HndI Hfresh Hblocks Hc HB' Hbid Hins.
  destruct (cloneBlocks_spec F LoopBBs HndB HndI _ _ _ _ _ Hc) as (Hclone & _).
  destruct (cloneBlocks_range F LoopBBs _ _ _ _ _ Hc) as [RI RB].
  assert (HdomB : forall b, In b LoopBBs ->
            exists c, vmBlock VMap' !! b = Some c /\ (next <= c)%positive).
  { intros b Hb.
    destruct (Forall2_In_l _ _ _ b Hclone Hb) as (NB & _ & Hv & _).
    exists (bid NB). split; [done |].
    destruct (RB _ _ Hv) as [H | H]; [| done]. cbn in H.
    by rewrite lookup_empty in H. }
  assert (HoldB : forall b, In b LoopBBs -> (b < next)%positive).
  { intros b Hb.
    destruct (Forall2_In_l _ _ _ b Hclone Hb) as (NB & _ & _ & B & EB & _).
    rewrite <- (getBlock_bid F b B EB). apply Hblocks. by apply (getBlock_In F b). }
  assert (HdomI : forall i, instOfBlocks F LoopBBs i ->
            (i < next)%positive
            /\ exists j, vmInst VMap' !! i = Some j /\ (next <= j)%positive).
  { intros i (b & B & Hb & EB & Hi).
    apply in_map_iff in Hi as (x & <- & Hx). split.
    - apply Hfresh. unfold allInsts. apply in_flat_map. exists B.
      split; [by apply (getBlock_In F b) | done].
    - destruct (Forall2_In_l _ _ _ b Hclone Hb) as (NB & _ & _ & B0 & EB0 & Hf).
      rewrite EB in EB0. injection EB0 as <-.
      destruct (Forall2_In_l _ _ _ x Hf Hx) as (y & _ & Hv & _).
      exists (iid y). split; [done |].
      destruct (RI _ _ Hv) as [H | H]; [| done]. cbn in H.
      by rewrite lookup_empty in H. }
  assert (Hrb : forall s, In (remapBlock VMap' s) LoopBBs -> False).
  { intros s Hs. unfold remapBlock in Hs.
    destruct (vmBlock VMap' !! s) as [c |] eqn:Es; cbn in Hs.
    - destruct (RB _ _ Es) as [H | H]; [cbn in H; by rewrite lookup_empty in H |].
      apply HoldB in Hs. lia.
    - destruct (HdomB s Hs) as (c & Hc' & _). congruence. }
  unfold remapNewBlocks in HB'. apply in_map_iff in HB' as (B0 & <- & HB0).
  assert (E0 : bid (if memb (bid B0) (map bid NewBBs)
                    then mkBlock (bid B0) (map (RemapInstruction VMap') (binsts B0))
                    else B0) = bid B0) by (by destruct (memb _ _)).
  rewrite E0 in Hbid. apply memb_true_iff in Hbid. rewrite Hbid in Hins.
  cbn [binsts] in Hins. apply in_map_iff in Hins as (ins0 & <- & Hins0).
  split; [| split].
  - intros i Hi Hloop. rewrite operands_remapped in Hi.
    apply in_map_iff in Hi as (v0 & Hv0 & _).
    destruct (HdomI i Hloop) as (Hlt & j & Hj & _).
    unfold remapValue, VMap_find in Hv0.
    destruct v0 as [ty0 z0 | ty0 | ty0 n0 | ty0 g0 | i0]; try discriminate.
    destruct (vmInst VMap' !! i0) as [j0 |] eqn:E; cbn in Hv0.
    + injection Hv0 as <-.
      destruct (RI _ _ E) as [H | H]; [cbn in H; by rewrite lookup_empty in H |].
      lia.
    + injection Hv0 as <-. congruence.
  - intros s Hs Hloop.
    destruct (RemapInstruction_successors VMap' ins0) as [_ Hk].
    rewrite Hk in Hs. apply in_map_iff in Hs as (s0 & <- & _). by apply (Hrb s0).
  - intros s Hs Hloop. rewrite incomingBlocks_remapped in Hs.
    apply in_map_iff in Hs as (s0 & <- & _). by apply (Hrb s0).
Qed.

Lemma rewritten_clones_refer_to_themselves_witness :
  exists NewBBs VMap' next' B' ins,
    cloneBlocks [2; 3; 4]%positive foo (mkVMap ∅ ∅) 100 = Some (NewBBs, VMap', next')
    /\ getBlock (remapNewBlocks VMap' NewBBs (foo ++ NewBBs)) 100 = Some B'
    /\ getTerminator B' = Some ins
    /\ (forall i, In (InstRef i) (operands (ikind ins)) ->
                  ~ instOfBlocks foo [2; 3; 4]%positive i)
    /\ (forall s, In s (kindSuccessors (ikind ins)) -> ~ In s [2; 3; 4]%positive).
Proof.
  lazymatch eval vm_compute in
    (cloneBlocks [2; 3; 4]%positive foo (mkVMap ∅ ∅) 100) with
  | Some (?n, ?v, ?x) => pose (NewBBs := n); pose (VMap' := v); pose (next' := x)
  end.
  lazymatch eval vm_compute in
    (getBlock (remapNewBlocks VMap' NewBBs (foo ++ NewBBs)) 100) with
  | Some ?b => pose (B' := b)
  end.
  lazymatch eval vm_compute in (getTerminator B') with
  | Some ?t => pose (ins := t)
  end.
  exists NewBBs, VMap', next', B', ins.
  assert (He : cloneBlocks [2; 3; 4]%positive foo (mkVMap ∅ ∅) 100
               = Some (NewBBs, VMap', next')) by (vm_compute; reflexivity).
  assert (Hb : getBlock (remapNewBlocks VMap' NewBBs (foo ++ NewBBs)) 100 = Some B')
    by (vm_compute; reflexivity).
  split; [exact He |]. split; [exact Hb |]. split; [vm_compute; reflexivity |].
  destruct (rewritten_clones_refer_to_themselves foo (foo ++ NewBBs)
              [2; 3; 4]%positive VMap' 100 next' NewBBs B' ins)
    as (H1 & H2 & _).
  - apply NoDup_by_computation. vm_compute; reflexivity.
  - apply NoDup_by_computation. vm_compute; reflexivity.
  - apply fresh_by_computation. vm_compute; reflexivity.
  - apply List.Forall_forall. repeat constructor.
  - exact He.
  - exact (getBlock_In _ _ _ Hb).
  - left. reflexivity.
  - do 3 right. left. reflexivity.
  - split; [exact H1 | exact H2].
Defined.
